(** * The calendar event model of todoist_helper

    A shallow embedding of [tools_for_todoist/models/event.py]
    (class [CalendarEvent]): timezone resolution, attendee predicates,
    private extended properties, recurrence normalisation and the
    next-occurrence search. *)

From Stdlib Require Import ZArith Ascii String List Lia Bool DecimalString.
From stdpp Require Import base option gmap strings list fin_maps.

Local Open Scope string_scope.
Local Open Scope Z_scope.
Set Warnings "-clear-no-such-hyp".

(** ** Python outcomes

    A call either returns, raises, or (for a loop that goes through the
    instants of a recurrence rule) uses up the fuel of the model. *)

Inductive exn :=
| KeyError | TypeError | AttributeError | AssertionError | ValueError | OverflowError.

Inductive res (A : Type) :=
| Ok (a : A)
| Raise (e : exn)
| OutOfFuel.
Arguments Ok {A} a.
Arguments Raise {A} e.
Arguments OutOfFuel {A}.

Definition res_bind {A B} (m : res A) (k : A -> res B) : res B :=
  match m with
  | Ok a => k a
  | Raise e => Raise e
  | OutOfFuel => OutOfFuel
  end.

Notation "'let*' x ':=' m 'in' k" := (res_bind m (fun x => k))
  (at level 10, x pattern, m at level 100, k at level 200).

Fixpoint res_map {A B} (f : A -> res B) (l : list A) : res (list B) :=
  match l with
  | [] => Ok []
  | x :: l' =>
      let* y := f x in
      let* ys := res_map f l' in
      Ok (y :: ys)
  end.

(** ** Dates and datetimes

    [datetime.date] is a day number (days since 1970-01-01).  A
    [datetime.datetime] carries an optional [tzinfo]; an aware one is
    represented by its UTC instant in seconds and the name of its zone
    ([dateutil.tz.gettz] maps names to zones), a naive one by its wall-clock
    seconds.  Aware datetimes compare, and are equal, by instant. *)

Inductive pytime :=
| PDate (day : Z)
| PDateTime (sec : Z) (tzinfo : option string).

Definition tzinfo_of (x : pytime) : option string :=
  match x with
  | PDate _ => None
  | PDateTime _ tz => tz
  end.

(** [a < b]; ordering a date against a datetime, or a naive datetime against
    an aware one, raises [TypeError]. *)
Definition py_lt (a b : pytime) : res bool :=
  match a, b with
  | PDate x, PDate y => Ok (x <? y)
  | PDateTime x None, PDateTime y None => Ok (x <? y)
  | PDateTime x (Some _), PDateTime y (Some _) => Ok (x <? y)
  | _, _ => Raise TypeError
  end.

(** [a <= b] *)
Definition py_le (a b : pytime) : res bool :=
  match a, b with
  | PDate x, PDate y => Ok (x <=? y)
  | PDateTime x None, PDateTime y None => Ok (x <=? y)
  | PDateTime x (Some _), PDateTime y (Some _) => Ok (x <=? y)
  | _, _ => Raise TypeError
  end.

(** [a > b] *)
Definition py_gt (a b : pytime) : res bool := py_lt b a.

(** [a == b] never raises: values of different shapes are unequal. *)
Definition py_eq (a b : pytime) : bool :=
  match a, b with
  | PDate x, PDate y => x =? y
  | PDateTime x None, PDateTime y None => x =? y
  | PDateTime x (Some _), PDateTime y (Some _) => x =? y
  | _, _ => false
  end.

(** [x in s] for a set [s] of dates and datetimes. *)
Definition py_in (x : pytime) (s : list pytime) : bool := existsb (py_eq x) s.

(** ** What the embedding takes from outside the module

    The zone database and the recurrence-rule parser belong to [dateutil];
    [datetime_as] lives in [tools_for_todoist/utils.py]. *)

(** A parsed recurrence rule: the generator of its instants, in the order
    the rule produces them; [None] once the rule is exhausted. *)
Definition rrule := nat -> option pytime.

Class Externals := {
  (** offset from UTC, in seconds, of a named zone at a UTC instant *)
  utcoffset : string -> Z -> Z;
  (** the host's zone, used by [astimezone] on naive datetimes *)
  local_zone : string;
  local_to_utc : Z -> Z;
  (** [utils.datetime_as(dt, reference)] *)
  datetime_as : pytime -> pytime -> pytime;
  (** [dateutil.rrule.rrulestr(text, dtstart=..., unfold=True)] *)
  rrulestr : string -> pytime -> res rrule
}.

(** The shape of a value: what it can be ordered against. *)
Inductive shape := SDate | SNaive | SAware.

Definition shape_of (x : pytime) : shape :=
  match x with
  | PDate _ => SDate
  | PDateTime _ None => SNaive
  | PDateTime _ (Some _) => SAware
  end.

(** Modelled from the spec: [utils.datetime_as] is not among the sources;
    the spec says that [after] is normalized to the same shape (date vs.
    instant) as the series' start before comparison. *)
Definition datetime_as_normalizes (E : Externals) : Prop :=
  forall dt reference, shape_of (datetime_as dt reference) = shape_of reference.

(** Modelled from the spec: [utils.is_allday] is not among the sources;
    an all-day event is one whose start and end are calendar dates with no
    time-of-day or timezone. *)
Definition is_allday (x : pytime) : bool :=
  match x with
  | PDate _ => true
  | PDateTime _ _ => false
  end.

(** Modelled from the spec: [utils.ensure_datetime] is not among the
    sources; a calendar date becomes the datetime at the start of that day,
    with no timezone (all-day values have none), and a datetime is returned
    as it is. *)
Definition ensure_datetime (x : pytime) : pytime :=
  match x with
  | PDate d => PDateTime (d * 86400) None
  | PDateTime _ _ => x
  end.

Section Datetime.
Context {E : Externals}.

(** [x.date()]; a [datetime.date] has no such method. *)
Definition py_date (x : pytime) : res pytime :=
  match x with
  | PDate _ => Raise AttributeError
  | PDateTime s None => Ok (PDate (s / 86400))
  | PDateTime s (Some tz) => Ok (PDate ((s + utcoffset tz s) / 86400))
  end.

(** [x.astimezone(tz)]; with [tz = None] the host's zone is used. *)
Definition astimezone (x : pytime) (tz : option string) : res pytime :=
  let target := Some (default local_zone tz) in
  match x with
  | PDate _ => Raise AttributeError
  | PDateTime s None => Ok (PDateTime (local_to_utc s) target)
  | PDateTime s (Some _) => Ok (PDateTime s target)
  end.
End Datetime.

(** ** Raw records of the calendar source *)

(** A raw [start] / [end] / [originalStartTime] record.  The strings under
    ['date'] and ['dateTime'] are represented by what [dateutil.parser.parse]
    makes of them: a day number, and the instant of an RFC 3339 timestamp. *)
Record raw_time := {
  date : option Z;
  dateTime : option Z;
  timeZone : option string
}.

Record Attendee := {
  a_self : option bool;
  a_resource : option bool;
  responseStatus : string
}.

Definition loc := positive.

Record RawEvent := {
  r_id : string;
  r_status : string;
  r_summary : option string;
  r_start : option raw_time;
  r_originalStartTime : option raw_time;
  r_recurrence : option (list string);
  r_attendees : option (list Attendee);
  r_extendedProperties : option loc
}.

Record GoogleCalendar := { default_timezone : string }.

(** [exceptions] is a Python dict: insertion-ordered, keyed by the
    exception's id.  The back reference [recurring_event] of an exception to
    its master is not represented. *)
#[warnings="-register-all"]
Inductive CalendarEvent := mkCalendarEvent {
  google_calendar : GoogleCalendar;
  exceptions : list (string * CalendarEvent);
  _raw : RawEvent;
  _id : string;
  summary : option string;
  _extended_properties : option loc
}.

(** ** Timezone resolution and parsed starts *)

Definition _get_timezone (self : CalendarEvent) (raw_start : raw_time) : string :=
  let raw_timezone :=
    default (default_timezone (google_calendar self)) (timeZone raw_start) in
  let raw_timezone :=
    if String.eqb raw_timezone "UTC" then "Europe/London" else raw_timezone in
  raw_timezone.

Definition _parse_start (self : CalendarEvent) (raw_start : raw_time) : res pytime :=
  match date raw_start with
  | Some d => Ok (PDate d)
  | None =>
      match dateTime raw_start with
      | Some t => Ok (PDateTime t (Some (_get_timezone self raw_start)))
      | None => Raise KeyError
      end
  end.

Definition start (self : CalendarEvent) : res pytime :=
  match r_start (_raw self) with
  | Some raw_start => _parse_start self raw_start
  | None => Raise KeyError
  end.

Definition _get_original_start (self : CalendarEvent) : res pytime :=
  match r_originalStartTime (_raw self) with
  | Some raw_start => _parse_start self raw_start
  | None => Raise KeyError
  end.

(** ** Attendee-response predicates *)

Definition attendees (self : CalendarEvent) : list Attendee :=
  default [] (r_attendees (_raw self)).

Definition get_self (x : Attendee) : bool := default false (a_self x).
Definition get_resource (x : Attendee) : bool := default false (a_resource x).

Definition _is_cancelled (self : CalendarEvent) : bool :=
  String.eqb (r_status (_raw self)) "cancelled".

Definition response_status (self : CalendarEvent) : option string :=
  let self_attendee := List.find get_self (attendees self) in
  match self_attendee with
  | Some x => Some (responseStatus x)
  | None => None
  end.

Definition is_declined_by_me (self : CalendarEvent) : bool :=
  match response_status self with
  | Some s => String.eqb s "declined"
  | None => false
  end.

Definition is_declined_by_others (self : CalendarEvent) : bool :=
  let other_attendees :=
    List.filter (fun x => negb (get_self x) && negb (get_resource x)) (attendees self) in
  let all_declined :=
    forallb (fun x => String.eqb (responseStatus x) "declined") other_attendees in
  (0 <? length other_attendees)%nat && all_declined.

(** ** Recurrence normalisation

    Strings are sequences of 8-bit characters; [\d] is an ASCII digit. *)

Definition newline : string := String (ascii_of_nat 10) "".

Definition is_digit (c : ascii) : bool :=
  let n := nat_of_ascii c in (48 <=? n)%nat && (n <=? 57)%nat.

(** [needle in hay] *)
Fixpoint contains (needle hay : string) : bool :=
  String.prefix needle hay
  || match hay with
     | EmptyString => false
     | String _ hay' => contains needle hay'
     end.

Fixpoint strip_prefix (p s : string) : option string :=
  match p, s with
  | EmptyString, _ => Some s
  | String a p', String b s' => if Ascii.eqb a b then strip_prefix p' s' else None
  | String _ _, EmptyString => None
  end.

Fixpoint take_digits (n : nat) (s : string) : option (string * string) :=
  match n, s with
  | O, _ => Some ("", s)
  | S n', String c s' =>
      if is_digit c then
        '(d, r) ← take_digits n' s'; Some (String c d, r)
      else None
  | S _, EmptyString => None
  end.

(** The pattern [UNTIL=(\d{8}T\d{6}Z)] matched at the head of [s]: group 1
    and the text after the match. *)
Definition until_matcher (s : string) : option (string * string) :=
  r0 ← strip_prefix "UNTIL=" s;
  '(d8, r1) ← take_digits 8 r0;
  r2 ← strip_prefix "T" r1;
  '(t6, r3) ← take_digits 6 r2;
  r4 ← strip_prefix "Z" r3;
  Some (d8 +:+ "T" +:+ t6 +:+ "Z", r4).

(** [re.search(until_matcher, s)]: the leftmost match, as the text before
    it, group 1 and the text after it. *)
Fixpoint re_search (s : string) : option (string * string * string) :=
  match until_matcher s with
  | Some (g, rest) => Some ("", g, rest)
  | None =>
      match s with
      | EmptyString => None
      | String c s' =>
          '(pre, g, rest) ← re_search s'; Some (String c pre, g, rest)
      end
  end.

(** [re.sub(until_matcher, repl, s)] for a replacement without escapes:
    every non-overlapping match, from the left, is replaced.  A match is 22
    characters long; [skip] counts those of the current match still to be
    dropped. *)
Fixpoint re_sub (repl : string) (skip : nat) (s : string) : string :=
  match s with
  | EmptyString => ""
  | String c s' =>
      match skip with
      | S k => re_sub repl k s'
      | O =>
          match until_matcher s with
          | Some _ => repl +:+ re_sub repl 21 s'
          | None => String c (re_sub repl 0 s')
          end
      end
  end.

(** *** The proleptic Gregorian calendar of [datetime] *)

Definition days_from_civil (y m d : Z) : Z :=
  let y' := if m <=? 2 then y - 1 else y in
  let era := y' / 400 in
  let yoe := y' - era * 400 in
  let mp := (m + 9) mod 12 in
  let doy := (153 * mp + 2) / 5 + d - 1 in
  let doe := yoe * 365 + yoe / 4 - yoe / 100 + doy in
  era * 146097 + doe - 719468.

Definition civil_from_days (z : Z) : Z * Z * Z :=
  let z := z + 719468 in
  let era := z / 146097 in
  let doe := z - era * 146097 in
  let yoe := (doe - doe / 1460 + doe / 36524 - doe / 146096) / 365 in
  let y := yoe + era * 400 in
  let doy := doe - (365 * yoe + yoe / 4 - yoe / 100) in
  let mp := (5 * doy + 2) / 153 in
  let d := doy - (153 * mp + 2) / 5 + 1 in
  let m := if mp <? 10 then mp + 3 else mp - 9 in
  (if m <=? 2 then y + 1 else y, m, d).

Definition is_leap (y : Z) : bool :=
  (y mod 4 =? 0) && (negb (y mod 100 =? 0) || (y mod 400 =? 0)).

Definition days_in_month (y m : Z) : Z :=
  if m =? 2 then (if is_leap y then 29 else 28)
  else if (m =? 4) || (m =? 6) || (m =? 9) || (m =? 11) then 30
  else 31.

(** [x.year], [x.month], [x.day] of a [datetime.date]; years outside
    1..9999 cannot be represented ([OverflowError] when the value is built). *)
Definition date_fields (x : pytime) : res (Z * Z * Z) :=
  match x with
  | PDate n =>
      let '(y, m, d) := civil_from_days n in
      if (1 <=? y) && (y <=? 9999) then Ok (y, m, d) else Raise OverflowError
  | PDateTime _ _ => Raise AttributeError
  end.

Definition digit_val (c : ascii) : Z := Z.of_nat (nat_of_ascii c) - 48.

Fixpoint number (acc : Z) (s : string) : Z :=
  match s with
  | EmptyString => acc
  | String c s' => number (10 * acc + digit_val c) s'
  end.

(** [dateutil.parser.parse] on group 1 of the pattern, [YYYYMMDDTHHMMSSZ]:
    the aware UTC datetime with these fields, [ValueError] when they do not
    form a date and a time of day. *)
Definition parse_until (g : string) : res pytime :=
  let y := number 0 (substring 0 4 g) in
  let m := number 0 (substring 4 2 g) in
  let d := number 0 (substring 6 2 g) in
  let hh := number 0 (substring 9 2 g) in
  let mm := number 0 (substring 11 2 g) in
  let ss := number 0 (substring 13 2 g) in
  if (1 <=? y) && (1 <=? m) && (m <=? 12) && (1 <=? d) && (d <=? days_in_month y m)
     && (hh <? 24) && (mm <? 60) && (ss <? 60)
  then Ok (PDateTime (days_from_civil y m d * 86400 + hh * 3600 + mm * 60 + ss) (Some "UTC"))
  else Raise ValueError.

(** [str(n)] of an integer *)
Definition str_int (n : Z) : string := NilZero.string_of_int (Z.to_int n).

(** the format [{n:02}] *)
Definition fmt02 (n : Z) : string :=
  if (0 <=? n) && (n <? 10) then "0" +:+ str_int n else str_int n.

Section Recurrence.
Context {E : Externals}.

Definition fix_utc (self : CalendarEvent) (recurrence_line : string) : res string :=
  if negb (contains "RRULE" recurrence_line) || negb (contains "UNTIL" recurrence_line)
  then Ok recurrence_line
  else
    match re_search recurrence_line with
    | Some (_, g, _) =>
        let* utc := parse_until g in
        let* local := astimezone utc (Some (default_timezone (google_calendar self))) in
        let* new_end := py_date local in
        let* (year, month, day) := date_fields new_end in
        Ok (re_sub ("UNTIL=" +:+ str_int year +:+ fmt02 month +:+ fmt02 day) 0
              recurrence_line)
    | None => Ok recurrence_line
    end.

Definition _get_recurrence (self : CalendarEvent) : res (option string) :=
  match r_recurrence (_raw self) with
  | None => Ok None
  | Some recurrence =>
      let* s := start self in
      let* recurrence :=
        if is_allday s then res_map (fix_utc self) recurrence else Ok recurrence in
      Ok (Some (String.concat newline recurrence))
  end.

Definition _get_rrule (self : CalendarEvent) : res (option rrule) :=
  let* rrule := _get_recurrence self in
  match rrule with
  | None => Ok None
  | Some text =>
      let* s := start self in
      let start_date := ensure_datetime s in
      let* instances := rrulestr text start_date in
      Ok (Some instances)
  end.
End Recurrence.

(** ** Next-occurrence search *)

(** A returned pair [(instant_or_date, source_event)]; [(None, None)] when
    there is no occurrence. *)
Definition occurrence : Type := option pytime * option CalendarEvent.

Definition values (d : list (string * CalendarEvent)) : list CalendarEvent := map snd d.

Definition qualifies (x : CalendarEvent) : bool :=
  negb (_is_cancelled x || is_declined_by_me x || is_declined_by_others x).

(** [[(x.start(), x) for x in self.exceptions.values() if not (...)]]: the
    start of an exception is computed only when the condition holds. *)
Fixpoint non_cancelled_exception_starts (xs : list CalendarEvent)
  : res (list (pytime * CalendarEvent)) :=
  match xs with
  | [] => Ok []
  | x :: xs' =>
      if qualifies x then
        let* s := start x in
        let* rest := non_cancelled_exception_starts xs' in
        Ok ((s, x) :: rest)
      else non_cancelled_exception_starts xs'
  end.

(** [((start, event) for start, event in ... if start > after_dt)] *)
Fixpoint future_exception_starts (l : list (pytime * CalendarEvent)) (after_dt : pytime)
  : res (list (pytime * CalendarEvent)) :=
  match l with
  | [] => Ok []
  | (s, event) :: l' =>
      let* b := py_gt s after_dt in
      let* rest := future_exception_starts l' after_dt in
      Ok (if b then (s, event) :: rest else rest)
  end.

(** [min(..., key=lambda x: x[0])] after its first item: a later item
    replaces the best one only when its key is strictly smaller. *)
Fixpoint min_by_start (best : pytime * CalendarEvent) (l : list (pytime * CalendarEvent))
  : res (pytime * CalendarEvent) :=
  match l with
  | [] => Ok best
  | c :: l' =>
      let* b := py_lt (fst c) (fst best) in
      min_by_start (if b then c else best) l'
  end.

Definition first_exception_start (self : CalendarEvent) (after_dt : pytime) : res occurrence :=
  let* starts := non_cancelled_exception_starts (values (exceptions self)) in
  let* future := future_exception_starts starts after_dt in
  match future with
  | [] => Ok (None, None)
  | c :: l =>
      let* best := min_by_start c l in
      Ok (Some (fst best), Some (snd best))
  end.

Definition exception_original_starts (self : CalendarEvent) : res (list pytime) :=
  res_map _get_original_start (values (exceptions self)).

(** The [for] loop over [rrule_instances.xafter(dt)]: [xafter] passes on the
    generated instants [d] with [d > dt], in the order of generation; [i] is
    the position reached in the generator. *)
Fixpoint walk_xafter (fuel : nat) (rrule_instances : rrule) (i : nat) (dt : pytime)
    (self : CalendarEvent) (first_exception_start : occurrence)
    (exception_original_starts : list pytime) : res occurrence :=
  match fuel with
  | O => OutOfFuel
  | S fuel' =>
      match rrule_instances i with
      | None => Ok first_exception_start
      | Some next_regular_occurrence =>
          let* yielded := py_gt next_regular_occurrence dt in
          if yielded then
            let* exception_first :=
              match fst first_exception_start with
              | None => Ok false
              | Some s => py_le s next_regular_occurrence
              end in
            if exception_first then Ok first_exception_start
            else if negb (py_in next_regular_occurrence exception_original_starts)
            then Ok (Some next_regular_occurrence, Some self)
            else walk_xafter fuel' rrule_instances (S i) dt self
                   first_exception_start exception_original_starts
          else walk_xafter fuel' rrule_instances (S i) dt self
                 first_exception_start exception_original_starts
      end
  end.

Definition _find_next_occurrence (fuel : nat) (self : CalendarEvent)
    (rrule_instances : rrule) (after_dt : pytime) : res occurrence :=
  let* first := first_exception_start self after_dt in
  let* originals := exception_original_starts self in
  if is_declined_by_me self || is_declined_by_others self then Ok first
  else walk_xafter fuel rrule_instances 0 (ensure_datetime after_dt) self first originals.

Section NextOccurrence.
Context {E : Externals}.

(** The conversion applied to a found occurrence. *)
Definition normalize (start : pytime) (next_occurrence : pytime) : res pytime :=
  if is_allday start then py_date next_occurrence
  else astimezone next_occurrence (tzinfo_of start).

Definition next_occurrence (fuel : nat) (self : CalendarEvent) (after_dt : pytime)
  : res occurrence :=
  let* start := start self in
  let after_dt := datetime_as after_dt start in
  let* instances := _get_rrule self in
  match instances with
  | None =>
      let is_declined := is_declined_by_me self || is_declined_by_others self in
      let* later := py_lt after_dt start in
      Ok (if later && negb is_declined then (Some start, Some self) else (None, None))
  | Some instances =>
      let* (next_occurrence, source_event) :=
        _find_next_occurrence fuel self instances after_dt in
      match next_occurrence with
      | Some found =>
          let* converted := normalize start found in
          Ok (Some converted, source_event)
      | None => Ok (None, source_event)
      end
  end.
End NextOccurrence.

(** ** Extended properties and the object store

    The dicts under [extendedProperties] are reached both from a raw record
    and from the event built on it, and [save_private_info] writes into
    them; they live in a store and are held by reference: an
    [extendedProperties] dict maps a section name (['private'], ['shared'])
    to a section dict, and a section dict maps keys to strings.  Every other
    part of a raw record is an immutable value, and an event is the value of
    its attributes. *)

Record heap := {
  props : gmap loc (gmap string loc);
  sections : gmap loc (gmap string string)
}.

Definition props_at (h : heap) (l : loc) : gmap string loc := default ∅ (props h !! l).
Definition section_at (h : heap) (l : loc) : gmap string string :=
  default ∅ (sections h !! l).

Definition set_props (l : loc) (d : gmap string loc) (h : heap) : heap :=
  {| props := <[l := d]> (props h); sections := sections h |}.
Definition set_section (l : loc) (d : gmap string string) (h : heap) : heap :=
  {| props := props h; sections := <[l := d]> (sections h) |}.

(** A new dict object with the given content. *)
Definition new_props (d : gmap string loc) (h : heap) : loc * heap :=
  let l := fresh (dom (props h)) in (l, set_props l d h).
Definition new_section (d : gmap string string) (h : heap) : loc * heap :=
  let l := fresh (dom (sections h)) in (l, set_section l d h).

(** [copy.deepcopy] of an [extendedProperties] dict: every section dict is
    copied once ([memo] records the copies already made). *)
Definition deepcopy_entry (acc : heap * gmap loc loc * gmap string loc)
    (kv : string * loc) : heap * gmap loc loc * gmap string loc :=
  let '(h, memo, d) := acc in
  let '(k, p) := kv in
  match memo !! p with
  | Some p' => (h, memo, <[k := p']> d)
  | None =>
      let '(p', h') := new_section (section_at h p) h in
      (h', <[p := p']> memo, <[k := p']> d)
  end.

Definition deepcopy_props (l : loc) (h : heap) : loc * heap :=
  let '(h', _, d) := foldl deepcopy_entry (h, ∅, ∅) (map_to_list (props_at h l)) in
  new_props d h'.

Definition with_extendedProperties (raw : RawEvent) (ep : option loc) : RawEvent :=
  {| r_id := r_id raw; r_status := r_status raw; r_summary := r_summary raw;
     r_start := r_start raw; r_originalStartTime := r_originalStartTime raw;
     r_recurrence := r_recurrence raw; r_attendees := r_attendees raw;
     r_extendedProperties := ep |}.

(** [copy.deepcopy(raw)] *)
Definition deepcopy_raw (raw : RawEvent) (h : heap) : RawEvent * heap :=
  match r_extendedProperties raw with
  | None => (raw, h)
  | Some l =>
      let '(l', h') := deepcopy_props l h in
      (with_extendedProperties raw (Some l'), h')
  end.

Definition update_from_raw (self : CalendarEvent) (raw : RawEvent) (h : heap)
  : CalendarEvent * heap :=
  let '(raw', h') := deepcopy_raw raw h in
  (mkCalendarEvent (google_calendar self) (exceptions self) raw' (_id self)
     (r_summary raw') (r_extendedProperties raw'), h').

Definition from_raw (google_calendar : GoogleCalendar) (raw : RawEvent) (h : heap)
  : CalendarEvent * heap :=
  let event := mkCalendarEvent google_calendar [] raw (r_id raw) None None in
  update_from_raw event raw h.

Definition with_exceptions (self : CalendarEvent) (d : list (string * CalendarEvent))
  : CalendarEvent :=
  mkCalendarEvent (google_calendar self) d (_raw self) (_id self) (summary self)
    (_extended_properties self).

(** [d[key].update_from_raw(raw)] on the entry of an existing key *)
Fixpoint refresh_entry (d : list (string * CalendarEvent)) (key : string)
    (raw : RawEvent) (h : heap) : list (string * CalendarEvent) * heap :=
  match d with
  | [] => ([], h)
  | (k, x) :: d' =>
      if String.eqb k key then
        let '(x', h') := update_from_raw x raw h in ((k, x') :: d', h')
      else
        let '(d'', h') := refresh_entry d' key raw h in ((k, x) :: d'', h')
  end.

Definition update_exception (self : CalendarEvent) (exception : RawEvent) (h : heap)
  : CalendarEvent * heap :=
  if negb (existsb (fun kx => String.eqb (fst kx) (r_id exception)) (exceptions self)) then
    let '(event, h') := from_raw (google_calendar self) exception h in
    (with_exceptions self (exceptions self ++ [(r_id exception, event)]), h')
  else
    let '(d, h') := refresh_entry (exceptions self) (r_id exception) exception h in
    (with_exceptions self d, h').

Definition deep_copy (self : CalendarEvent) (h : heap) : CalendarEvent * heap :=
  foldl (fun acc event_instance => update_exception (fst acc) (_raw event_instance) (snd acc))
    (from_raw (google_calendar self) (_raw self) h)
    (values (exceptions self)).

(** Values handed to [save_private_info]. *)
Inductive pyval :=
| VNone
| VStr (s : string)
| VInt (n : Z)
| VBool (b : bool).

(** [str(value)] *)
Definition py_str (v : pyval) : string :=
  match v with
  | VNone => "None"
  | VStr s => s
  | VInt n => str_int n
  | VBool true => "True"
  | VBool false => "False"
  end.

Definition with_extended_properties (self : CalendarEvent) (ep : option loc)
  : CalendarEvent :=
  mkCalendarEvent (google_calendar self) (exceptions self) (_raw self) (_id self)
    (summary self) ep.

(** The outcome of the call, the event and the store as the call leaves
    them. *)
Definition save_private_info (self : CalendarEvent) (key : string) (value : pyval)
    (h : heap) : res unit * CalendarEvent * heap :=
  match value with
  | VNone => (Raise AssertionError, self, h)
  | _ =>
      let value := py_str value in
      let '(ep, h1) :=
        match _extended_properties self with
        | None => new_props ∅ h
        | Some l => deepcopy_props l h
        end in
      let '(private, h2) :=
        match props_at h1 ep !! "private" with
        | Some p => (p, h1)
        | None =>
            let '(p, h') := new_section ∅ h1 in
            (p, set_props ep (<["private" := p]> (props_at h' ep)) h')
        end in
      let h3 := set_section private (<[key := value]> (section_at h2 private)) h2 in
      (Ok tt, with_extended_properties self (Some ep), h3)
  end.

Definition get_private_info (self : CalendarEvent) (key : string) (h : heap)
  : option string :=
  match _extended_properties self with
  | None => None
  | Some l =>
      match props_at h l !! "private" with
      | Some p => section_at h p !! key
      | None => None
      end
  end.


(** ** The last occurrence of a series *)

(** [list(instances)]: the instants a rule generates from position [i] on,
    in the order of generation.  [instances.count()] and [instances[-1]]
    both go through the whole rule. *)
Fixpoint rrule_list (fuel : nat) (rrule_instances : rrule) (i : nat) : res (list pytime) :=
  match fuel with
  | O => OutOfFuel
  | S fuel' =>
      match rrule_instances i with
      | None => Ok []
      | Some d =>
          let* rest := rrule_list fuel' rrule_instances (S i) in
          Ok (d :: rest)
      end
  end.

Section LastOccurrence.
Context {E : Externals}.

(** [instances] is [None] for an event without recurrence, and [None] has
    no [count].  After the test [instances.count() == 0] the list of the
    instants is not empty, and [instances[-1]] is its last item. *)
Definition _last_occurrence (fuel : nat) (self : CalendarEvent) : res (option pytime) :=
  let* instances := _get_rrule self in
  let* start := start self in
  match instances with
  | None => Raise AttributeError
  | Some instances =>
      let* all := rrule_list fuel instances 0 in
      match rev all with
      | [] => Ok None
      | last_occurrence :: _ =>
          let* last_occurrence :=
            if negb (is_allday start) then astimezone last_occurrence (tzinfo_of start)
            else Ok last_occurrence in
          if is_allday start then
            let* d := py_date last_occurrence in Ok (Some d)
          else Ok (Some last_occurrence)
      end
  end.
End LastOccurrence.

(** ** Sending changes back *)

(** The value of an [extendedProperties] dict: the mappings it holds,
    section by section. *)
Definition content (h : heap) (l : loc) : gmap string (gmap string string) :=
  section_at h <$> props_at h l.

(** [a == b] where each of [a] and [b] is [None] or an [extendedProperties]
    dict: dicts are equal when they hold equal section dicts under the same
    section names. *)
Definition py_eq_props (h : heap) (a b : option loc) : bool :=
  match a, b with
  | None, None => true
  | Some l, Some l' => bool_decide (content h l = content h l')
  | _, _ => false
  end.

(** The dict [updated_fields]: each of its two keys is absent ([None]) or
    holds the event's attribute, which is itself [None] or a value. *)
Record updated_fields := {
  u_summary : option (option string);
  u_extendedProperties : option (option loc)
}.

(** [save] has no result; what it does is the call
    [google_calendar.update_event(self._id, updated_fields)], given here by
    its arguments, or no call at all ([None]) when [updated_fields] is
    empty. *)
Definition save (self : CalendarEvent) (h : heap) : option (string * updated_fields) :=
  let summary_field :=
    if negb (bool_decide (summary self = r_summary (_raw self)))
    then Some (summary self) else None in
  let properties_field :=
    if negb (py_eq_props h (_extended_properties self) (r_extendedProperties (_raw self)))
    then Some (_extended_properties self) else None in
  match summary_field, properties_field with
  | None, None => None
  | _, _ =>
      Some (_id self,
            {| u_summary := summary_field; u_extendedProperties := properties_field |})
  end.

(** ** The conference link *)

(** An entry of ['conferenceData']['entryPoints'], and what a raw record
    holds under ['conferenceData']. *)
Record EntryPoint := {
  entryPointType : option string;
  uri : option string
}.

Record ConferenceData := { entryPoints : option (list EntryPoint) }.

(** [entry.get('entryPointType') == 'video'] *)
Definition is_video (entry : EntryPoint) : bool :=
  bool_decide (entryPointType entry = Some "video").

(** [[entry['uri'] for entry in entries if entry.get('entryPointType') == 'video']] *)
Fixpoint video_entrypoints (entries : list EntryPoint) : res (list string) :=
  match entries with
  | [] => Ok []
  | entry :: entries' =>
      if is_video entry then
        match uri entry with
        | Some u =>
            let* rest := video_entrypoints entries' in
            Ok (u :: rest)
        | None => Raise KeyError
        end
      else video_entrypoints entries'
  end.

Section ConferenceLink.
(** [raw.get('conferenceData')]: a key of the raw record that is read here
    only. *)
Variable get_conferenceData : RawEvent -> option ConferenceData.

Definition conference_link (self : CalendarEvent) : res (option string) :=
  let conference_data := get_conferenceData (_raw self) in
  match conference_data with
  | None => Ok None
  | Some conference_data =>
      match entryPoints conference_data with
      | None => Raise KeyError
      | Some entries =>
          let* video_entrypoints := video_entrypoints entries in
          Ok (head video_entrypoints)
      end
  end.
End ConferenceLink.


(** * Notions used by the properties *)

(** ** Values and events *)

(** The day number of a date, the seconds of a datetime. *)
Definition ticks (x : pytime) : Z :=
  match x with
  | PDate d => d
  | PDateTime t _ => t
  end.

(** The shape the result of [next_occurrence] is given: a calendar date for
    an all-day series, else the same instant in the zone of the start. *)
Definition converted (start d : pytime) : pytime :=
  if is_allday start then PDate (ticks d / 86400) else PDateTime (ticks d) (tzinfo_of start).

(** An attendee of the record that is flagged neither ['self'] nor
    ['resource']: each of the two flags is absent or false. *)
Definition is_other (x : Attendee) : Prop :=
  a_self x <> Some true /\ a_resource x <> Some true.

(** The same event with another [status]. *)
Definition with_status (self : CalendarEvent) (st : string) : CalendarEvent :=
  mkCalendarEvent (google_calendar self) (exceptions self)
    {| r_id := r_id (_raw self); r_status := st; r_summary := r_summary (_raw self);
       r_start := r_start (_raw self);
       r_originalStartTime := r_originalStartTime (_raw self);
       r_recurrence := r_recurrence (_raw self); r_attendees := r_attendees (_raw self);
       r_extendedProperties := r_extendedProperties (_raw self) |}
    (_id self) (summary self) (_extended_properties self).

(** ** The search *)

(** What [first_exception_start] stands for: the earliest start, strictly
    after [after_dt], of an exception that is not cancelled and not declined,
    with that exception; or [(None, None)] when no such exception starts
    after [after_dt]. *)
Definition exception_candidate (self : CalendarEvent) (after_dt : pytime)
    (c : occurrence) : Prop :=
  match c with
  | (Some st, Some x) =>
      In x (values (exceptions self)) /\ qualifies x = true /\ start x = Ok st
      /\ py_gt st after_dt = Ok true
      /\ forall y sy, In y (values (exceptions self)) -> qualifies y = true ->
           start y = Ok sy -> py_gt sy after_dt = Ok true -> py_le st sy = Ok true
  | (None, None) =>
      forall y sy, In y (values (exceptions self)) -> qualifies y = true ->
        start y = Ok sy -> py_gt sy after_dt = Ok false
  | _ => False
  end.

(** The exception candidate does not start at or before [d]. *)
Definition exception_later (first : occurrence) (d : pytime) : Prop :=
  match fst first with
  | None => True
  | Some st => py_le st d = Ok false
  end.

(** The loop goes past [d]: [xafter] does not pass it on (it is not after
    [dt]), or it is an overridden slot that the exception candidate does not
    precede. *)
Definition passed_over (dt : pytime) (first : occurrence) (originals : list pytime)
    (d : pytime) : Prop :=
  py_gt d dt = Ok false
  \/ (py_gt d dt = Ok true /\ exception_later first d /\ py_in d originals = true).

(** The walk has reached position [n] of the rule and stops there. *)
Definition stops_at (gen : rrule) (dt : pytime) (first : occurrence)
    (originals : list pytime) (n : nat) : Prop :=
  (forall j, (j < n)%nat -> exists dj, gen j = Some dj /\ passed_over dt first originals dj)
  /\ (gen n = None
      \/ exists d, gen n = Some d /\ py_gt d dt = Ok true
           /\ ((exists st, fst first = Some st /\ py_le st d = Ok true)
               \/ (exception_later first d /\ py_in d originals = false))).

(** The instants of a rule increase. *)
Definition increasing (gen : rrule) : Prop :=
  forall j d d', gen j = Some d -> gen (S j) = Some d' -> ticks d < ticks d'.

Definition max_ticks (l : list pytime) (bound : Z) : Z :=
  fold_right (fun x acc => Z.max (ticks x) acc) bound l.

(** What [next_occurrence] hands back for a found pair. *)
Definition hand_back {E : Externals} (start : pytime) (found : occurrence) : res occurrence :=
  match fst found with
  | Some f => let* c := normalize start f in Ok (Some c, snd found)
  | None => Ok (None, snd found)
  end.

(** The found pair with its instant in the shape of the series. *)
Definition in_shape_of (s : pytime) (c : occurrence) : occurrence :=
  (option_map (converted s) (fst c), snd c).

(** A series is timed throughout: its start, the starts of its exceptions
    that qualify and the instants of its rule are aware datetimes, and every
    exception records its original start. *)
Definition timed_throughout (self : CalendarEvent) (s : pytime) (gen : rrule) : Prop :=
  start self = Ok s /\ is_allday s = false
  /\ (forall x, In x (values (exceptions self)) -> qualifies x = true ->
        exists st, start x = Ok st /\ is_allday st = false)
  /\ (forall x, In x (values (exceptions self)) -> exists o, _get_original_start x = Ok o)
  /\ (forall j d, gen j = Some d -> shape_of d = SAware).

(** ** The object store *)

(** [h'] has every object of [h], unchanged. *)
Definition heap_extends (h h' : heap) : Prop :=
  (forall l, l ∈ dom (props h) -> props h' !! l = props h !! l)
  /\ (forall l, l ∈ dom (sections h) -> sections h' !! l = sections h !! l).

(** The dicts an event reaches through [_extended_properties] exist. *)
Definition refs_allocated (h : heap) (self : CalendarEvent) : Prop :=
  forall l, _extended_properties self = Some l ->
    l ∈ dom (props h)
    /\ forall k p, props_at h l !! k = Some p -> p ∈ dom (sections h).

(** Saving a list of key-value pairs, one call after the other. *)
Definition save_all (self : CalendarEvent) (kvs : list (string * pyval)) (h : heap)
  : CalendarEvent * heap :=
  foldl (fun acc kv =>
           let '(_, self', h') := save_private_info (fst acc) (fst kv) (snd kv) (snd acc) in
           (self', h'))
        (self, h) kvs.

(** What holds of the copy under construction: the store only grew, and the
    section dicts recorded so far are new objects of the store. *)
Definition copying (h0 : heap) (acc : heap * gmap loc loc * gmap string loc) : Prop :=
  let '(h, memo, d) := acc in
  heap_extends h0 h
  /\ (forall p p', memo !! p = Some p' -> p' ∈ dom (sections h) /\ p' ∉ dom (sections h0))
  /\ (forall k p', d !! k = Some p' -> p' ∈ dom (sections h) /\ p' ∉ dom (sections h0)).

(** ** Date texts *)

(** A text of decimal digits; a date written with eight of them. *)
Definition is_digits (s : string) : bool := forallb is_digit (list_ascii_of_string s).
Definition is_date8 (s : string) : bool := (String.length s =? 8)%nat && is_digits s.

(** [P] holds of the [n] integers from [z] on. *)
Fixpoint all_from (n : nat) (z : Z) (P : Z -> bool) : bool :=
  match n with
  | O => true
  | S n' => P z && all_from n' (z + 1) P
  end.


(** ** Sample data *)

(** A small stand-in for the outside world: New York's offsets in 2024 (UTC
    elsewhere), a host in UTC, a [datetime_as] that keeps the instant or the
    day and takes the shape of its reference, and a rule parser that knows
    the daily rule, plain or with [COUNT=3]. *)
Definition sample_utcoffset (zone : string) (t : Z) : Z :=
  if String.eqb zone "America/New_York" then
    if (1710054000 <=? t) && (t <? 1730613600) then -14400 else -18000
  else 0.

Definition sample_datetime_as (dt reference : pytime) : pytime :=
  match reference with
  | PDate _ => PDate (match dt with PDate d => d | PDateTime t _ => t / 86400 end)
  | PDateTime _ tz =>
      PDateTime (match dt with PDate d => d * 86400 | PDateTime t _ => t end) tz
  end.

(** The calendar day of a datetime, in its own zone. *)
Definition sample_day (x : pytime) : Z :=
  match x with
  | PDate d => d
  | PDateTime t None => t / 86400
  | PDateTime t (Some zone) => (t + sample_utcoffset zone t) / 86400
  end.

(** The daily rule from [dtstart], with its [COUNT] if it has one.  A rule
    of [dateutil] ends with the year 9999 at the latest: the rule without
    [COUNT] has its last instant on 9999-12-31. *)
Definition daily (count : option nat) (dtstart : pytime) : rrule :=
  fun i =>
    let d := PDateTime (ticks dtstart + 86400 * Z.of_nat i) (tzinfo_of dtstart) in
    if days_from_civil 9999 12 31 <? sample_day d then None
    else
      match count with
      | Some c => if (c <=? i)%nat then None else Some d
      | None => Some d
      end.

Definition sample_rrulestr (text : string) (dtstart : pytime) : res rrule :=
  if String.eqb text "RRULE:FREQ=DAILY" then Ok (daily None dtstart)
  else if String.eqb text "RRULE:FREQ=DAILY;COUNT=3" then Ok (daily (Some 3%nat) dtstart)
  else Raise ValueError.

Definition sample_externals : Externals := {|
  utcoffset := sample_utcoffset;
  local_zone := "UTC";
  local_to_utc := fun t => t;
  datetime_as := sample_datetime_as;
  rrulestr := sample_rrulestr
|}.

Definition calendar_ny : GoogleCalendar := {| default_timezone := "America/New_York" |}.

Definition on_day (y m d : Z) : raw_time :=
  {| date := Some (days_from_civil y m d); dateTime := None; timeZone := None |}.

Definition at_time (y m d hh mm : Z) (zone : option string) : raw_time :=
  {| date := None;
     dateTime := Some (days_from_civil y m d * 86400 + hh * 3600 + mm * 60);
     timeZone := zone |}.

Definition accepted_by_me : Attendee :=
  {| a_self := Some true; a_resource := None; responseStatus := "accepted" |}.
Definition declined_by_me : Attendee :=
  {| a_self := Some true; a_resource := None; responseStatus := "declined" |}.

Definition event_of (raw : RawEvent) (exceptions : list (string * CalendarEvent))
  : CalendarEvent :=
  mkCalendarEvent calendar_ny exceptions raw (r_id raw) (r_summary raw)
    (r_extendedProperties raw).

(** An all-day instance of a series, moved from 2024-01-03 to 2024-01-04. *)
Definition moved_day : CalendarEvent :=
  event_of {| r_id := "moved"; r_status := "confirmed"; r_summary := None;
              r_start := Some (on_day 2024 1 4);
              r_originalStartTime := Some (on_day 2024 1 3);
              r_recurrence := None; r_attendees := Some [accepted_by_me];
              r_extendedProperties := None |} [].

(** The same instance moved to 2024-01-04 15:00 instead: a timed instance of
    an all-day series. *)
Definition moved_to_afternoon : CalendarEvent :=
  event_of {| r_id := "moved"; r_status := "confirmed"; r_summary := None;
              r_start := Some (at_time 2024 1 4 15 0 None);
              r_originalStartTime := Some (on_day 2024 1 3);
              r_recurrence := None; r_attendees := Some [accepted_by_me];
              r_extendedProperties := None |} [].

(** The instance of 2024-01-03 cancelled; a cancelled instance carries its
    original start only. *)
Definition cancelled_day : CalendarEvent :=
  event_of {| r_id := "gone"; r_status := "cancelled"; r_summary := None;
              r_start := None;
              r_originalStartTime := Some (on_day 2024 1 3);
              r_recurrence := None; r_attendees := None;
              r_extendedProperties := None |} [].

(** An all-day series from 2024-01-01. *)
Definition allday_series (recurrence : string) (who : list Attendee)
    (exceptions : list (string * CalendarEvent)) : CalendarEvent :=
  event_of {| r_id := "series"; r_status := "confirmed"; r_summary := None;
              r_start := Some (on_day 2024 1 1);
              r_originalStartTime := None;
              r_recurrence := Some [recurrence]; r_attendees := Some who;
              r_extendedProperties := None |} exceptions.

(** An instance of a timed series, moved from 2024-01-03 09:00 to
    2024-01-04 15:00 (UTC times, shown in New York). *)
Definition moved_meeting : CalendarEvent :=
  event_of {| r_id := "moved"; r_status := "confirmed"; r_summary := None;
              r_start := Some (at_time 2024 1 4 15 0 None);
              r_originalStartTime := Some (at_time 2024 1 3 9 0 None);
              r_recurrence := None; r_attendees := Some [accepted_by_me];
              r_extendedProperties := None |} [].

(** A daily series from 2024-01-01 09:00. *)
Definition timed_series (who : list Attendee) (exceptions : list (string * CalendarEvent))
  : CalendarEvent :=
  event_of {| r_id := "series"; r_status := "confirmed"; r_summary := None;
              r_start := Some (at_time 2024 1 1 9 0 None);
              r_originalStartTime := None;
              r_recurrence := Some ["RRULE:FREQ=DAILY"]; r_attendees := Some who;
              r_extendedProperties := None |} exceptions.

Definition jan (d : Z) : pytime := PDate (days_from_civil 2024 1 d).

(** 2024-01-[d] at [hh]:00 UTC, shown in New York. *)
Definition jan_at (d hh : Z) : pytime :=
  PDateTime (days_from_civil 2024 1 d * 86400 + hh * 3600) (Some "America/New_York").

(** A store with one [extendedProperties] dict, holding a task id under
    ['private'], and an event that was read from a raw record pointing at
    it. *)
Definition sample_heap : heap :=
  {| props := {[ 1%positive := {[ "private" := 1%positive ]} ]};
     sections := {[ 1%positive := {[ "task" := "17" ]} ]} |}.

Definition linked_event : CalendarEvent :=
  event_of {| r_id := "linked"; r_status := "confirmed"; r_summary := None;
              r_start := Some (on_day 2024 1 1);
              r_originalStartTime := None;
              r_recurrence := None; r_attendees := None;
              r_extendedProperties := Some 1%positive |} [].

(** * Notions used by the further properties *)

(** ** The rule of a series *)

(** A rule that generates exactly the instants of [l], in this order. *)
Definition generates (gen : rrule) (l : list pytime) : Prop :=
  (forall i d, l !! i = Some d -> gen i = Some d) /\ gen (length l) = None.

(** ** Raw records in the store *)

(** The dicts a raw record reaches through ['extendedProperties'] exist. *)
Definition raw_allocated (h : heap) (raw : RawEvent) : Prop :=
  forall l, r_extendedProperties raw = Some l ->
    l ∈ dom (props h)
    /\ forall k p, props_at h l !! k = Some p -> p ∈ dom (sections h).

(** What a raw record holds under ['extendedProperties']['private'][key]. *)
Definition raw_private_info (raw : RawEvent) (key : string) (h : heap) : option string :=
  match r_extendedProperties raw with
  | None => None
  | Some l => content h l !! "private" ≫= (.!! key)
  end.

(** Two raw records agree on everything but the identity of their
    ['extendedProperties'] dict. *)
Definition same_fields (a b : RawEvent) : Prop :=
  r_id a = r_id b /\ r_status a = r_status b /\ r_summary a = r_summary b
  /\ r_start a = r_start b /\ r_originalStartTime a = r_originalStartTime b
  /\ r_recurrence a = r_recurrence b /\ r_attendees a = r_attendees b.

(** The copies recorded in [memo] hold what their originals held in [h0]. *)
Definition memo_faithful (h0 h : heap) (memo : gmap loc loc) : Prop :=
  forall p p', memo !! p = Some p' ->
    p' ∈ dom (sections h) /\ section_at h p' = section_at h0 p.

(** ** The exceptions of a series *)

(** [d.get(key)] on the dict of exceptions. *)
Definition lookup_exception (d : list (string * CalendarEvent)) (key : string)
  : option CalendarEvent :=
  snd <$> List.find (fun kx => String.eqb (fst kx) key) d.

(** What [update_exception] keeps of the dict of exceptions: every id occurs
    once, and an exception is filed under the id of its raw record. *)
Definition keyed (d : list (string * CalendarEvent)) : Prop :=
  NoDup (map fst d) /\ forall k x, In (k, x) d -> r_id (_raw x) = k /\ _id x = k.

(** No section dict of the dict at [l] is held under two names, as in a
    record that was read from JSON. *)
Definition unshared (h : heap) (l : loc) : Prop :=
  forall k1 k2 p, props_at h l !! k1 = Some p -> props_at h l !! k2 = Some p -> k1 = k2.

(** The value of the [extendedProperties] an event holds; [None] counts as
    an empty dict. *)
Definition held (self : CalendarEvent) (h : heap) : gmap string (gmap string string) :=
  match _extended_properties self with
  | None => ∅
  | Some l => content h l
  end.

(** An event that was just read from the raw record [raw] of the store
    [h0], seen in the store [h]. *)
Definition read_from (raw : RawEvent) (h0 : heap) (x : CalendarEvent) (h : heap) : Prop :=
  same_fields (_raw x) raw
  /\ summary x = r_summary raw
  /\ _extended_properties x = r_extendedProperties (_raw x)
  /\ forall key, get_private_info x key h = raw_private_info raw key h0.

(** The entry [kx'] of a copied series stands for the entry [kx] of the
    original: it has the same id and was read from the raw record of [kx],
    and it has no exceptions of its own. *)
Definition copied_entry (h0 h : heap) (kx kx' : string * CalendarEvent) : Prop :=
  fst kx' = fst kx
  /\ _id (snd kx') = fst kx
  /\ exceptions (snd kx') = []
  /\ read_from (_raw (snd kx)) h0 (snd kx') h.

(** ** Sample data *)

(** The linked event with one moved instance filed under it. *)
Definition linked_series : CalendarEvent :=
  event_of (_raw linked_event) [("moved", moved_meeting)].


(** * Properties *)

(** ** Timezone resolution *)

(** C6: a timed raw record resolves its zone from its own [timeZone] field,
    from the calendar's default zone when the field is absent, and a resolved
    name of exactly [UTC] becomes [Europe/London]; the parsed start carries
    the zone so resolved. *)
Theorem get_timezone_resolution (self : CalendarEvent) (raw_start : raw_time) :
  let explicit := timeZone raw_start in
  let fallback := default_timezone (google_calendar self) in
  (forall z, explicit = Some z -> z <> "UTC" -> _get_timezone self raw_start = z)
  /\ (explicit = None -> fallback <> "UTC" -> _get_timezone self raw_start = fallback)
  /\ (explicit = Some "UTC" \/ (explicit = None /\ fallback = "UTC") ->
      _get_timezone self raw_start = "Europe/London")
  /\ (forall t, date raw_start = None -> dateTime raw_start = Some t ->
      _parse_start self raw_start = Ok (PDateTime t (Some (_get_timezone self raw_start)))).
Proof.
  cbn zeta. unfold _get_timezone, _parse_start. repeat split.
  - intros z -> Hz. cbn. apply String.eqb_neq in Hz. now rewrite Hz.
  - intros -> Hz. cbn. apply String.eqb_neq in Hz. now rewrite Hz.
  - intros [-> | [-> ->]]; reflexivity.
  - intros t -> ->. reflexivity.
Qed.

(** ** Attendee-response predicates *)

(** C7: an event is declined by others exactly when its record lists an
    attendee that is flagged neither ['self'] nor ['resource'] and every
    such attendee has the response ['declined']; without an ['attendees']
    field the predicate is false.  The attendees and their flags are those
    of the raw record. *)
Theorem is_declined_by_others_iff (self : CalendarEvent) :
  (forall l, r_attendees (_raw self) = Some l ->
     (is_declined_by_others self = true <->
        (exists x, In x l /\ is_other x)
        /\ (forall x, In x l -> is_other x -> responseStatus x = "declined")))
  /\ (r_attendees (_raw self) = None -> is_declined_by_others self = false).
Proof.
  unfold is_declined_by_others, attendees, is_other. split.
  - intros l ->. cbn [default from_option id].
    set (other := fun x => negb (get_self x) && negb (get_resource x)).
    assert (Hother : forall x,
              other x = true <-> a_self x <> Some true /\ a_resource x <> Some true).
    { intros x. unfold other, get_self, get_resource.
      rewrite andb_true_iff, !negb_true_iff.
      destruct (a_self x) as [[|]|], (a_resource x) as [[|]|]; cbn;
        split; intros [H1 H2]; split; congruence. }
    rewrite andb_true_iff, forallb_forall, Nat.ltb_lt. split.
    + intros [Hlen Hall]. split.
      * destruct (List.filter other l) as [|x l'] eqn:Hf; [simpl in Hlen; lia|].
        exists x. assert (Hx : In x (List.filter other l)) by (rewrite Hf; now left).
        apply filter_In in Hx as [Hin Ho]. split; [exact Hin | now apply Hother].
      * intros x Hin Ho. apply String.eqb_eq, Hall, filter_In.
        split; [exact Hin | now apply Hother].
    + intros [[x [Hin Ho]] Hall]. split.
      * assert (Hx : In x (List.filter other l))
          by (apply filter_In; split; [exact Hin | now apply Hother]).
        destruct (List.filter other l); [destruct Hx | simpl; lia].
      * intros y Hy. apply filter_In in Hy as [Hin' Ho'].
        apply String.eqb_eq, Hall; [exact Hin' | now apply Hother].
  - intros ->. reflexivity.
Qed.

(** ** Private properties *)

Lemma props_at_set_props l d h : props_at (set_props l d h) l = d.
Proof. unfold props_at, set_props. cbn. now rewrite lookup_insert_eq. Qed.

Lemma props_at_set_section l d h l' : props_at (set_section l d h) l' = props_at h l'.
Proof. reflexivity. Qed.

Lemma section_at_set_section l d h : section_at (set_section l d h) l = d.
Proof. unfold section_at, set_section. cbn. now rewrite lookup_insert_eq. Qed.

(** C8: saving [None] raises at once; the event and the store are left as
    they were. *)
Theorem save_private_info_none (self : CalendarEvent) (key : string) (h : heap) :
  save_private_info self key VNone h = (Raise AssertionError, self, h).
Proof. reflexivity. Qed.

(** C10: after a value other than [None] is saved under a key, reading the
    key gives the value's string form [str(v)]. *)
Theorem save_then_get_private_info (self : CalendarEvent) (key : string) (v : pyval)
    (h : heap) :
  v <> VNone ->
  let '(outcome, self', h') := save_private_info self key v h in
  outcome = Ok tt /\ get_private_info self' key h' = Some (py_str v).
Proof.
  intros Hv.
  assert (Hgen : forall value ep h1,
    let '(private, h2) :=
      match props_at h1 ep !! "private" with
      | Some p => (p, h1)
      | None =>
          let '(p, h') := new_section ∅ h1 in
          (p, set_props ep (<["private" := p]> (props_at h' ep)) h')
      end in
    let h3 := set_section private (<[key := value]> (section_at h2 private)) h2 in
    get_private_info (with_extended_properties self (Some ep)) key h3 = Some value).
  { intros value ep h1. unfold get_private_info. cbn [_extended_properties with_extended_properties].
    destruct (props_at h1 ep !! "private") as [p|] eqn:Hp.
    - cbn zeta. rewrite props_at_set_section, Hp, section_at_set_section.
      apply lookup_insert_eq.
    - unfold new_section. cbn zeta.
      rewrite props_at_set_section, props_at_set_props, lookup_insert_eq,
        section_at_set_section.
      apply lookup_insert_eq. }
  unfold save_private_info.
  destruct v as [|s|n|b]; [congruence| | |];
    (destruct (match _extended_properties self with
               | Some l => deepcopy_props l h
               | None => new_props ∅ h
               end) as [ep h1];
     match goal with
     | |- context [py_str ?x] => specialize (Hgen (py_str x) ep h1)
     end;
     destruct (match props_at h1 ep !! "private" with
               | Some p => (p, h1)
               | None => _
               end) as [private h2];
     split; [reflexivity | exact Hgen]).
Qed.

(** An integer task id is read back as its decimal text. *)
Example save_private_info_integer :
  py_str (VInt 12345) = "12345".
Proof. reflexivity. Qed.

(** ** Next occurrence of a single event *)

Lemma parse_start_shape self raw_start s :
  _parse_start self raw_start = Ok s -> shape_of s = SDate \/ shape_of s = SAware.
Proof.
  unfold _parse_start. destruct (date raw_start); [intros [= <-]; now left|].
  destruct (dateTime raw_start); [intros [= <-]; now right | discriminate].
Qed.

Lemma start_shape self s : start self = Ok s -> shape_of s = SDate \/ shape_of s = SAware.
Proof.
  unfold start. destruct (r_start (_raw self)); [apply parse_start_shape | discriminate].
Qed.

Lemma py_lt_same_shape a b :
  shape_of a = shape_of b -> py_lt a b = Ok (ticks a <? ticks b).
Proof. destruct a as [x|x [?|]], b as [y|y [?|]]; cbn; congruence. Qed.

Lemma py_le_same_shape a b :
  shape_of a = shape_of b -> py_le a b = Ok (ticks a <=? ticks b).
Proof. destruct a as [x|x [?|]], b as [y|y [?|]]; cbn; congruence. Qed.

Lemma py_lt_Ok a b r : py_lt a b = Ok r -> shape_of a = shape_of b /\ r = (ticks a <? ticks b).
Proof. destruct a as [x|x [?|]], b as [y|y [?|]]; cbn; intros [= <-] || discriminate; auto. Qed.

Lemma py_le_Ok a b r : py_le a b = Ok r -> shape_of a = shape_of b /\ r = (ticks a <=? ticks b).
Proof. destruct a as [x|x [?|]], b as [y|y [?|]]; cbn; intros [= <-] || discriminate; auto. Qed.

(** C2: an event without recurrence yields its own start when that start is
    strictly after the normalized [after] and the event is declined neither
    by its owner nor by all others, and [(None, None)] otherwise; the answer
    is the same whatever the event's [status] is. *)
Theorem next_occurrence_single (E : Externals) (self : CalendarEvent)
    (after s : pytime) (fuel : nat) :
  datetime_as_normalizes E ->
  r_recurrence (_raw self) = None ->
  start self = Ok s ->
  let after_dt := datetime_as after s in
  let is_declined := is_declined_by_me self || is_declined_by_others self in
  let wanted := (ticks after_dt <? ticks s) && negb is_declined in
  next_occurrence fuel self after
    = Ok (if wanted then (Some s, Some self) else (None, None))
  /\ forall st,
      next_occurrence fuel (with_status self st) after
        = Ok (if wanted then (Some s, Some (with_status self st)) else (None, None)).
Proof.
  intros Hn Hrec Hs. cbn zeta.
  assert (Hone : forall ev, start ev = Ok s -> r_recurrence (_raw ev) = None ->
    next_occurrence fuel ev after
      = Ok (if (ticks (datetime_as after s) <? ticks s)
               && negb (is_declined_by_me ev || is_declined_by_others ev)
            then (Some s, Some ev) else (None, None))).
  { intros ev Hev Hr. unfold next_occurrence, _get_rrule, _get_recurrence.
    rewrite Hev, Hr. cbn [res_bind].
    rewrite py_lt_same_shape by apply Hn. reflexivity. }
  split; [now apply Hone|].
  intros st. now rewrite (Hone (with_status self st)).
Qed.

(** ** The walk over the regular instants *)

Lemma exception_later_test first d :
  exception_later first d ->
  match fst first with
  | None => Ok false
  | Some st => py_le st d
  end = Ok false.
Proof. unfold exception_later. now destruct (fst first). Qed.

Lemma walk_xafter_skip (gen : rrule) dt self first originals n :
  forall fuel i,
    (forall j, (j < n)%nat -> exists dj, gen (i + j)%nat = Some dj
                                /\ passed_over dt first originals dj) ->
    walk_xafter (n + fuel) gen i dt self first originals
    = walk_xafter fuel gen (i + n)%nat dt self first originals.
Proof.
  induction n as [|n IH]; intros fuel i Hskip.
  - now rewrite Nat.add_0_r.
  - destruct (Hskip 0%nat ltac:(lia)) as [d0 [Hg Hp]]. rewrite Nat.add_0_r in Hg.
    cbn [Nat.add walk_xafter]. rewrite Hg.
    assert (Hrest : walk_xafter (n + fuel) gen (S i) dt self first originals
                    = walk_xafter fuel gen (i + S n)%nat dt self first originals).
    { rewrite IH; [f_equal; lia|]. intros j Hj.
      destruct (Hskip (S j) ltac:(lia)) as [dj [Hgj Hpj]].
      exists dj. split; [|exact Hpj]. now replace (S i + j)%nat with (i + S j)%nat by lia. }
    destruct Hp as [Hle | [Hgt [Hlater Hin]]].
    + rewrite Hle. cbn [res_bind]. exact Hrest.
    + rewrite Hgt. cbn [res_bind]. rewrite (exception_later_test _ _ Hlater).
      cbn [res_bind]. rewrite Hin. cbn [negb]. exact Hrest.
Qed.

(** What the walk returns at the position where it stops. *)
Lemma walk_xafter_stop (gen : rrule) dt self first originals n fuel :
  (forall j, (j < n)%nat -> exists dj, gen j = Some dj /\ passed_over dt first originals dj) ->
  (n < fuel)%nat ->
  (gen n = None -> walk_xafter fuel gen 0 dt self first originals = Ok first)
  /\ (forall d, gen n = Some d -> py_gt d dt = Ok true ->
        (forall st, fst first = Some st -> py_le st d = Ok true ->
           walk_xafter fuel gen 0 dt self first originals = Ok first)
        /\ (exception_later first d -> py_in d originals = false ->
           walk_xafter fuel gen 0 dt self first originals = Ok (Some d, Some self))).
Proof.
  intros Hskip Hfuel.
  replace fuel with (n + S (fuel - S n))%nat by lia.
  rewrite walk_xafter_skip by exact Hskip.
  cbn [Nat.add walk_xafter]. split.
  - now intros ->.
  - intros d -> Hgt. rewrite Hgt. cbn [res_bind]. split.
    + intros st -> Hle. rewrite Hle. reflexivity.
    + intros Hlater Hin. rewrite (exception_later_test _ _ Hlater). cbn [res_bind].
      now rewrite Hin.
Qed.

(** ** Regular occurrences of a series without exceptions *)

Lemma normalize_regular (E : Externals) self after s d b :
  datetime_as_normalizes E ->
  start self = Ok s ->
  py_gt d (ensure_datetime (datetime_as after s)) = Ok b ->
  normalize s d = Ok (converted s d).
Proof.
  intros Hn Hs Hgt. unfold py_gt in Hgt. apply py_lt_Ok in Hgt as [Hshape _].
  specialize (Hn after s). apply start_shape in Hs.
  unfold normalize, converted.
  destruct s as [ds|ts [tz|]]; cbn in Hs; destruct Hs as [Hs|Hs]; try discriminate;
    destruct (datetime_as after _) as [da|ta [tza|]]; cbn in Hn; try discriminate;
    destruct d as [dd|td [tzd|]]; cbn in Hshape; try discriminate; reflexivity.
Qed.

Lemma find_next_occurrence_no_exceptions fuel self gen after_dt :
  exceptions self = [] ->
  is_declined_by_me self = false ->
  is_declined_by_others self = false ->
  _find_next_occurrence fuel self gen after_dt
  = walk_xafter fuel gen 0 (ensure_datetime after_dt) self (None, None) [].
Proof.
  intros Hex Hme Hoth.
  unfold _find_next_occurrence, first_exception_start, exception_original_starts.
  rewrite Hex, Hme, Hoth. reflexivity.
Qed.

(** C4: for a series without exceptions that is not declined,
    [next_occurrence] returns the first instant the rule generates strictly
    after the normalized [after], paired with the master, as a calendar date
    when the series is all-day and else in the zone of the series' start. *)
Theorem next_occurrence_regular (E : Externals) (self : CalendarEvent)
    (after s : pytime) (gen : rrule) (n : nat) (d : pytime) (fuel : nat) :
  datetime_as_normalizes E ->
  start self = Ok s ->
  _get_rrule self = Ok (Some gen) ->
  exceptions self = [] ->
  is_declined_by_me self = false ->
  is_declined_by_others self = false ->
  let dt := ensure_datetime (datetime_as after s) in
  (forall j, (j < n)%nat -> exists dj, gen j = Some dj /\ py_gt dj dt = Ok false) ->
  gen n = Some d ->
  py_gt d dt = Ok true ->
  (n < fuel)%nat ->
  next_occurrence fuel self after = Ok (Some (converted s d), Some self).
Proof.
  intros Hn Hs Hrule Hex Hme Hoth dt Hbefore Hgen Hgt Hfuel.
  unfold next_occurrence. rewrite Hs, Hrule. cbn [res_bind].
  rewrite find_next_occurrence_no_exceptions by assumption.
  destruct (walk_xafter_stop gen dt self (None, None) [] n fuel) as [_ Hstop].
  - intros j Hj. destruct (Hbefore j Hj) as [dj [Hg Hle]].
    exists dj. split; [exact Hg | now left].
  - exact Hfuel.
  - destruct (Hstop d Hgen Hgt) as [_ Hret]. fold dt.
    rewrite Hret by (reflexivity || exact I). cbn [res_bind].
    now rewrite (normalize_regular E self after s d true) by assumption.
Qed.

(** A rule with no instant after [after] gives [(None, None)]. *)
Lemma next_occurrence_regular_exhausted (E : Externals) (self : CalendarEvent)
    (after s : pytime) (gen : rrule) (n : nat) (fuel : nat) :
  start self = Ok s ->
  _get_rrule self = Ok (Some gen) ->
  exceptions self = [] ->
  is_declined_by_me self = false ->
  is_declined_by_others self = false ->
  let dt := ensure_datetime (datetime_as after s) in
  (forall j, (j < n)%nat -> exists dj, gen j = Some dj /\ py_gt dj dt = Ok false) ->
  gen n = None ->
  (n < fuel)%nat ->
  next_occurrence fuel self after = Ok (None, None).
Proof.
  intros Hs Hrule Hex Hme Hoth dt Hbefore Hgen Hfuel.
  unfold next_occurrence. rewrite Hs, Hrule. cbn [res_bind].
  rewrite find_next_occurrence_no_exceptions by assumption.
  destruct (walk_xafter_stop gen dt self (None, None) [] n fuel) as [Hstop _].
  - intros j Hj. destruct (Hbefore j Hj) as [dj [Hg Hle]].
    exists dj. split; [exact Hg | now left].
  - exact Hfuel.
  - fold dt. now rewrite Hstop.
Qed.

(** ** The exception candidate *)

Lemma non_cancelled_exception_starts_spec xs l :
  non_cancelled_exception_starts xs = Ok l ->
  (forall s x, In (s, x) l -> In x xs /\ qualifies x = true /\ start x = Ok s)
  /\ (forall x s, In x xs -> qualifies x = true -> start x = Ok s -> In (s, x) l).
Proof.
  revert l. induction xs as [|x xs IH]; intros l; cbn.
  - intros [= <-]. split; [intros ? ? [] | intros ? ? []].
  - destruct (qualifies x) eqn:Hq.
    + destruct (start x) as [s0| |] eqn:Hs0; cbn; try discriminate.
      destruct (non_cancelled_exception_starts xs) as [rest| |]; cbn; try discriminate.
      intros [= <-]. destruct (IH rest eq_refl) as [IH1 IH2]. split.
      * intros s y [[= <- <-] | Hin]; [auto|].
        destruct (IH1 _ _ Hin) as (? & ? & ?). auto.
      * intros y s [<- | Hin] Hqy Hsy; [left; congruence | right; eauto].
    + intros Hl. destruct (IH l Hl) as [IH1 IH2]. split.
      * intros s y Hin. destruct (IH1 _ _ Hin) as (? & ? & ?). auto.
      * intros y s [<- | Hin] Hqy Hsy; [congruence | eauto].
Qed.

Lemma future_exception_starts_spec l after_dt f :
  future_exception_starts l after_dt = Ok f ->
  (forall c, In c f <-> In c l /\ py_gt (fst c) after_dt = Ok true)
  /\ (forall c, In c l -> exists b, py_gt (fst c) after_dt = Ok b).
Proof.
  revert f. induction l as [|[s x] l IH]; intros f; cbn.
  - intros [= <-]. split; [intros c; cbn; tauto | intros ? []].
  - destruct (py_gt s after_dt) as [b| |] eqn:Hb; cbn; try discriminate.
    destruct (future_exception_starts l after_dt) as [rest| |]; cbn; try discriminate.
    intros [= <-]. destruct (IH rest eq_refl) as [IH1 IH2]. split.
    + intros c. destruct b; cbn; rewrite IH1; split.
      * intros [<- | [? ?]]; auto.
      * intros [[<- | ?] ?]; auto.
      * intros [? ?]; auto.
      * intros [[<- | ?] Hc]; [cbn in Hc; congruence | auto].
    + intros c [<- | Hin]; [eauto | auto].
Qed.

Lemma min_by_start_spec l : forall best m,
  min_by_start best l = Ok m ->
  In m (best :: l)
  /\ forall c, In c (best :: l) ->
       shape_of (fst c) = shape_of (fst m) /\ ticks (fst m) <= ticks (fst c).
Proof.
  induction l as [|c l IH]; intros best m; cbn [min_by_start].
  - intros [= <-]. split; [now left|]. intros c [<- | []]. split; [reflexivity | lia].
  - destruct (py_lt (fst c) (fst best)) as [b| |] eqn:Hb; cbn [res_bind]; try discriminate.
    intros Hm. apply py_lt_Ok in Hb as [Hshape ->].
    destruct (IH _ _ Hm) as [Hin Hall].
    assert (Hbest : shape_of (fst best) = shape_of (fst m)
                    /\ ticks (fst m) <= ticks (fst best)
                    /\ ticks (fst m) <= ticks (fst c)).
    { destruct (Hall _ (or_introl eq_refl)) as [Hsh Hle].
      destruct (Z.ltb_spec (ticks (fst c)) (ticks (fst best))); split; try lia; congruence. }
    split.
    + destruct Hin as [<- | Hin]; [|now right; right].
      destruct (ticks (fst c) <? ticks (fst best)); [right; now left | now left].
    + intros c' [<- | [<- | Hin']].
      * split; [tauto | lia].
      * split; [intuition congruence | lia].
      * apply Hall. now right.
Qed.

Lemma first_exception_start_spec self after_dt c :
  first_exception_start self after_dt = Ok c -> exception_candidate self after_dt c.
Proof.
  unfold first_exception_start.
  destruct (non_cancelled_exception_starts _) as [starts| |] eqn:Hst; cbn [res_bind];
    try discriminate.
  destruct (future_exception_starts starts after_dt) as [future| |] eqn:Hfu;
    cbn [res_bind]; try discriminate.
  apply non_cancelled_exception_starts_spec in Hst as [Hst1 Hst2].
  apply future_exception_starts_spec in Hfu as [Hfu1 Hfu2].
  destruct future as [|c0 l].
  - intros [= <-]. cbn. intros y sy Hin Hq Hs.
    destruct (Hfu2 _ (Hst2 _ _ Hin Hq Hs)) as [[|] Hb]; [|exact Hb].
    exfalso. apply (proj2 (Hfu1 (sy, y))). now split; [apply Hst2|].
  - destruct (min_by_start c0 l) as [[st x]| |] eqn:Hmin; cbn [res_bind]; try discriminate.
    intros [= <-]. cbn [fst snd exception_candidate].
    apply min_by_start_spec in Hmin as [Hin Hall].
    apply Hfu1 in Hin as [Hin Hgt]. destruct (Hst1 _ _ Hin) as (Hx & Hq & Hs).
    repeat split; try assumption.
    intros y sy Hy Hqy Hsy Hgty.
    destruct (Hall (sy, y)) as [Hshape Hle].
    { apply Hfu1. split; [now apply Hst2 | exact Hgty]. }
    cbn [fst] in Hshape, Hle. rewrite py_le_same_shape by congruence.
    f_equal. now apply Z.leb_le.
Qed.

(** ** Merging the exception candidate with the regular instants *)

Lemma next_occurrence_recurring (E : Externals) fuel self after s gen :
  start self = Ok s ->
  _get_rrule self = Ok (Some gen) ->
  next_occurrence fuel self after
  = let* found := _find_next_occurrence fuel self gen (datetime_as after s) in
    hand_back s found.
Proof.
  intros Hs Hrule. unfold next_occurrence. rewrite Hs, Hrule. cbn [res_bind].
  destruct (_find_next_occurrence fuel self gen (datetime_as after s)) as [[[f|] src]| |];
    reflexivity.
Qed.

(** The search as the code performs it, whatever the shapes of the values:
    the walk stops at the first generated instant that is not passed over. *)
Lemma next_occurrence_merge (E : Externals) (self : CalendarEvent) (after s : pytime)
    (gen : rrule) (c : occurrence) (originals : list pytime) (n fuel : nat) :
  start self = Ok s ->
  _get_rrule self = Ok (Some gen) ->
  is_declined_by_me self = false ->
  is_declined_by_others self = false ->
  let after_dt := datetime_as after s in
  let dt := ensure_datetime after_dt in
  first_exception_start self after_dt = Ok c ->
  exception_original_starts self = Ok originals ->
  (forall j, (j < n)%nat -> exists dj, gen j = Some dj /\ passed_over dt c originals dj) ->
  (n < fuel)%nat ->
  exception_candidate self after_dt c
  /\ (gen n = None -> next_occurrence fuel self after = hand_back s c)
  /\ (forall d, gen n = Some d -> py_gt d dt = Ok true ->
        (forall st, fst c = Some st -> py_le st d = Ok true ->
           next_occurrence fuel self after = hand_back s c)
        /\ (exception_later c d -> py_in d originals = false ->
           next_occurrence fuel self after = hand_back s (Some d, Some self))).
Proof.
  intros Hs Hrule Hme Hoth after_dt dt Hc Hor Hskip Hfuel.
  split; [now apply first_exception_start_spec|].
  rewrite (next_occurrence_recurring E fuel self after s gen Hs Hrule).
  fold after_dt. unfold _find_next_occurrence. rewrite Hc, Hor, Hme, Hoth.
  cbn [res_bind orb]. fold dt.
  destruct (walk_xafter_stop gen dt self c originals n fuel Hskip Hfuel) as [Hnone Hsome].
  split.
  - intros Hg. now rewrite (Hnone Hg).
  - intros d Hg Hgt. destruct (Hsome d Hg Hgt) as [Hexc Hreg]. split.
    + intros st Hst Hle. now rewrite (Hexc st Hst Hle).
    + intros Hlater Hin. now rewrite (Hreg Hlater Hin).
Qed.

(** A declined master: only the exception candidate is handed back, and the
    rule is never walked (any fuel does). *)
Lemma next_occurrence_declined (E : Externals) (self : CalendarEvent) (after s : pytime)
    (gen : rrule) (c : occurrence) (originals : list pytime) (fuel : nat) :
  start self = Ok s ->
  _get_rrule self = Ok (Some gen) ->
  is_declined_by_me self || is_declined_by_others self = true ->
  let after_dt := datetime_as after s in
  first_exception_start self after_dt = Ok c ->
  exception_original_starts self = Ok originals ->
  exception_candidate self after_dt c
  /\ next_occurrence fuel self after = hand_back s c.
Proof.
  intros Hs Hrule Hdecl after_dt Hc Hor.
  split; [now apply first_exception_start_spec|].
  rewrite (next_occurrence_recurring E fuel self after s gen Hs Hrule).
  fold after_dt. unfold _find_next_occurrence. rewrite Hc, Hor, Hdecl. reflexivity.
Qed.

(** ** Timed series: the search never raises *)

Lemma non_cancelled_exception_starts_total xs sh :
  (forall x, In x xs -> qualifies x = true ->
     exists st, start x = Ok st /\ shape_of st = sh) ->
  exists l, non_cancelled_exception_starts xs = Ok l
            /\ forall c, In c l -> shape_of (fst c) = sh.
Proof.
  induction xs as [|x xs IH]; intros Hall; cbn.
  - exists []. split; [reflexivity | intros ? []].
  - destruct IH as [l [Hl Hsh]]; [intros y Hy; apply Hall; now right|].
    destruct (qualifies x) eqn:Hq.
    + destruct (Hall x (or_introl eq_refl) Hq) as [st [Hst Hshape]].
      rewrite Hst, Hl. cbn. exists ((st, x) :: l). split; [reflexivity|].
      intros c [<- | Hin]; [exact Hshape | now apply Hsh].
    + exists l. now split.
Qed.

Lemma future_exception_starts_total l after_dt :
  (forall c, In c l -> shape_of (fst c) = shape_of after_dt) ->
  exists f, future_exception_starts l after_dt = Ok f
            /\ forall c, In c f -> shape_of (fst c) = shape_of after_dt.
Proof.
  induction l as [|[st x] l IH]; intros Hall; cbn.
  - exists []. split; [reflexivity | intros ? []].
  - destruct IH as [f [Hf Hsh]]; [intros c Hc; apply Hall; now right|].
    unfold py_gt. rewrite py_lt_same_shape
      by (symmetry; apply (Hall (st, x)); now left).
    rewrite Hf. cbn. eexists. split; [reflexivity|].
    destruct (ticks after_dt <? ticks st); [|exact Hsh].
    intros c [<- | Hin]; [apply (Hall (st, x)); now left | now apply Hsh].
Qed.

Lemma min_by_start_total l sh : forall best,
  (forall c, In c (best :: l) -> shape_of (fst c) = sh) ->
  exists m, min_by_start best l = Ok m.
Proof.
  induction l as [|c l IH]; intros best Hall; cbn [min_by_start].
  - now exists best.
  - rewrite py_lt_same_shape.
    2:{ rewrite (Hall c), (Hall best); [reflexivity | now left | right; now left]. }
    cbn [res_bind]. apply IH. intros c' [<- | Hin].
    + destruct (_ <? _); apply Hall; [right; now left | now left].
    + apply Hall. right. now right.
Qed.

Lemma first_exception_start_total self after_dt :
  (forall x, In x (values (exceptions self)) -> qualifies x = true ->
     exists st, start x = Ok st /\ shape_of st = shape_of after_dt) ->
  exists c, first_exception_start self after_dt = Ok c.
Proof.
  intros Hall. unfold first_exception_start.
  destruct (non_cancelled_exception_starts_total _ _ Hall) as [l [Hst Hl]].
  destruct (future_exception_starts_total l after_dt Hl) as [f [Hfu Hf]].
  rewrite Hst. cbn [res_bind]. rewrite Hfu. cbn [res_bind].
  destruct f as [|c0 f]; [now eexists|].
  destruct (min_by_start_total f _ c0 Hf) as [m Hm]. rewrite Hm. now eexists.
Qed.

Lemma res_map_total {A B} (f : A -> res B) xs :
  (forall x, In x xs -> exists y, f x = Ok y) -> exists ys, res_map f xs = Ok ys.
Proof.
  induction xs as [|x xs IH]; intros Hall; cbn.
  - now eexists.
  - destruct (Hall x (or_introl eq_refl)) as [y Hy].
    destruct IH as [ys Hys]; [intros z Hz; apply Hall; now right|].
    rewrite Hy, Hys. now eexists.
Qed.

Lemma not_allday_aware self s :
  start self = Ok s -> is_allday s = false -> shape_of s = SAware.
Proof.
  intros Hs Hall. destruct (start_shape _ _ Hs) as [H|H]; [|exact H].
  destruct s as [?|? [?|]]; cbn in *; discriminate.
Qed.

Lemma normalize_aware (E : Externals) s d :
  shape_of s = SAware -> shape_of d = SAware -> normalize s d = Ok (converted s d).
Proof.
  destruct s as [|ts [tz|]]; try discriminate.
  destruct d as [|td [tzd|]]; try discriminate. reflexivity.
Qed.

Lemma timed_candidate (E : Externals) self after s gen :
  datetime_as_normalizes E ->
  timed_throughout self s gen ->
  let after_dt := datetime_as after s in
  shape_of after_dt = SAware
  /\ ensure_datetime after_dt = after_dt
  /\ exists c originals,
      first_exception_start self after_dt = Ok c
      /\ exception_original_starts self = Ok originals
      /\ exception_candidate self after_dt c
      /\ hand_back s c = Ok (in_shape_of s c).
Proof.
  intros Hn (Hs & Hall & Hex & Hor & Hgen) after_dt.
  pose proof (not_allday_aware _ _ Hs Hall) as Hshape.
  assert (Hafter : shape_of after_dt = SAware) by (unfold after_dt; now rewrite Hn).
  split; [exact Hafter|]. split.
  { destruct after_dt as [|? [?|]]; try discriminate. reflexivity. }
  destruct (first_exception_start_total self after_dt) as [c Hc].
  { intros x Hx Hq. destruct (Hex x Hx Hq) as [st [Hst Hnot]].
    exists st. split; [exact Hst|]. rewrite Hafter. now apply (not_allday_aware x). }
  destruct (res_map_total _get_original_start _ Hor) as [originals Horig].
  exists c, originals. split; [exact Hc|]. split; [exact Horig|].
  pose proof (first_exception_start_spec _ _ _ Hc) as Hcand.
  split; [exact Hcand|].
  unfold hand_back, in_shape_of. destruct c as [[st|] [x|]]; cbn in Hcand |- *;
    try contradiction; try reflexivity.
  destruct Hcand as (_ & _ & _ & Hgt & _). unfold py_gt in Hgt.
  apply py_lt_Ok in Hgt as [Hsh _].
  rewrite normalize_aware; [reflexivity | exact Hshape | congruence].
Qed.

(** What the search returns on a timed series whose master is not declined,
    at the position where the walk stops. *)
Lemma timed_walk (E : Externals) (self : CalendarEvent)
    (after s : pytime) (gen : rrule) :
  datetime_as_normalizes E ->
  timed_throughout self s gen ->
  _get_rrule self = Ok (Some gen) ->
  is_declined_by_me self = false ->
  is_declined_by_others self = false ->
  let after_dt := datetime_as after s in
  exists c originals,
    first_exception_start self after_dt = Ok c
    /\ exception_original_starts self = Ok originals
    /\ exception_candidate self after_dt c
    /\ forall n fuel,
        (forall j, (j < n)%nat ->
           exists dj, gen j = Some dj /\ passed_over after_dt c originals dj) ->
        (n < fuel)%nat ->
        (gen n = None -> next_occurrence fuel self after = Ok (in_shape_of s c))
        /\ (forall d, gen n = Some d -> ticks after_dt < ticks d ->
              (forall st, fst c = Some st -> ticks st <= ticks d ->
                 next_occurrence fuel self after = Ok (in_shape_of s c))
              /\ ((forall st, fst c = Some st -> ticks d < ticks st) ->
                  py_in d originals = false ->
                  next_occurrence fuel self after = Ok (Some (converted s d), Some self))).
Proof.
  intros Hn Htimed Hrule Hme Hoth after_dt.
  destruct (timed_candidate E self after s gen Hn Htimed)
    as (Hafter & Hdt & c & originals & Hc & Hor & Hcand & Hback).
  fold after_dt in Hafter, Hdt, Hc, Hcand.
  exists c, originals. repeat (split; [assumption|]).
  intros n fuel Hskip Hfuel.
  destruct Htimed as (Hs & Hall & _ & _ & Hgen).
  rewrite <- Hdt in Hskip.
  destruct (next_occurrence_merge E self after s gen c originals n fuel
              Hs Hrule Hme Hoth Hc Hor Hskip Hfuel) as (_ & Hnone & Hsome).
  fold after_dt in Hsome. rewrite Hdt in Hsome.
  split; [intros Hg; now rewrite (Hnone Hg)|].
  intros d Hg Hlt.
  assert (Hd : shape_of d = SAware) by now apply (Hgen n).
  assert (Hgt : py_gt d after_dt = Ok true).
  { unfold py_gt. rewrite py_lt_same_shape by congruence. f_equal. now apply Z.ltb_lt. }
  destruct (Hsome d Hg Hgt) as [Hexc Hreg].
  assert (Hst : forall st, fst c = Some st -> shape_of st = SAware).
  { intros st Hfst. destruct c as [[st'|] [x|]]; cbn in Hcand, Hfst; try contradiction;
      try discriminate. injection Hfst as ->.
    destruct Hcand as (_ & _ & _ & Hgt' & _). unfold py_gt in Hgt'.
    apply py_lt_Ok in Hgt' as [Hsh _]. congruence. }
  split.
  - intros st Hfst Hle. rewrite (Hexc st Hfst); [exact Hback|].
    rewrite py_le_same_shape by (rewrite (Hst st Hfst); now rewrite Hd).
    f_equal. now apply Z.leb_le.
  - intros Hlater Hin. rewrite Hreg; [| |exact Hin].
    + unfold hand_back. cbn [fst snd].
      rewrite normalize_aware; [reflexivity | now apply (not_allday_aware self) | exact Hd].
    + unfold exception_later. destruct (fst c) as [st|] eqn:Hfst; [|exact I].
      rewrite py_le_same_shape by (rewrite (Hst st eq_refl); now rewrite Hd).
      f_equal. apply Z.leb_gt. now apply Hlater.
Qed.

(** The search on a timed series whose master is declined: the exception
    candidate, or [(None, None)], and never an instant of the rule. *)
Theorem next_occurrence_declined_timed (E : Externals) (self : CalendarEvent)
    (after s : pytime) (gen : rrule) (fuel : nat) :
  datetime_as_normalizes E ->
  timed_throughout self s gen ->
  _get_rrule self = Ok (Some gen) ->
  is_declined_by_me self || is_declined_by_others self = true ->
  let after_dt := datetime_as after s in
  exists c,
    first_exception_start self after_dt = Ok c
    /\ exception_candidate self after_dt c
    /\ next_occurrence fuel self after = Ok (in_shape_of s c).
Proof.
  intros Hn Htimed Hrule Hdecl after_dt.
  destruct (timed_candidate E self after s gen Hn Htimed)
    as (_ & _ & c & originals & Hc & Hor & Hcand & Hback).
  exists c. repeat (split; [assumption|]).
  destruct Htimed as (Hs & _).
  destruct (next_occurrence_declined E self after s gen c originals fuel
              Hs Hrule Hdecl Hc Hor) as [_ ->].
  exact Hback.
Qed.

(** ** Timed series: the search returns *)

Lemma py_eq_ticks a b : py_eq a b = true -> ticks a = ticks b.
Proof.
  destruct a as [x|x [?|]], b as [y|y [?|]]; cbn; try discriminate; apply Z.eqb_eq.
Qed.

Lemma max_ticks_bound l bound : bound <= max_ticks l bound.
Proof. unfold max_ticks. induction l as [|x l IH]; cbn [fold_right]; lia. Qed.

Lemma py_in_max_ticks d l bound : py_in d l = true -> ticks d <= max_ticks l bound.
Proof.
  unfold py_in, max_ticks. induction l as [|x l IH]; cbn [existsb fold_right]; [discriminate|].
  intros H. apply orb_true_iff in H as [H|H].
  - apply py_eq_ticks in H. lia.
  - specialize (IH H). lia.
Qed.

Lemma passed_over_bound dt first originals d :
  passed_over dt first originals d -> ticks d <= max_ticks originals (ticks dt).
Proof.
  intros [Hle | (_ & _ & Hin)].
  - unfold py_gt in Hle. apply py_lt_Ok in Hle as [_ Hle].
    symmetry in Hle. apply Z.ltb_ge in Hle. pose proof (max_ticks_bound originals (ticks dt)). lia.
  - now apply py_in_max_ticks.
Qed.

Lemma increasing_lower_bound gen d0 :
  increasing gen -> gen 0%nat = Some d0 ->
  forall k dk, (forall j, (j <= k)%nat -> is_Some (gen j)) -> gen k = Some dk ->
    ticks d0 + Z.of_nat k <= ticks dk.
Proof.
  intros Hinc H0. induction k as [|k IH]; intros dk Hall Hk.
  - rewrite H0 in Hk. injection Hk as <-. lia.
  - destruct (Hall k ltac:(lia)) as [d Hd].
    specialize (IH d (fun j Hj => Hall j ltac:(lia)) Hd).
    pose proof (Hinc k d dk Hd Hk). lia.
Qed.

(** At a position whose predecessors were passed over, the walk over aware
    instants either stops or passes over one more. *)
Lemma stop_or_pass gen dt first originals k :
  shape_of dt = SAware ->
  (forall st, fst first = Some st -> shape_of st = SAware) ->
  (forall j d, gen j = Some d -> shape_of d = SAware) ->
  (forall j, (j < k)%nat -> exists dj, gen j = Some dj /\ passed_over dt first originals dj) ->
  stops_at gen dt first originals k
  \/ exists dk, gen k = Some dk /\ passed_over dt first originals dk.
Proof.
  intros Hdt Hfirst Hgen Hbefore.
  destruct (gen k) as [d|] eqn:Hk; [|left; split; [exact Hbefore | now left]].
  pose proof (Hgen k d Hk) as Hd.
  assert (Hgt : py_gt d dt = Ok (ticks dt <? ticks d))
    by (unfold py_gt; apply py_lt_same_shape; congruence).
  destruct (ticks dt <? ticks d) eqn:Hlt; [|right; exists d; split; [reflexivity | now left]].
  destruct (fst first) as [st|] eqn:Hst.
  - assert (Hle : py_le st d = Ok (ticks st <=? ticks d))
      by (apply py_le_same_shape; rewrite (Hfirst st eq_refl); congruence).
    destruct (ticks st <=? ticks d) eqn:Hcmp.
    + left. split; [exact Hbefore|]. right. exists d. repeat split; try assumption.
      left. now exists st.
    + destruct (py_in d originals) eqn:Hin.
      * right. exists d. split; [reflexivity|]. right. unfold exception_later.
        rewrite Hst. now repeat split.
      * left. split; [exact Hbefore|]. right. exists d. repeat split; try assumption.
        right. unfold exception_later. rewrite Hst. now split.
  - destruct (py_in d originals) eqn:Hin.
    + right. exists d. split; [reflexivity|]. right. unfold exception_later.
      rewrite Hst. now repeat split.
    + left. split; [exact Hbefore|]. right. exists d. repeat split; try assumption.
      right. unfold exception_later. rewrite Hst. now split.
Qed.

Lemma walk_stops gen dt first originals :
  shape_of dt = SAware ->
  (forall st, fst first = Some st -> shape_of st = SAware) ->
  (forall j d, gen j = Some d -> shape_of d = SAware) ->
  increasing gen ->
  exists n, stops_at gen dt first originals n.
Proof.
  intros Hdt Hfirst Hgen Hinc.
  assert (Hsearch : forall k,
    (exists n, (n <= k)%nat /\ stops_at gen dt first originals n)
    \/ (forall j, (j <= k)%nat ->
          exists dj, gen j = Some dj /\ passed_over dt first originals dj)).
  { induction k as [|k IH].
    - destruct (stop_or_pass gen dt first originals 0 Hdt Hfirst Hgen) as [Hs | [d0 [H0 Hp]]].
      + intros j Hj. lia.
      + left. exists 0%nat. now split.
      + right. intros j Hj. replace j with 0%nat by lia. now exists d0.
    - destruct IH as [[n [Hn Hs]] | Hall]; [left; exists n; split; [lia | exact Hs]|].
      destruct (stop_or_pass gen dt first originals (S k) Hdt Hfirst Hgen)
        as [Hs | [dk [Hk Hp]]].
      + intros j Hj. apply Hall. lia.
      + left. exists (S k). now split.
      + right. intros j Hj. destruct (Nat.eq_dec j (S k)) as [->|Hne];
          [now exists dk | apply Hall; lia]. }
  destruct (gen 0%nat) as [d0|] eqn:H0.
  2:{ exists 0%nat. split; [intros j Hj; lia | now left]. }
  set (K := Z.to_nat (max_ticks originals (ticks dt) - ticks d0 + 1)).
  destruct (Hsearch K) as [[n [_ Hs]] | Hall]; [now exists n | exfalso].
  destruct (Hall K (le_n K)) as [dK [HK HpK]].
  pose proof (passed_over_bound _ _ _ _ HpK) as Hbound.
  pose proof (increasing_lower_bound gen d0 Hinc H0 K dK) as Hlow.
  assert (ticks d0 + Z.of_nat K <= ticks dK).
  { apply Hlow; [|exact HK]. intros j Hj. destruct (Hall j Hj) as [dj [Hj' _]]. now exists dj. }
  unfold K in *. lia.
Qed.

Lemma candidate_shape self after_dt c st :
  exception_candidate self after_dt c -> fst c = Some st -> shape_of st = shape_of after_dt.
Proof.
  destruct c as [[st'|] [x|]]; cbn; try contradiction; try discriminate.
  intros (_ & _ & _ & Hgt & _) [= <-]. unfold py_gt in Hgt.
  now apply py_lt_Ok in Hgt as [<- _].
Qed.

(** The search on a timed series whose master is not declined: the walk
    over the rule's instants after [after] stops at the first one that the
    exception candidate starts at or before (the candidate is returned) or
    that is not an overridden slot (it is returned with the master); when the
    rule is exhausted the candidate, or [(None, None)], is returned.  When
    the rule's instants increase the walk does stop. *)
Theorem next_occurrence_merge_timed (E : Externals) (self : CalendarEvent)
    (after s : pytime) (gen : rrule) :
  datetime_as_normalizes E ->
  timed_throughout self s gen ->
  _get_rrule self = Ok (Some gen) ->
  is_declined_by_me self = false ->
  is_declined_by_others self = false ->
  let after_dt := datetime_as after s in
  exists c originals,
    first_exception_start self after_dt = Ok c
    /\ exception_original_starts self = Ok originals
    /\ exception_candidate self after_dt c
    /\ (increasing gen -> exists n, stops_at gen after_dt c originals n)
    /\ forall n fuel,
        (forall j, (j < n)%nat ->
           exists dj, gen j = Some dj /\ passed_over after_dt c originals dj) ->
        (n < fuel)%nat ->
        (gen n = None -> next_occurrence fuel self after = Ok (in_shape_of s c))
        /\ (forall d, gen n = Some d -> ticks after_dt < ticks d ->
              (forall st, fst c = Some st -> ticks st <= ticks d ->
                 next_occurrence fuel self after = Ok (in_shape_of s c))
              /\ ((forall st, fst c = Some st -> ticks d < ticks st) ->
                  py_in d originals = false ->
                  next_occurrence fuel self after = Ok (Some (converted s d), Some self))).
Proof.
  intros Hn Htimed Hrule Hme Hoth after_dt.
  destruct (timed_walk E self after s gen Hn Htimed Hrule Hme Hoth)
    as (c & originals & Hc & Hor & Hcand & Hwalk).
  exists c, originals. repeat (split; [assumption|]). split; [|exact Hwalk].
  intros Hinc. destruct (timed_candidate E self after s gen Hn Htimed) as (Hafter & _).
  destruct Htimed as (_ & _ & _ & _ & Hgen).
  apply walk_stops; try assumption.
  intros st Hst. rewrite <- Hafter. now apply (candidate_shape self _ c).
Qed.

(** A timed series whose rule's instants increase: with enough fuel
    [next_occurrence] returns, and more fuel does not change the result. *)
Theorem next_occurrence_timed_returns (E : Externals) (self : CalendarEvent)
    (after s : pytime) (gen : rrule) :
  datetime_as_normalizes E ->
  timed_throughout self s gen ->
  _get_rrule self = Ok (Some gen) ->
  increasing gen ->
  exists fuel0 r, forall fuel, (fuel0 <= fuel)%nat ->
    next_occurrence fuel self after = Ok r.
Proof.
  intros Hn Htimed Hrule Hinc.
  destruct (timed_candidate E self after s gen Hn Htimed)
    as (Hafter & _ & c & originals & Hc & Hor & Hcand & Hback).
  destruct (is_declined_by_me self || is_declined_by_others self) eqn:Hdecl.
  - exists 0%nat, (in_shape_of s c). intros fuel _.
    destruct Htimed as (Hs & _).
    destruct (next_occurrence_declined E self after s gen c originals fuel
                Hs Hrule Hdecl Hc Hor) as [_ Hnext].
    now rewrite Hnext.
  - apply orb_false_iff in Hdecl as [Hme Hoth].
    destruct (timed_walk E self after s gen Hn Htimed Hrule Hme Hoth)
      as (c' & originals' & Hc' & Hor' & _ & Hwalk).
    rewrite Hc in Hc'. injection Hc' as <-. rewrite Hor in Hor'. injection Hor' as <-.
    destruct Htimed as (_ & _ & _ & _ & Hgen).
    destruct (walk_stops gen (datetime_as after s) c originals Hafter) as [n [Hpassed Hstop]];
      [|exact Hgen | exact Hinc|].
    { intros st Hst. rewrite <- Hafter. now apply (candidate_shape self _ c). }
    exists (S n).
    destruct Hstop as [Hnone | (d & Hd & Hgt & Hcase)].
    + exists (in_shape_of s c). intros fuel Hfuel.
      now apply (Hwalk n fuel Hpassed ltac:(lia)).
    + unfold py_gt in Hgt. apply py_lt_Ok in Hgt as [Hsh Hlt].
      symmetry in Hlt. apply Z.ltb_lt in Hlt.
      destruct Hcase as [(st & Hst & Hle) | (Hlater & Hin)].
      * exists (in_shape_of s c). intros fuel Hfuel.
        destruct (Hwalk n fuel Hpassed ltac:(lia)) as [_ Hsome].
        destruct (Hsome d Hd Hlt) as [Hexc _]. apply (Hexc st Hst).
        apply py_le_Ok in Hle as [_ Hle]. symmetry in Hle. now apply Z.leb_le.
      * exists (Some (converted s d), Some self). intros fuel Hfuel.
        destruct (Hwalk n fuel Hpassed ltac:(lia)) as [_ Hsome].
        destruct (Hsome d Hd Hlt) as [_ Hreg]. apply Hreg; [|exact Hin].
        intros st Hst. unfold exception_later in Hlater. rewrite Hst in Hlater.
        apply py_le_Ok in Hlater as [_ Hle]. symmetry in Hle. now apply Z.leb_gt.
Qed.

(** ** All-day series with an exception candidate *)

Lemma allday_candidate_is_date (E : Externals) self after s st x :
  datetime_as_normalizes E ->
  is_allday s = true ->
  exception_candidate self (datetime_as after s) (Some st, Some x) ->
  exists day, st = PDate day.
Proof.
  intros Hn Hall (_ & _ & _ & Hgt & _). unfold py_gt in Hgt.
  apply py_lt_Ok in Hgt as [Hsh _]. rewrite Hn in Hsh.
  destruct s as [ds|]; [|discriminate].
  destruct st as [day|? [?|]]; try discriminate. now exists day.
Qed.

(** An all-day series that is not declined and has an exception candidate:
    at the first instant of the rule after [after], the candidate's start, a
    date, is ordered against a datetime. *)
Lemma allday_candidate_walk_raises (E : Externals) (self : CalendarEvent)
    (after s st : pytime) (x : CalendarEvent) (gen : rrule) (originals : list pytime)
    (n fuel : nat) (d : pytime) :
  datetime_as_normalizes E ->
  start self = Ok s ->
  is_allday s = true ->
  _get_rrule self = Ok (Some gen) ->
  is_declined_by_me self = false ->
  is_declined_by_others self = false ->
  let after_dt := datetime_as after s in
  let dt := ensure_datetime after_dt in
  first_exception_start self after_dt = Ok (Some st, Some x) ->
  exception_original_starts self = Ok originals ->
  (forall j, (j < n)%nat -> exists dj, gen j = Some dj /\ py_gt dj dt = Ok false) ->
  gen n = Some d ->
  py_gt d dt = Ok true ->
  (n < fuel)%nat ->
  next_occurrence fuel self after = Raise TypeError.
Proof.
  intros Hn Hs Hall Hrule Hme Hoth after_dt dt Hc Hor Hbefore Hg Hgt Hfuel.
  pose proof (first_exception_start_spec _ _ _ Hc) as Hcand.
  destruct (allday_candidate_is_date E self after s st x Hn Hall Hcand) as [day ->].
  rewrite (next_occurrence_recurring E fuel self after s gen Hs Hrule).
  fold after_dt. unfold _find_next_occurrence. rewrite Hc, Hor, Hme, Hoth.
  cbn [res_bind orb]. fold dt.
  replace fuel with (n + S (fuel - S n))%nat by lia.
  rewrite walk_xafter_skip.
  2:{ intros j Hj. destruct (Hbefore j Hj) as [dj [Hgj Hle]]. exists dj.
      split; [exact Hgj | now left]. }
  cbn [Nat.add walk_xafter]. rewrite Hg, Hgt. cbn [res_bind fst].
  unfold py_gt in Hgt. apply py_lt_Ok in Hgt as [Hsh _].
  destruct d as [|td tzd]; [|reflexivity].
  unfold dt in Hsh. destruct after_dt as [|? [?|]]; discriminate.
Qed.

(** An all-day series whose exception candidate is handed back (the master
    is declined, or the rule is exhausted): [.date()] is called on the
    candidate's start, which is a date already. *)
Lemma allday_candidate_hand_back_raises (E : Externals) (self : CalendarEvent)
    (after s st : pytime) (x : CalendarEvent) :
  datetime_as_normalizes E ->
  is_allday s = true ->
  exception_candidate self (datetime_as after s) (Some st, Some x) ->
  hand_back s (Some st, Some x) = Raise AttributeError.
Proof.
  intros Hn Hall Hcand.
  destruct (allday_candidate_is_date E self after s st x Hn Hall Hcand) as [day ->].
  unfold hand_back, normalize. cbn [fst]. now rewrite Hall.
Qed.

Lemma allday_declined_raises (E : Externals) (self : CalendarEvent)
    (after s st : pytime) (x : CalendarEvent) (gen : rrule) (originals : list pytime)
    (fuel : nat) :
  datetime_as_normalizes E ->
  start self = Ok s ->
  is_allday s = true ->
  _get_rrule self = Ok (Some gen) ->
  is_declined_by_me self || is_declined_by_others self = true ->
  first_exception_start self (datetime_as after s) = Ok (Some st, Some x) ->
  exception_original_starts self = Ok originals ->
  next_occurrence fuel self after = Raise AttributeError.
Proof.
  intros Hn Hs Hall Hrule Hdecl Hc Hor.
  destruct (next_occurrence_declined E self after s gen _ originals fuel
              Hs Hrule Hdecl Hc Hor) as [Hcand ->].
  now apply (allday_candidate_hand_back_raises E self after s st x).
Qed.

(** C1: an all-day daily series from 2024-01-01, not declined, whose
    instance of 2024-01-03 was moved to 2024-01-04; asked for the next
    occurrence after 2024-01-02 the search raises [TypeError] where the
    regular instant and the exception candidate are to be ordered, and with a
    rule of three instances asked after 2024-01-03 the candidate is not
    returned either: [AttributeError].  With the instance moved to
    2024-01-04 15:00 the search raises [TypeError] where that start is
    compared with [after].  With the instance cancelled, its slot is not
    recognised as overridden and 2024-01-03 is returned. *)
Theorem allday_exception_not_returned :
  next_occurrence (E := sample_externals) 10
    (allday_series "RRULE:FREQ=DAILY" [accepted_by_me] [("moved", moved_day)]) (jan 2)
  = Raise TypeError
  /\ next_occurrence (E := sample_externals) 10
       (allday_series "RRULE:FREQ=DAILY;COUNT=3" [accepted_by_me] [("moved", moved_day)])
       (jan 3)
     = Raise AttributeError
  /\ next_occurrence (E := sample_externals) 10
       (allday_series "RRULE:FREQ=DAILY" [accepted_by_me] [("moved", moved_to_afternoon)])
       (jan 2)
     = Raise TypeError
  /\ next_occurrence (E := sample_externals) 10
       (allday_series "RRULE:FREQ=DAILY" [accepted_by_me] [("gone", cancelled_day)])
       (jan 2)
     = Ok (Some (jan 3),
           Some (allday_series "RRULE:FREQ=DAILY" [accepted_by_me] [("gone", cancelled_day)])).
Proof. repeat split; vm_compute; reflexivity. Qed.

(** C3: the same all-day series declined by its owner, with the moved
    instance accepted; the exception candidate of 2024-01-04 is found but not
    returned: [AttributeError]. *)
Theorem allday_declined_exception_not_returned :
  first_exception_start
    (allday_series "RRULE:FREQ=DAILY" [declined_by_me] [("moved", moved_day)])
    (sample_datetime_as (jan 2) (jan 1)) = Ok (Some (jan 4), Some moved_day)
  /\ next_occurrence (E := sample_externals) 10
       (allday_series "RRULE:FREQ=DAILY" [declined_by_me] [("moved", moved_day)]) (jan 2)
     = Raise AttributeError.
Proof. split; vm_compute; reflexivity. Qed.

(** ** Copies do not share private properties *)

Lemma heap_extends_refl h : heap_extends h h.
Proof. now split. Qed.

Lemma heap_extends_dom h h' :
  heap_extends h h' ->
  (forall l, l ∈ dom (props h) -> l ∈ dom (props h'))
  /\ (forall l, l ∈ dom (sections h) -> l ∈ dom (sections h')).
Proof.
  intros [Hp Hs]. split; intros l Hl; apply elem_of_dom;
    [rewrite Hp by exact Hl | rewrite Hs by exact Hl]; now apply elem_of_dom.
Qed.

Lemma heap_extends_trans h1 h2 h3 :
  heap_extends h1 h2 -> heap_extends h2 h3 -> heap_extends h1 h3.
Proof.
  intros H12 H23. destruct (heap_extends_dom _ _ H12) as [Dp Ds].
  destruct H12 as [Hp Hs], H23 as [Hp' Hs']. split; intros l Hl.
  - rewrite Hp' by now apply Dp. now apply Hp.
  - rewrite Hs' by now apply Ds. now apply Hs.
Qed.

Lemma set_props_outside h0 h l d :
  l ∉ dom (props h0) -> heap_extends h0 h -> heap_extends h0 (set_props l d h).
Proof.
  intros Hl [Hp Hs]. split; [|exact Hs]. intros l' Hl'. cbn.
  rewrite lookup_insert_ne by (intros ->; contradiction). now apply Hp.
Qed.

Lemma set_section_outside h0 h l d :
  l ∉ dom (sections h0) -> heap_extends h0 h -> heap_extends h0 (set_section l d h).
Proof.
  intros Hl [Hp Hs]. split; [exact Hp|]. intros l' Hl'. cbn.
  rewrite lookup_insert_ne by (intros ->; contradiction). now apply Hs.
Qed.

Lemma outside_extends_props h0 h l :
  heap_extends h0 h -> l ∉ dom (props h) -> l ∉ dom (props h0).
Proof. intros He Hl Hl0. apply Hl. now apply (heap_extends_dom _ _ He). Qed.

Lemma outside_extends_sections h0 h l :
  heap_extends h0 h -> l ∉ dom (sections h) -> l ∉ dom (sections h0).
Proof. intros He Hl Hl0. apply Hl. now apply (heap_extends_dom _ _ He). Qed.

Lemma deepcopy_entry_copying h0 acc kv :
  copying h0 acc -> copying h0 (deepcopy_entry acc kv).
Proof.
  destruct acc as [[h memo] d], kv as [k p]. intros (He & Hm & Hd).
  unfold deepcopy_entry. destruct (memo !! p) as [p'|] eqn:Hp.
  - split; [exact He|]. split; [exact Hm|]. intros k' q Hq.
    destruct (decide (k = k')) as [->|Hne].
    + rewrite lookup_insert_eq in Hq. injection Hq as <-. exact (Hm p _ Hp).
    + rewrite lookup_insert_ne in Hq by exact Hne. exact (Hd k' _ Hq).
  - unfold new_section. set (q := fresh (dom (sections h))).
    assert (Hq : q ∉ dom (sections h)) by apply is_fresh.
    assert (Hq0 : q ∉ dom (sections h0)) by now apply (outside_extends_sections h0 h).
    assert (Hgrow : forall r, r ∈ dom (sections h) ->
                      r ∈ dom (sections (set_section q (section_at h p) h))).
    { intros r Hr. cbn. rewrite dom_insert_L. set_solver. }
    assert (Hnew : q ∈ dom (sections (set_section q (section_at h p) h))).
    { cbn. rewrite dom_insert_L. set_solver. }
    split; [now apply set_section_outside|]. split.
    + intros r r' Hr. destruct (decide (p = r)) as [->|Hne].
      * rewrite lookup_insert_eq in Hr. injection Hr as <-. now split.
      * rewrite lookup_insert_ne in Hr by exact Hne.
        pose proof (Hm _ _ Hr) as [? ?]. split; [now apply Hgrow | assumption].
    + intros k' r' Hr. destruct (decide (k = k')) as [->|Hne].
      * rewrite lookup_insert_eq in Hr. injection Hr as <-. now split.
      * rewrite lookup_insert_ne in Hr by exact Hne.
        pose proof (Hd _ _ Hr) as [? ?]. split; [now apply Hgrow | assumption].
Qed.

Lemma foldl_deepcopy_entry_copying h0 kvs : forall acc,
  copying h0 acc -> copying h0 (foldl deepcopy_entry acc kvs).
Proof.
  induction kvs as [|kv kvs IH]; intros acc Hacc; [exact Hacc|].
  cbn. apply IH. now apply deepcopy_entry_copying.
Qed.

Lemma new_props_spec d h l h' :
  new_props d h = (l, h') ->
  (l ∉ dom (props h)) /\ (l ∈ dom (props h')) /\ props_at h' l = d
  /\ sections h' = sections h /\ heap_extends h h'.
Proof.
  unfold new_props. intros [= <- <-].
  assert (Hf : fresh (dom (props h)) ∉ dom (props h)) by apply is_fresh.
  split; [exact Hf|]. split; [cbn; rewrite dom_insert_L; set_solver|].
  split; [apply props_at_set_props|]. split; [reflexivity|].
  apply set_props_outside; [exact Hf | apply heap_extends_refl].
Qed.

Lemma deepcopy_props_spec l h l' h' :
  deepcopy_props l h = (l', h') ->
  heap_extends h h'
  /\ (l' ∉ dom (props h)) /\ (l' ∈ dom (props h'))
  /\ forall k p, props_at h' l' !! k = Some p ->
       (p ∈ dom (sections h')) /\ (p ∉ dom (sections h)).
Proof.
  unfold deepcopy_props.
  pose proof (foldl_deepcopy_entry_copying h (map_to_list (props_at h l)) (h, ∅, ∅)) as Hc.
  destruct (foldl deepcopy_entry (h, ∅, ∅) (map_to_list (props_at h l))) as [[h1 memo] d].
  destruct Hc as (He & _ & Hd).
  { split; [apply heap_extends_refl|]. split; intros ? ? Hl; now rewrite lookup_empty in Hl. }
  intros Hnew. apply new_props_spec in Hnew as (Hout & Hin & Hat & Hsec & He').
  split; [now apply (heap_extends_trans h h1)|].
  split; [now apply (outside_extends_props h h1)|]. split; [exact Hin|].
  intros k p Hk. rewrite Hat in Hk. rewrite Hsec. now apply (Hd k).
Qed.

Lemma refs_allocated_extends h h' self :
  refs_allocated h self -> heap_extends h h' -> refs_allocated h' self.
Proof.
  intros Hr He l Hl. destruct (Hr l Hl) as [Hin Hsec].
  destruct (heap_extends_dom _ _ He) as [Dp Ds]. split; [now apply Dp|].
  intros k p Hk. apply Ds, (Hsec k). unfold props_at in *.
  now rewrite (proj1 He l Hin) in Hk.
Qed.

Lemma get_private_info_extends h h' self key :
  refs_allocated h self -> heap_extends h h' ->
  get_private_info self key h' = get_private_info self key h.
Proof.
  intros Hr He. unfold get_private_info.
  destruct (_extended_properties self) as [l|] eqn:Hl; [|reflexivity].
  destruct (Hr l Hl) as [Hin Hsec].
  assert (Hsame : props_at h' l = props_at h l)
    by (unfold props_at; now rewrite (proj1 He l Hin)).
  rewrite Hsame. destruct (props_at h l !! "private") as [p|] eqn:Hp; [|reflexivity].
  unfold section_at. now rewrite (proj2 He p (Hsec _ _ Hp)).
Qed.

Lemma update_from_raw_spec self raw h self' h' :
  update_from_raw self raw h = (self', h') ->
  heap_extends h h' /\ refs_allocated h' self' /\ exceptions self' = exceptions self.
Proof.
  unfold update_from_raw, deepcopy_raw.
  destruct (r_extendedProperties raw) as [l|] eqn:Hl.
  - destruct (deepcopy_props l h) as [l' h1] eqn:Hcopy. intros [= <- <-].
    apply deepcopy_props_spec in Hcopy as (He & _ & Hin & Hsec).
    split; [exact He|]. split; [|reflexivity].
    intros l0 [= <-]. split; [exact Hin|]. intros k p Hk. now apply (Hsec k).
  - intros [= <- <-]. split; [apply heap_extends_refl|]. split; [|reflexivity].
    intros l0. cbn. rewrite Hl. discriminate.
Qed.

Lemma from_raw_spec gc raw h self' h' :
  from_raw gc raw h = (self', h') -> heap_extends h h' /\ refs_allocated h' self'.
Proof.
  unfold from_raw. intros H. apply update_from_raw_spec in H as (? & ? & _). now split.
Qed.

Lemma refresh_entry_extends d key raw : forall h d' h',
  refresh_entry d key raw h = (d', h') -> heap_extends h h'.
Proof.
  induction d as [|[k x] d IH]; intros h d' h'; cbn.
  - intros [= _ <-]. apply heap_extends_refl.
  - destruct (String.eqb k key).
    + destruct (update_from_raw x raw h) as [x' h1] eqn:Hu. intros [= _ <-].
      now apply update_from_raw_spec in Hu as (? & _).
    + destruct (refresh_entry d key raw h) as [d1 h1] eqn:Hr. intros [= _ <-].
      now apply (IH h d1).
Qed.

Lemma update_exception_spec self exception h self' h' :
  update_exception self exception h = (self', h') ->
  heap_extends h h' /\ _extended_properties self' = _extended_properties self.
Proof.
  unfold update_exception. destruct (negb _).
  - destruct (from_raw _ exception h) as [event h1] eqn:Hf. intros [= <- <-].
    apply from_raw_spec in Hf as [He _]. now split.
  - destruct (refresh_entry _ _ exception h) as [d h1] eqn:Hr. intros [= <- <-].
    apply refresh_entry_extends in Hr. now split.
Qed.

Lemma deep_copy_spec self h copy h' :
  deep_copy self h = (copy, h') -> heap_extends h h' /\ refs_allocated h' copy.
Proof.
  unfold deep_copy.
  destruct (from_raw (google_calendar self) (_raw self) h) as [event h0] eqn:Hf.
  apply from_raw_spec in Hf as [He Hr]. revert event h0 He Hr.
  induction (values (exceptions self)) as [|x xs IH]; intros event h0 He Hr; cbn.
  - intros [= <- <-]. now split.
  - destruct (update_exception event (_raw x) h0) as [event1 h1] eqn:Hu.
    apply update_exception_spec in Hu as [He1 Hep]. apply IH.
    + now apply (heap_extends_trans h h0).
    + intros l Hl. rewrite Hep in Hl. now apply (refs_allocated_extends h0 h1 event).
Qed.

Lemma save_private_info_spec self key value h outcome self' h' :
  save_private_info self key value h = (outcome, self', h') ->
  heap_extends h h' /\ (refs_allocated h self -> refs_allocated h' self').
Proof.
  unfold save_private_info.
  destruct value as [|s|n|b];
    [intros [= _ <- <-]; split; [apply heap_extends_refl | auto] | | |];
    (set (v := py_str _); clearbody v;
     destruct (match _extended_properties self with
               | Some l => deepcopy_props l h
               | None => new_props ∅ h
               end) as [ep h1] eqn:Hep;
     assert (Hfresh : heap_extends h h1 /\ (ep ∉ dom (props h)) /\ (ep ∈ dom (props h1))
                      /\ forall k p, props_at h1 ep !! k = Some p ->
                           (p ∈ dom (sections h1)) /\ (p ∉ dom (sections h)));
     [ destruct (_extended_properties self);
       [ now apply deepcopy_props_spec in Hep
       | apply new_props_spec in Hep as (? & ? & Hat & ? & ?);
         repeat (split; [assumption|]); intros k p Hk; rewrite Hat in Hk;
         now rewrite lookup_empty in Hk ]
     | clear Hep; destruct Hfresh as (He & Hout & Hin & Hsec) ]).
  all: destruct (props_at h1 ep !! "private") as [p|] eqn:Hp.
  all: intros [= _ <- <-].
  all: try (pose proof (Hsec _ _ Hp) as [Hp1 Hp0]; split;
            [ now apply set_section_outside
            | intros _ l [= <-]; cbn [props set_section]; split; [exact Hin|];
              intros k q Hq; rewrite props_at_set_section in Hq; cbn;
              rewrite dom_insert_L; pose proof (Hsec _ _ Hq) as [? ?]; set_solver ]).
  all: unfold new_section; set (q := fresh (dom (sections h1)));
       assert (Hq : q ∉ dom (sections h1)) by apply is_fresh;
       assert (Hq0 : q ∉ dom (sections h)) by now apply (outside_extends_sections h h1).
  all: split;
       [ apply set_section_outside; [exact Hq0|];
         apply set_props_outside; [exact Hout|];
         now apply set_section_outside
       | intros _ l [= <-]; cbn; split; [rewrite dom_insert_L; set_solver|];
         intros k r Hr; unfold props_at in Hr; cbn in Hr;
         rewrite lookup_insert_eq in Hr; cbn in Hr;
         rewrite !dom_insert_L;
         destruct (decide (k = "private")) as [->|Hne];
         [ rewrite lookup_insert_eq in Hr; injection Hr as <-; set_solver
         | rewrite lookup_insert_ne in Hr by congruence;
           pose proof (Hsec k r Hr) as [? ?]; set_solver ] ].
Qed.

Lemma save_all_spec kvs : forall self h self' h',
  save_all self kvs h = (self', h') ->
  heap_extends h h' /\ (refs_allocated h self -> refs_allocated h' self').
Proof.
  unfold save_all. induction kvs as [|[key v] kvs IH]; intros self h self' h'; cbn.
  - intros [= <- <-]. split; [apply heap_extends_refl | auto].
  - destruct (save_private_info self key v h) as [[outcome self1] h1] eqn:Hs.
    apply save_private_info_spec in Hs as [He Hr]. intros Hrest.
    apply IH in Hrest as [He' Hr']. split; [now apply (heap_extends_trans h h1) | auto].
Qed.

(** C9: after [deep_copy], saving private properties on the original leaves
    every private property read from the copy as it was, and saving on the
    copy leaves every private property read from the original as it was. *)
Theorem deep_copy_isolated (self : CalendarEvent) (h : heap)
    (kvs : list (string * pyval)) (key : string) :
  refs_allocated h self ->
  let '(copy, h1) := deep_copy self h in
  (let '(_, h2) := save_all self kvs h1 in
   get_private_info copy key h2 = get_private_info copy key h1)
  /\ (let '(_, h2) := save_all copy kvs h1 in
      get_private_info self key h2 = get_private_info self key h1).
Proof.
  intros Hself. destruct (deep_copy self h) as [copy h1] eqn:Hcopy.
  apply deep_copy_spec in Hcopy as [He Hcopy]. split.
  - destruct (save_all self kvs h1) as [self' h2] eqn:Hsave.
    apply save_all_spec in Hsave as [He2 _].
    now apply get_private_info_extends.
  - destruct (save_all copy kvs h1) as [copy' h2] eqn:Hsave.
    apply save_all_spec in Hsave as [He2 _].
    apply get_private_info_extends; [|exact He2].
    now apply (refs_allocated_extends h h1).
Qed.

(** Saving never changes what is read through the baseline [_raw]. *)
Lemma save_private_info_keeps_raw (self : CalendarEvent) (key : string) (v : pyval)
    (h : heap) (l : loc) :
  l ∈ dom (props h) ->
  let '(_, _, h') := save_private_info self key v h in
  props h' !! l = props h !! l
  /\ forall k p, props_at h l !! k = Some p -> p ∈ dom (sections h) ->
       section_at h' p = section_at h p.
Proof.
  intros Hl. destruct (save_private_info self key v h) as [[outcome self'] h'] eqn:Hs.
  apply save_private_info_spec in Hs as [[Hp Hsec] _]. split; [now apply Hp|].
  intros k p _ Hin. unfold section_at. now rewrite Hsec.
Qed.


(** ** Recurrence normalisation *)

Lemma append_cons (x : ascii) (a b : string) : String x a +:+ b = String x (a +:+ b).
Proof. reflexivity. Qed.

Lemma append_nil (b : string) : "" +:+ b = b.
Proof. reflexivity. Qed.

Lemma append_assoc (a b c : string) : (a +:+ b) +:+ c = a +:+ (b +:+ c).
Proof.
  induction a as [|x a IH]; [reflexivity|]. rewrite !append_cons. now f_equal.
Qed.

Lemma length_append (a b : string) :
  String.length (a +:+ b) = (String.length a + String.length b)%nat.
Proof.
  induction a as [|x a IH]; [reflexivity|]. rewrite append_cons. cbn. now f_equal.
Qed.

Lemma strip_prefix_Some p : forall s r, strip_prefix p s = Some r -> s = p +:+ r.
Proof.
  induction p as [|a p IH]; intros s r; cbn.
  - now intros [= ->].
  - destruct s as [|b s]; [discriminate|].
    destruct (Ascii.eqb_spec a b) as [->|]; [|discriminate].
    intros H. rewrite append_cons. now rewrite (IH _ _ H).
Qed.

Lemma take_digits_Some n : forall s d r,
  take_digits n s = Some (d, r) -> s = d +:+ r /\ String.length d = n.
Proof.
  induction n as [|n IH]; intros s d r; cbn.
  - destruct s; intros [= <- <-]; now split.
  - destruct s as [|c s]; [discriminate|]. destruct (is_digit c); [|discriminate].
    intros H. apply bind_Some in H as ([d' r'] & Ht & H). injection H as <- <-. destruct (IH _ _ _ Ht) as [-> Hlen].
    rewrite append_cons. cbn. now rewrite Hlen.
Qed.

Lemma until_matcher_Some s g rest :
  until_matcher s = Some (g, rest) ->
  s = "UNTIL=" +:+ g +:+ rest /\ String.length g = 16%nat.
Proof.
  unfold until_matcher. intros H.
  apply bind_Some in H as (r0 & H0 & H).
  apply bind_Some in H as ([d8 r1] & H1 & H).
  apply bind_Some in H as (r2 & H2 & H).
  apply bind_Some in H as ([t6 r3] & H3 & H).
  apply bind_Some in H as (r4 & H4 & H).
  injection H as <- <-.
  apply strip_prefix_Some in H0, H2, H4. apply take_digits_Some in H1 as [H1 L1].
  apply take_digits_Some in H3 as [H3 L3]. subst. split.
  - now rewrite !append_assoc.
  - rewrite !length_append, L1, L3. reflexivity.
Qed.

Lemma re_sub_skip repl p : forall r,
  re_sub repl (String.length p) (p +:+ r) = re_sub repl 0 r.
Proof.
  induction p as [|c p IH]; intros r.
  - reflexivity.
  - rewrite append_cons. cbn. apply IH.
Qed.

Lemma re_sub_match repl s g rest :
  until_matcher s = Some (g, rest) ->
  re_sub repl 0 s = repl +:+ re_sub repl 0 rest.
Proof.
  intros Hm. destruct (until_matcher_Some _ _ _ Hm) as [Hs Hlen].
  assert (Hs' : s = String "U" (("NTIL=" +:+ g) +:+ rest)).
  { rewrite Hs. rewrite append_assoc. reflexivity. }
  rewrite Hs' in Hm |- *. cbn [re_sub]. rewrite Hm. f_equal.
  rewrite <- (re_sub_skip repl ("NTIL=" +:+ g) rest). f_equal.
  rewrite length_append, Hlen. reflexivity.
Qed.

Lemma re_search_Some repl : forall s pre g rest,
  re_search s = Some (pre, g, rest) ->
  s = pre +:+ "UNTIL=" +:+ g +:+ rest
  /\ re_sub repl 0 s = pre +:+ repl +:+ re_sub repl 0 rest.
Proof.
  induction s as [|c s IH]; intros pre g rest; cbn [re_search].
  - destruct (until_matcher "") as [[g' rest']|] eqn:Hm; [|discriminate].
    apply until_matcher_Some in Hm as [Hm _]. discriminate.
    
  - destruct (until_matcher (String c s)) as [[g' rest']|] eqn:Hm.
    + intros [= <- <- <-]. split.
      * apply until_matcher_Some in Hm as [Hm _]. exact Hm.
      * rewrite append_nil. exact (re_sub_match repl _ _ _ Hm).
    + intros H. apply bind_Some in H as ([[pre' g'] rest'] & Hr & H).
      injection H as <- <- <-. rewrite Hr in IH. destruct (IH _ _ _ eq_refl) as [Hs Hsub].
      rewrite !append_cons. split; [now f_equal|].
      cbn [re_sub]. rewrite Hm. now f_equal.
Qed.

Lemma re_search_None repl : forall s, re_search s = None -> re_sub repl 0 s = s.
Proof.
  induction s as [|c s IH]; [reflexivity|]. cbn [re_search re_sub].
  destruct (until_matcher (String c s)) as [[g' rest']|]; [discriminate|].
  intros H. apply bind_None in H as [H | ([[pre' g'] rest'] & _ & H)]; [|discriminate].
  f_equal. now apply IH.
Qed.

Lemma contains_append needle pre : forall rest,
  String.prefix needle rest = true -> contains needle (pre +:+ rest) = true.
Proof.
  induction pre as [|c pre IH]; intros rest Hp.
  - rewrite append_nil. destruct rest; cbn [contains]; now rewrite Hp.
  - rewrite append_cons. cbn [contains]. rewrite IH by exact Hp. apply orb_true_r.
Qed.

Lemma re_search_contains_until s pre g rest :
  re_search s = Some (pre, g, rest) -> contains "UNTIL" s = true.
Proof.
  intros H. apply (re_search_Some "") in H as [-> _].
  apply contains_append. reflexivity.
Qed.

Lemma all_from_spec n : forall z P,
  all_from n z P = true -> forall x, z <= x < z + Z.of_nat n -> P x = true.
Proof.
  induction n as [|n IH]; intros z P H x Hx; [lia|].
  cbn [all_from] in H. apply andb_true_iff in H as [Hz Hrest].
  destruct (Z.eq_dec x z) as [->|Hne]; [exact Hz|].
  apply (IH (z + 1) P Hrest). lia.
Qed.

Lemma all_from_range n z P x :
  all_from (Z.to_nat n) z P = true -> z <= x < z + n -> P x = true.
Proof.
  intros H Hx. apply (all_from_spec _ _ _ H). rewrite Z2Nat.id by lia. exact Hx.
Qed.

Lemma is_digits_append a b : is_digits (a +:+ b) = is_digits a && is_digits b.
Proof.
  unfold is_digits. induction a as [|c a IH]; [reflexivity|].
  rewrite append_cons. cbn [list_ascii_of_string forallb]. now rewrite IH, andb_assoc.
Qed.

Lemma str_int_four_digits y :
  1000 <= y <= 9999 -> String.length (str_int y) = 4%nat /\ is_digits (str_int y) = true.
Proof.
  intros Hy.
  assert (H : all_from (Z.to_nat 9000) 1000
                (fun y => (String.length (str_int y) =? 4)%nat && is_digits (str_int y)) = true)
    by (vm_compute; reflexivity).
  pose proof (all_from_range _ _ _ y H ltac:(lia)) as Hc. cbn beta in Hc.
  apply andb_true_iff in Hc as [Hl Hd]. split; [now apply Nat.eqb_eq | exact Hd].
Qed.

Lemma fmt02_two_digits n :
  1 <= n <= 31 -> String.length (fmt02 n) = 2%nat /\ is_digits (fmt02 n) = true.
Proof.
  intros Hn.
  assert (H : all_from (Z.to_nat 31) 1
                (fun n => (String.length (fmt02 n) =? 2)%nat && is_digits (fmt02 n)) = true)
    by (vm_compute; reflexivity).
  pose proof (all_from_range _ _ _ n H ltac:(lia)) as Hc. cbn beta in Hc.
  apply andb_true_iff in Hc as [Hl Hd]. split; [now apply Nat.eqb_eq | exact Hd].
Qed.

Lemma civil_from_days_month_day z y m d :
  civil_from_days z = (y, m, d) -> 1 <= m <= 12 /\ 1 <= d <= 31.
Proof.
  unfold civil_from_days. cbv zeta.
  set (doe := z + 719468 - (z + 719468) / 146097 * 146097).
  assert (Hdoe : 0 <= doe < 146097).
  { unfold doe. pose proof (Z.mod_pos_bound (z + 719468) 146097 ltac:(lia)) as Hb.
    rewrite Z.mod_eq in Hb by lia. lia. }
  clearbody doe. intros [= _ <- <-].
  match goal with
  | |- context [?mp <? 10] => destruct (Z.ltb_spec mp 10)
  end; Z.div_mod_to_equations; lia.
Qed.

Lemma date_text_eight_digits y m d :
  1000 <= y <= 9999 -> 1 <= m <= 12 -> 1 <= d <= 31 ->
  is_date8 (str_int y +:+ fmt02 m +:+ fmt02 d) = true.
Proof.
  intros Hy Hm Hd. unfold is_date8.
  destruct (str_int_four_digits y Hy) as [Ly Dy].
  destruct (fmt02_two_digits m ltac:(lia)) as [Lm Dm].
  destruct (fmt02_two_digits d Hd) as [Ld Dd].
  rewrite !length_append, !is_digits_append, Ly, Lm, Ld, Dy, Dm, Dd. reflexivity.
Qed.

Lemma fix_utc_unmarked (E : Externals) self line :
  contains "RRULE" line = false \/ contains "UNTIL" line = false ->
  fix_utc self line = Ok line.
Proof. unfold fix_utc. intros [-> | ->]; [reflexivity | now rewrite orb_true_r]. Qed.

Lemma fix_utc_rewrites_token (E : Externals) self line pre g rest utc y m d :
  contains "RRULE" line = true ->
  re_search line = Some (pre, g, rest) ->
  parse_until g = Ok utc ->
  let zone := default_timezone (google_calendar self) in
  civil_from_days ((ticks utc + utcoffset zone (ticks utc)) / 86400) = (y, m, d) ->
  1 <= y <= 9999 ->
  let repl := "UNTIL=" +:+ str_int y +:+ fmt02 m +:+ fmt02 d in
  line = pre +:+ "UNTIL=" +:+ g +:+ rest
  /\ fix_utc self line = Ok (pre +:+ repl +:+ re_sub repl 0 rest)
  /\ (re_search rest = None -> fix_utc self line = Ok (pre +:+ repl +:+ rest))
  /\ (1000 <= y -> is_date8 (str_int y +:+ fmt02 m +:+ fmt02 d) = true).
Proof.
  intros Hrrule Hsearch Hparse zone Hcivil Hy repl.
  destruct (re_search_Some repl _ _ _ _ Hsearch) as [Hline Hsub].
  assert (Hfix : fix_utc self line = Ok (pre +:+ repl +:+ re_sub repl 0 rest)).
  { unfold fix_utc. rewrite Hrrule, (re_search_contains_until _ _ _ _ Hsearch), Hsearch.
    cbn [negb orb]. rewrite Hparse. cbn [res_bind].
    assert (Hutc : exists t, utc = PDateTime t (Some "UTC")).
    { unfold parse_until in Hparse. destruct (_ && _) in Hparse; [|discriminate].
      injection Hparse as <-. now eexists. }
    destruct Hutc as [t ->]. cbn [astimezone res_bind from_option id py_date date_fields].
    cbn [ticks] in Hcivil. fold zone. rewrite Hcivil.
    destruct Hy as [Hy1 Hy2]. apply Z.leb_le in Hy1, Hy2. rewrite Hy1, Hy2.
    cbn [andb res_bind]. fold repl. now rewrite Hsub. }
  split; [exact Hline|]. split; [exact Hfix|]. split.
  - intros Hrest. now rewrite Hfix, (re_search_None repl rest Hrest).
  - intros Hy4. destruct (civil_from_days_month_day _ _ _ _ Hcivil) as [Hm Hd].
    apply date_text_eight_digits; lia.
Qed.

(** What [_get_recurrence] does with the lines of an event.  For an all-day
    event every line goes through [fix_utc], which leaves a line without
    both markers as it is and rewrites the [UNTIL=YYYYMMDDTHHMMSSZ] token of
    a rule line to a bare date: the day of that UTC instant in the
    calendar's default zone, written as the year in plain decimal followed
    by the two-digit month and day, which makes eight digits when the year
    has four; a further token of the line is replaced by the same text.
    [UNTIL=20240615T000000Z] in New York (UTC-4 at that instant) becomes
    [UNTIL=20240614].  The lines of an event that is not all-day are joined
    unchanged. *)
Theorem recurrence_until_normalized (E : Externals) (self : CalendarEvent) :
  let zone := default_timezone (google_calendar self) in
  (forall line pre g rest utc y m d,
      contains "RRULE" line = true ->
      re_search line = Some (pre, g, rest) ->
      parse_until g = Ok utc ->
      civil_from_days ((ticks utc + utcoffset zone (ticks utc)) / 86400) = (y, m, d) ->
      1 <= y <= 9999 ->
      let repl := "UNTIL=" +:+ str_int y +:+ fmt02 m +:+ fmt02 d in
      line = pre +:+ "UNTIL=" +:+ g +:+ rest
      /\ fix_utc self line = Ok (pre +:+ repl +:+ re_sub repl 0 rest)
      /\ (re_search rest = None -> fix_utc self line = Ok (pre +:+ repl +:+ rest))
      /\ (1000 <= y -> is_date8 (str_int y +:+ fmt02 m +:+ fmt02 d) = true))
  /\ (forall line pre rest,
        zone = "America/New_York" ->
        utcoffset "America/New_York" 1718409600 = -14400 ->
        contains "RRULE" line = true ->
        re_search line = Some (pre, "20240615T000000Z", rest) ->
        re_search rest = None ->
        fix_utc self line = Ok (pre +:+ "UNTIL=20240614" +:+ rest))
  /\ (forall line,
        contains "RRULE" line = false \/ contains "UNTIL" line = false ->
        fix_utc self line = Ok line)
  /\ (forall s lines,
        start self = Ok s ->
        r_recurrence (_raw self) = Some lines ->
        _get_recurrence self
        = if is_allday s
          then let* fixed := res_map (fix_utc self) lines in
               Ok (Some (String.concat newline fixed))
          else Ok (Some (String.concat newline lines))).
Proof.
  cbn zeta. split; [|split; [|split]].
  - intros line pre g rest utc y m d. apply fix_utc_rewrites_token.
  - intros line pre rest Hzone Hoff Hrrule Hsearch Hrest.
    destruct (fix_utc_rewrites_token E self line pre "20240615T000000Z" rest
                (PDateTime 1718409600 (Some "UTC")) 2024 6 14) as (_ & _ & Hfix & _);
      try assumption; try reflexivity; try lia.
    + cbn [ticks]. rewrite Hzone, Hoff. reflexivity.
    + now apply Hfix.
  - apply fix_utc_unmarked.
  - intros s lines Hs Hrec. unfold _get_recurrence. rewrite Hrec, Hs. cbn [res_bind].
    destruct (is_allday s); reflexivity.
Qed.

(** ** The properties at the sample data *)

Lemma sample_normalizes : datetime_as_normalizes sample_externals.
Proof. intros dt [d|t [tz|]]; reflexivity. Qed.

Lemma daily_Some count dtstart i d :
  daily count dtstart i = Some d ->
  d = PDateTime (ticks dtstart + 86400 * Z.of_nat i) (tzinfo_of dtstart).
Proof.
  unfold daily. cbn zeta. destruct (_ <? _); [discriminate|].
  destruct count as [c|]; [destruct (c <=? i)%nat; [discriminate|]|]; now intros [= <-].
Qed.

Lemma daily_aware count t zone i d :
  daily count (PDateTime t (Some zone)) i = Some d -> shape_of d = SAware.
Proof. intros Hd. apply daily_Some in Hd. now subst d. Qed.

Lemma next_occurrence_single_witness :
  next_occurrence (E := sample_externals) 0 moved_day (jan 2)
  = Ok (Some (jan 4), Some moved_day).
Proof.
  exact (proj1 (next_occurrence_single sample_externals moved_day (jan 2) (jan 4) 0
                  sample_normalizes eq_refl eq_refl)).
Defined.

Lemma next_occurrence_regular_witness :
  next_occurrence (E := sample_externals) 2
    (timed_series [accepted_by_me] []) (jan 2)
  = Ok (Some (jan_at 2 9), Some (timed_series [accepted_by_me] []))
  /\ next_occurrence (E := sample_externals) 3
       (allday_series "RRULE:FREQ=DAILY" [accepted_by_me] []) (jan 2)
     = Ok (Some (jan 3), Some (allday_series "RRULE:FREQ=DAILY" [accepted_by_me] [])).
Proof.
  split.
  - apply (next_occurrence_regular sample_externals (timed_series [accepted_by_me] [])
             (jan 2) (jan_at 1 9) (daily None (jan_at 1 9)) 1 (jan_at 2 9) 2
             sample_normalizes eq_refl eq_refl eq_refl eq_refl eq_refl).
    + intros [|j] Hj; [|lia]. exists (jan_at 1 9). split; reflexivity.
    + reflexivity.
    + reflexivity.
    + lia.
  - apply (next_occurrence_regular sample_externals
             (allday_series "RRULE:FREQ=DAILY" [accepted_by_me] [])
             (jan 2) (jan 1) (daily None (ensure_datetime (jan 1))) 2
             (ensure_datetime (jan 3)) 3
             sample_normalizes eq_refl eq_refl eq_refl eq_refl eq_refl).
    + intros [|[|j]] Hj; [| |lia].
      * exists (ensure_datetime (jan 1)). split; reflexivity.
      * exists (ensure_datetime (jan 2)). split; reflexivity.
    + reflexivity.
    + reflexivity.
    + lia.
Defined.

Lemma sample_refs_allocated : refs_allocated sample_heap linked_event.
Proof.
  intros l [= <-]. split.
  - apply elem_of_dom. now eexists.
  - intros k p Hk. unfold props_at, sample_heap in Hk. cbn in Hk.
    rewrite lookup_singleton_eq in Hk. cbn in Hk.
    apply lookup_singleton_Some in Hk as [_ <-]. apply elem_of_dom. now eexists.
Qed.

Lemma deep_copy_isolated_witness :
  let '(copy, h1) := deep_copy linked_event sample_heap in
  (let '(_, h2) := save_all linked_event [("task", VInt 99)] h1 in
   get_private_info copy "task" h2 = get_private_info copy "task" h1)
  /\ (let '(_, h2) := save_all copy [("task", VInt 99)] h1 in
      get_private_info linked_event "task" h2 = get_private_info linked_event "task" h1).
Proof.
  exact (deep_copy_isolated linked_event sample_heap [("task", VInt 99)] "task"
           sample_refs_allocated).
Defined.

(** After the copy, a save on the original is seen by the original alone. *)
Example deep_copy_then_save :
  let '(copy, h1) := deep_copy linked_event sample_heap in
  let '(_, original, h2) := save_private_info linked_event "task" (VInt 99) h1 in
  get_private_info original "task" h2 = Some "99"
  /\ get_private_info copy "task" h2 = Some "17".
Proof. vm_compute. split; reflexivity. Qed.

Lemma save_then_get_private_info_witness :
  let '(outcome, self', h') :=
    save_private_info linked_event "task" (VInt 12345) sample_heap in
  outcome = Ok tt /\ get_private_info self' "task" h' = Some "12345".
Proof.
  exact (save_then_get_private_info linked_event "task" (VInt 12345) sample_heap
           ltac:(discriminate)).
Defined.

(** C5: the year of the rewritten date is not padded.  On an all-day
    series in New York the bound [UNTIL=09990615T000000Z] is rewritten to
    [UNTIL=9990614], seven digits where a date has eight, and that is the
    text [_get_recurrence] returns for the rule parser; the bound
    [UNTIL=20240615T000000Z] is rewritten to the eight digits [20240614].
    On a line with two bounds both are replaced by the date of the first. *)
Theorem until_year_999_not_eight_digits :
  fix_utc (E := sample_externals) (allday_series "" [] [])
    "RRULE:FREQ=DAILY;UNTIL=09990615T000000Z"
  = Ok "RRULE:FREQ=DAILY;UNTIL=9990614"
  /\ _get_recurrence (E := sample_externals)
       (allday_series "RRULE:FREQ=DAILY;UNTIL=09990615T000000Z" [] [])
     = Ok (Some "RRULE:FREQ=DAILY;UNTIL=9990614")
  /\ is_date8 "9990614" = false
  /\ _get_recurrence (E := sample_externals)
       (allday_series "RRULE:FREQ=DAILY;UNTIL=20240615T000000Z" [] [])
     = Ok (Some "RRULE:FREQ=DAILY;UNTIL=20240614")
  /\ is_date8 "20240614" = true
  /\ fix_utc (E := sample_externals) (allday_series "" [] [])
       "RRULE:FREQ=DAILY;UNTIL=20240615T000000Z;UNTIL=20250101T000000Z"
     = Ok "RRULE:FREQ=DAILY;UNTIL=20240614;UNTIL=20240614".
Proof. repeat split; vm_compute; reflexivity. Qed.

Lemma recurrence_until_normalized_witness :
  fix_utc (E := sample_externals) (allday_series "" [] [])
    "RRULE:FREQ=WEEKLY;UNTIL=20240615T000000Z;BYDAY=MO"
  = Ok "RRULE:FREQ=WEEKLY;UNTIL=20240614;BYDAY=MO".
Proof.
  exact (proj1 (proj2 (recurrence_until_normalized sample_externals (allday_series "" [] [])))
           "RRULE:FREQ=WEEKLY;UNTIL=20240615T000000Z;BYDAY=MO"
           "RRULE:FREQ=WEEKLY;" ";BYDAY=MO" eq_refl eq_refl eq_refl eq_refl eq_refl).
Defined.

(** The timed series with its moved instance, asked after 2024-01-03: the
    slot of 2024-01-03 09:00 is overridden and passed over, the regular
    instant of 2024-01-04 09:00 comes before the moved instance (15:00) and
    is returned with the master. *)
Lemma next_occurrence_merge_timed_witness :
  next_occurrence (E := sample_externals) 4
    (timed_series [accepted_by_me] [("moved", moved_meeting)]) (jan 3)
  = Ok (Some (jan_at 4 9), Some (timed_series [accepted_by_me] [("moved", moved_meeting)])).
Proof.
  pose (series := timed_series [accepted_by_me] [("moved", moved_meeting)]).
  assert (Htimed : timed_throughout series (jan_at 1 9) (daily None (jan_at 1 9))).
  { split; [reflexivity|]. split; [reflexivity|]. split; [|split].
    - intros x [<- | []] _. now exists (jan_at 4 15).
    - intros x [<- | []]. now eexists.
    - intros j d Hj. now apply daily_aware in Hj. }
  destruct (next_occurrence_merge_timed sample_externals series (jan 3) (jan_at 1 9)
              (daily None (jan_at 1 9)) sample_normalizes Htimed eq_refl eq_refl eq_refl)
    as (c & originals & Hc & Hor & _ & _ & Hwalk).
  assert (Hc' : c = (Some (jan_at 4 15), Some moved_meeting))
    by (vm_compute in Hc; now injection Hc).
  assert (Hor' : originals = [jan_at 3 9])
    by (vm_compute in Hor; injection Hor as <-; reflexivity).
  subst c originals.
  destruct (Hwalk 3%nat 4%nat) as [_ Hstop]; [|lia|].
  { intros [|[|[|j]]] Hj; [| | |lia].
    - exists (jan_at 1 9). split; [reflexivity | now left].
    - exists (jan_at 2 9). split; [reflexivity | now left].
    - exists (jan_at 3 9). split; [reflexivity|]. right. repeat split; reflexivity. }
  destruct (Hstop (jan_at 4 9) eq_refl ltac:(reflexivity)) as [_ Hregular].
  apply Hregular; [|reflexivity].
  intros st [= <-]. reflexivity.
Defined.

(** Asked after 2024-01-02, the same series returns its regular instant of
    2024-01-02 09:00 with the master. *)
Example next_occurrence_before_moved_instance :
  next_occurrence (E := sample_externals) 10
    (timed_series [accepted_by_me] [("moved", moved_meeting)]) (jan 2)
  = Ok (Some (jan_at 2 9), Some (timed_series [accepted_by_me] [("moved", moved_meeting)])).
Proof. vm_compute. reflexivity. Qed.

(** The same series declined by its owner: the moved instance is returned. *)
Lemma next_occurrence_declined_timed_witness :
  next_occurrence (E := sample_externals) 0
    (timed_series [declined_by_me] [("moved", moved_meeting)]) (jan 2)
  = Ok (Some (jan_at 4 15), Some moved_meeting).
Proof.
  pose (series := timed_series [declined_by_me] [("moved", moved_meeting)]).
  assert (Htimed : timed_throughout series (jan_at 1 9) (daily None (jan_at 1 9))).
  { split; [reflexivity|]. split; [reflexivity|]. split; [|split].
    - intros x [<- | []] _. now exists (jan_at 4 15).
    - intros x [<- | []]. now eexists.
    - intros j d Hj. now apply daily_aware in Hj. }
  destruct (next_occurrence_declined_timed sample_externals series (jan 2) (jan_at 1 9)
              (daily None (jan_at 1 9)) 0 sample_normalizes Htimed eq_refl eq_refl)
    as (c & Hc & _ & Hnext).
  assert (Hc' : c = (Some (jan_at 4 15), Some moved_meeting))
    by (vm_compute in Hc; now injection Hc).
  subst c. exact Hnext.
Defined.

Lemma daily_increasing dtstart : increasing (daily None dtstart).
Proof.
  intros j d d' Hd Hd'. apply daily_Some in Hd, Hd'. subst d d'. cbn [ticks]. lia.
Qed.

Lemma next_occurrence_timed_returns_witness :
  exists fuel0 r, forall fuel, (fuel0 <= fuel)%nat ->
    next_occurrence (E := sample_externals) fuel
      (timed_series [accepted_by_me] [("moved", moved_meeting)]) (jan 3) = Ok r.
Proof.
  apply (next_occurrence_timed_returns sample_externals
           (timed_series [accepted_by_me] [("moved", moved_meeting)]) (jan 3) (jan_at 1 9)
           (daily None (jan_at 1 9)) sample_normalizes).
  - split; [reflexivity|]. split; [reflexivity|]. split; [|split].
    + intros x [<- | []] _. now exists (jan_at 4 15).
    + intros x [<- | []]. now eexists.
    + intros j d Hj. now apply daily_aware in Hj.
  - reflexivity.
  - apply daily_increasing.
Defined.

(** * Further properties of the code *)

(** ** Copies in the store *)

Lemma section_at_extends h h' p :
  heap_extends h h' -> p ∈ dom (sections h) -> section_at h' p = section_at h p.
Proof. intros [_ Hs] Hp. unfold section_at. now rewrite Hs. Qed.

Lemma props_at_extends h h' l :
  heap_extends h h' -> l ∈ dom (props h) -> props_at h' l = props_at h l.
Proof. intros [Hp _] Hl. unfold props_at. now rewrite Hp. Qed.

Lemma new_section_spec d h p h' :
  new_section d h = (p, h') ->
  (p ∉ dom (sections h)) /\ (p ∈ dom (sections h')) /\ section_at h' p = d
  /\ props h' = props h /\ heap_extends h h'.
Proof.
  unfold new_section. intros [= <- <-].
  assert (Hf : fresh (dom (sections h)) ∉ dom (sections h)) by apply is_fresh.
  split; [exact Hf|]. split; [cbn; rewrite dom_insert_L; set_solver|].
  split; [apply section_at_set_section|]. split; [reflexivity|].
  apply set_section_outside; [exact Hf | apply heap_extends_refl].
Qed.

Lemma deepcopy_entry_content h0 h memo d k p h1 memo1 d1 :
  heap_extends h0 h ->
  memo_faithful h0 h memo ->
  p ∈ dom (sections h0) ->
  deepcopy_entry (h, memo, d) (k, p) = (h1, memo1, d1) ->
  heap_extends h h1 /\ memo_faithful h0 h1 memo1
  /\ (exists p', d1 !! k = Some p' /\ p' ∈ dom (sections h1)
                 /\ section_at h1 p' = section_at h0 p)
  /\ (forall k', k' <> k -> d1 !! k' = d !! k').
Proof.
  intros He Hm Hp. unfold deepcopy_entry.
  destruct (memo !! p) as [p'|] eqn:Hmp.
  - intros [= <- <- <-]. split; [apply heap_extends_refl|]. split; [exact Hm|].
    split.
    + exists p'. rewrite lookup_insert_eq. destruct (Hm _ _ Hmp). auto.
    + intros k' Hk. now rewrite lookup_insert_ne.
  - destruct (new_section (section_at h p) h) as [q h'] eqn:Hnew.
    intros [= <- <- <-].
    apply new_section_spec in Hnew as (Hout & Hin & Hat & _ & Hext).
    assert (Hq : section_at h' q = section_at h0 p).
    { rewrite Hat. now apply section_at_extends. }
    split; [exact Hext|]. split; [|split].
    + intros r r' Hr. destruct (decide (p = r)) as [->|Hne].
      * rewrite lookup_insert_eq in Hr. injection Hr as <-. now split.
      * rewrite lookup_insert_ne in Hr by exact Hne.
        pose proof (Hm _ _ Hr) as [Hr1 Hr2]. split.
        -- now apply (heap_extends_dom _ _ Hext).
        -- now rewrite (section_at_extends h h').
    + exists q. rewrite lookup_insert_eq. auto.
    + intros k' Hk. now rewrite lookup_insert_ne.
Qed.

Lemma foldl_deepcopy_entry_content h0 entries : forall h memo d h1 memo1 d1,
  heap_extends h0 h ->
  memo_faithful h0 h memo ->
  NoDup (entries.*1) ->
  (forall k p, (k, p) ∈ entries -> p ∈ dom (sections h0)) ->
  foldl deepcopy_entry (h, memo, d) entries = (h1, memo1, d1) ->
  heap_extends h h1
  /\ (forall k p, (k, p) ∈ entries ->
        exists p', d1 !! k = Some p' /\ section_at h1 p' = section_at h0 p)
  /\ (forall k, k ∉ entries.*1 -> d1 !! k = d !! k).
Proof.
  induction entries as [|[k p] entries IH]; intros h memo d h1 memo1 d1 He Hm Hnd Hall; cbn [foldl].
  - intros [= <- <- <-]. split; [apply heap_extends_refl|]. split; [|auto].
    intros k p Hin. now apply elem_of_nil in Hin.
  - destruct (deepcopy_entry (h, memo, d) (k, p)) as [[h2 memo2] d2] eqn:Hstep.
    apply (deepcopy_entry_content h0) in Hstep as (He2 & Hm2 & (p' & Hd2 & Hp' & Hsec) & Hother);
      [|assumption..|apply (Hall k); left].
    cbn in Hnd. apply NoDup_cons in Hnd as [Hk Hnd].
    intros Hfold. apply IH in Hfold as (He3 & Hcopied & Hrest); try assumption.
    + split; [now apply (heap_extends_trans h h2)|]. split.
      * intros k0 p0 Hin. apply elem_of_cons in Hin as [[= -> ->] | Hin].
        -- exists p'. rewrite (Hrest k Hk). split; [exact Hd2|].
           rewrite <- Hsec. now apply section_at_extends.
        -- now apply Hcopied.
      * intros k0 Hk0. cbn in Hk0. apply not_elem_of_cons in Hk0 as [Hne Hk0].
        rewrite (Hrest k0 Hk0). now apply Hother.
    + now apply (heap_extends_trans h0 h).
    + intros k0 p0 Hin. apply (Hall k0). now right.
Qed.

Lemma deepcopy_props_content l h l' h' :
  (forall k p, props_at h l !! k = Some p -> p ∈ dom (sections h)) ->
  deepcopy_props l h = (l', h') ->
  content h' l' = content h l.
Proof.
  intros Halloc. unfold deepcopy_props.
  destruct (foldl deepcopy_entry (h, ∅, ∅) (map_to_list (props_at h l)))
    as [[h1 memo] d] eqn:Hfold.
  apply (foldl_deepcopy_entry_content h) in Hfold as (He & Hcopied & Hrest).
  - intros Hnew. apply new_props_spec in Hnew as (_ & _ & Hat & Hsec & _).
    apply map_eq. intros k. unfold content. rewrite !lookup_fmap, Hat.
    destruct (props_at h l !! k) as [p|] eqn:Hk; cbn.
    + destruct (Hcopied k p) as (p' & -> & Hp'); [now apply elem_of_map_to_list|].
      cbn. f_equal. unfold section_at in *. now rewrite Hsec.
    + rewrite Hrest; [now rewrite lookup_empty|].
      intros Hin. apply list_elem_of_fmap in Hin as ([k' p'] & -> & Hin).
      apply elem_of_map_to_list in Hin. cbn in Hk. congruence.
  - apply heap_extends_refl.
  - intros p p' Hp. now rewrite lookup_empty in Hp.
  - apply NoDup_fst_map_to_list.
  - intros k p Hin. apply elem_of_map_to_list in Hin. now apply (Halloc k).
Qed.

Lemma content_lookup h l k :
  content h l !! k = section_at h <$> props_at h l !! k.
Proof. unfold content. now rewrite lookup_fmap. Qed.

Lemma content_extends h h' l :
  heap_extends h h' ->
  l ∈ dom (props h) ->
  (forall k p, props_at h l !! k = Some p -> p ∈ dom (sections h)) ->
  content h' l = content h l.
Proof.
  intros He Hl Hs. apply map_eq. intros k. rewrite !content_lookup.
  rewrite (props_at_extends h h') by assumption.
  destruct (props_at h l !! k) as [p|] eqn:Hk; cbn; [|reflexivity].
  f_equal. apply section_at_extends; [assumption | now apply (Hs k)].
Qed.

Lemma get_private_info_content self key h :
  get_private_info self key h
  = match _extended_properties self with
    | None => None
    | Some l => content h l !! "private" ≫= (.!! key)
    end.
Proof.
  unfold get_private_info. destruct (_extended_properties self) as [l|]; [|reflexivity].
  rewrite content_lookup. now destruct (props_at h l !! "private").
Qed.

Lemma raw_private_info_extends h h' raw key :
  raw_allocated h raw -> heap_extends h h' ->
  raw_private_info raw key h' = raw_private_info raw key h.
Proof.
  intros Ha He. unfold raw_private_info.
  destruct (r_extendedProperties raw) as [l|] eqn:Hl; [|reflexivity].
  destruct (Ha l Hl) as [H1 H2]. now rewrite (content_extends h h').
Qed.

Lemma raw_allocated_extends h h' raw :
  raw_allocated h raw -> heap_extends h h' -> raw_allocated h' raw.
Proof.
  intros Ha He l Hl. destruct (Ha l Hl) as [H1 H2].
  pose proof (heap_extends_dom _ _ He) as [Hd1 Hd2]. split; [now apply Hd1|].
  intros k p. rewrite (props_at_extends h h') by assumption.
  intros Hk. apply Hd2. now apply (H2 k).
Qed.

Lemma deepcopy_raw_content raw h raw' h' :
  raw_allocated h raw ->
  deepcopy_raw raw h = (raw', h') ->
  heap_extends h h' /\ raw_allocated h' raw' /\ same_fields raw' raw
  /\ (forall key, raw_private_info raw' key h' = raw_private_info raw key h)
  /\ (forall l', r_extendedProperties raw' = Some l' ->
        (l' ∉ dom (props h))
        /\ exists l, r_extendedProperties raw = Some l /\ content h' l' = content h l)
  /\ (r_extendedProperties raw' = None -> r_extendedProperties raw = None).
Proof.
  intros Ha. unfold deepcopy_raw.
  destruct (r_extendedProperties raw) as [l|] eqn:Hl.
  - destruct (deepcopy_props l h) as [l' h1] eqn:Hcopy. intros [= <- <-].
    destruct (Ha l Hl) as [Hdom Hsec].
    pose proof (deepcopy_props_content _ _ _ _ Hsec Hcopy) as Hcontent.
    apply deepcopy_props_spec in Hcopy as (He & Hout & Hin & Hnew).
    split; [exact He|]. split; [|split; [|split; [|split]]].
    + intros l0 [= <-]. split; [exact Hin|]. intros k p Hk. now apply (Hnew k p).
    + now repeat split.
    + intros key. unfold raw_private_info. cbn. now rewrite Hl, Hcontent.
    + intros l0 [= <-]. split; [exact Hout|]. now exists l.
    + discriminate.
  - intros [= <- <-]. split; [apply heap_extends_refl|]. split; [exact Ha|].
    split; [now repeat split|]. split; [reflexivity|]. split; [|auto].
    intros l' Hl'. congruence.
Qed.

Lemma update_from_raw_content self raw h self' h' :
  raw_allocated h raw ->
  update_from_raw self raw h = (self', h') ->
  heap_extends h h'
  /\ raw_allocated h' (_raw self')
  /\ _extended_properties self' = r_extendedProperties (_raw self')
  /\ summary self' = r_summary raw
  /\ same_fields (_raw self') raw
  /\ (forall key, get_private_info self' key h' = raw_private_info raw key h)
  /\ _id self' = _id self /\ exceptions self' = exceptions self
  /\ google_calendar self' = google_calendar self.
Proof.
  intros Ha. unfold update_from_raw. destruct (deepcopy_raw raw h) as [raw' h1] eqn:Hcopy.
  intros [= <- <-]. cbn.
  apply deepcopy_raw_content in Hcopy as (He & Ha' & Hsame & Hinfo & _); [|exact Ha].
  split; [exact He|]. split; [exact Ha'|]. split; [reflexivity|].
  split; [apply Hsame|]. split; [exact Hsame|]. split; [|auto].
  intros key. rewrite <- Hinfo. rewrite get_private_info_content. reflexivity.
Qed.

(** Copies of different section dicts are different objects. *)
Lemma foldl_deepcopy_entry_unshared (orig : gmap string loc) entries :
  forall h memo d h1 memo1 d1,
  (forall a b q, memo !! a = Some q -> memo !! b = Some q -> a = b) ->
  (forall a q, memo !! a = Some q -> q ∈ dom (sections h)) ->
  (forall k q, d !! k = Some q -> exists p, orig !! k = Some p /\ memo !! p = Some q) ->
  (forall k p, (k, p) ∈ entries -> orig !! k = Some p) ->
  foldl deepcopy_entry (h, memo, d) entries = (h1, memo1, d1) ->
  forall k q, d1 !! k = Some q ->
    exists p, orig !! k = Some p /\ memo1 !! p = Some q
              /\ forall b, memo1 !! b = Some q -> b = p.
Proof.
  induction entries as [|[k p] entries IH]; intros h memo d h1 memo1 d1 Hinj Himg Hd Hall;
    cbn [foldl].
  - intros [= <- <- <-] k q Hk. destruct (Hd k q Hk) as (p & Hp & Hm).
    exists p. split; [exact Hp|]. split; [exact Hm|]. intros b Hb. now apply (Hinj b p q).
  - assert (Hkp : orig !! k = Some p) by (apply Hall; left).
    unfold deepcopy_entry at 2. destruct (memo !! p) as [p'|] eqn:Hmp.
    + apply IH; try assumption.
      * intros k0 q. destruct (decide (k0 = k)) as [->|Hne].
        -- rewrite lookup_insert_eq. intros [= <-]. now exists p.
        -- rewrite lookup_insert_ne by congruence. apply Hd.
      * intros k0 p0 Hin. apply Hall. now right.
    + destruct (new_section (section_at h p) h) as [q0 h'] eqn:Hnew.
      apply new_section_spec in Hnew as (Hout & Hin & _ & _ & Hext).
      apply IH.
      * intros a b q. destruct (decide (p = a)) as [<-|Ha], (decide (p = b)) as [<-|Hb];
          rewrite ?lookup_insert_eq, ?lookup_insert_ne by assumption; try congruence.
        -- intros [= <-] Hb'. now apply Himg in Hb'.
        -- intros Ha' [= <-]. now apply Himg in Ha'.
        -- apply Hinj.
      * intros a q. destruct (decide (p = a)) as [<-|Ha].
        -- rewrite lookup_insert_eq. now intros [= <-].
        -- rewrite lookup_insert_ne by assumption. intros Hq.
           apply (heap_extends_dom _ _ Hext). now apply (Himg a).
      * intros k0 q. destruct (decide (k0 = k)) as [->|Hne].
        -- rewrite lookup_insert_eq. intros [= <-]. exists p.
           now rewrite lookup_insert_eq.
        -- rewrite lookup_insert_ne by congruence. intros Hq.
           destruct (Hd k0 q Hq) as (p0 & Hp0 & Hm0). exists p0. split; [exact Hp0|].
           rewrite lookup_insert_ne; [exact Hm0|]. congruence.
      * intros k0 p0 Hin0. apply Hall. now right.
Qed.

Lemma deepcopy_props_unshared l h l' h' :
  unshared h l -> deepcopy_props l h = (l', h') -> unshared h' l'.
Proof.
  intros Hun. unfold deepcopy_props.
  destruct (foldl deepcopy_entry (h, ∅, ∅) (map_to_list (props_at h l)))
    as [[h1 memo] d] eqn:Hfold.
  intros Hnew. apply new_props_spec in Hnew as (_ & _ & Hat & _ & _).
  pose proof (foldl_deepcopy_entry_unshared (props_at h l) (map_to_list (props_at h l))
                h ∅ ∅ h1 memo d) as Hcopy.
  intros k1 k2 q. rewrite Hat. intros H1 H2.
  assert (Hspec : forall k q, d !! k = Some q ->
            exists p, props_at h l !! k = Some p /\ memo !! p = Some q
                      /\ forall b, memo !! b = Some q -> b = p).
  { apply Hcopy; try exact Hfold.
    - intros a b q0 Ha. now rewrite lookup_empty in Ha.
    - intros a q0 Ha. now rewrite lookup_empty in Ha.
    - intros k q0 Hk. now rewrite lookup_empty in Hk.
    - intros k p Hin. now apply elem_of_map_to_list in Hin. }
  destruct (Hspec k1 q H1) as (p1 & Hp1 & Hm1 & Huniq).
  destruct (Hspec k2 q H2) as (p2 & Hp2 & Hm2 & _).
  assert (p2 = p1) by now apply Huniq. subst p2. now apply (Hun k1 k2 p1).
Qed.

Lemma section_at_set_section_ne l d h l' :
  l' <> l -> section_at (set_section l d h) l' = section_at h l'.
Proof. intros Hne. unfold section_at, set_section. cbn. now rewrite lookup_insert_ne. Qed.

Lemma section_at_set_props l d h p : section_at (set_props l d h) p = section_at h p.
Proof. reflexivity. Qed.

(** The write [self._extended_properties['private'][key] = value], after
    the section was created if it was missing. *)
Lemma private_write ep h1 key value :
  (forall k p, props_at h1 ep !! k = Some p -> p ∈ dom (sections h1)) ->
  let '(private, h2) :=
    match props_at h1 ep !! "private" with
    | Some p => (p, h1)
    | None =>
        let '(p, h') := new_section ∅ h1 in
        (p, set_props ep (<["private" := p]> (props_at h' ep)) h')
    end in
  let h3 := set_section private (<[key := value]> (section_at h2 private)) h2 in
  let written := <[key := value]> (default ∅ (content h1 ep !! "private")) in
  content h3 ep !! "private" = Some written
  /\ (unshared h1 ep -> content h3 ep = <["private" := written]> (content h1 ep)).
Proof.
  intros Halloc. rewrite content_lookup.
  destruct (props_at h1 ep !! "private") as [p|] eqn:Hp; cbn zeta.
  - cbn [fmap option_fmap option_map default from_option id].
    split.
    + rewrite content_lookup, props_at_set_section, Hp. cbn.
      now rewrite section_at_set_section.
    + intros Hun. apply map_eq. intros k. rewrite content_lookup, props_at_set_section.
      destruct (decide (k = "private")) as [->|Hne].
      * rewrite lookup_insert_eq, Hp. cbn. now rewrite section_at_set_section.
      * rewrite lookup_insert_ne by congruence. rewrite content_lookup.
        destruct (props_at h1 ep !! k) as [q|] eqn:Hq; cbn; [|reflexivity].
        f_equal. apply section_at_set_section_ne. intros ->.
        apply Hne. now apply (Hun k "private" p).
  - destruct (new_section ∅ h1) as [p h'] eqn:Hnew.
    apply new_section_spec in Hnew as (Hout & Hin & Hat & Hprops & Hext).
    assert (Hsame : props_at h' ep = props_at h1 ep).
    { unfold props_at. now rewrite Hprops. }
    cbn [fmap option_fmap option_map default from_option id].
    assert (Hlook : forall k,
      content (set_section p (<[key:=value]> (section_at
                 (set_props ep (<["private":=p]> (props_at h' ep)) h') p))
                 (set_props ep (<["private":=p]> (props_at h' ep)) h')) ep !! k
      = (<["private" := <[key := value]> ∅]> (content h1 ep)) !! k).
    { intros k. rewrite content_lookup, props_at_set_section, props_at_set_props.
      rewrite section_at_set_props, Hat, Hsame.
      destruct (decide (k = "private")) as [->|Hne].
      - rewrite !lookup_insert_eq. cbn. now rewrite section_at_set_section.
      - rewrite !lookup_insert_ne by congruence. rewrite content_lookup.
        destruct (props_at h1 ep !! k) as [q|] eqn:Hq; cbn; [|reflexivity].
        f_equal. rewrite section_at_set_section_ne.
        + rewrite section_at_set_props. apply section_at_extends; [exact Hext|].
          now apply (Halloc k).
        + intros ->. apply Hout. now apply (Halloc k). }
    split.
    + rewrite Hlook. now rewrite lookup_insert_eq.
    + intros _. apply map_eq. exact Hlook.
Qed.

Lemma save_private_info_unfold self key v h :
  v <> VNone ->
  save_private_info self key v h
  = let '(ep, h1) :=
      match _extended_properties self with
      | None => new_props ∅ h
      | Some l => deepcopy_props l h
      end in
    let '(private, h2) :=
      match props_at h1 ep !! "private" with
      | Some p => (p, h1)
      | None =>
          let '(p, h') := new_section ∅ h1 in
          (p, set_props ep (<["private" := p]> (props_at h' ep)) h')
      end in
    (Ok tt, with_extended_properties self (Some ep),
     set_section private (<[key := py_str v]> (section_at h2 private)) h2).
Proof. destruct v; [congruence | reflexivity..]. Qed.

(** What [save_private_info] leaves in the dict the event holds. *)
Lemma save_private_info_effect self key v h outcome self' h' :
  v <> VNone ->
  refs_allocated h self ->
  save_private_info self key v h = (outcome, self', h') ->
  let private := <[key := py_str v]> (default ∅ (held self h !! "private")) in
  exists ep,
    _extended_properties self' = Some ep
    /\ (ep ∉ dom (props h))
    /\ content h' ep !! "private" = Some private
    /\ ((forall l, _extended_properties self = Some l -> unshared h l) ->
        content h' ep = <["private" := private]> (held self h)).
Proof.
  intros Hv Href. rewrite save_private_info_unfold by exact Hv.
  generalize (py_str v); intros value. unfold held.
  assert (Hstart : exists ep h1,
    match _extended_properties self with
    | None => new_props ∅ h
    | Some l => deepcopy_props l h
    end = (ep, h1)
    /\ (ep ∉ dom (props h))
    /\ (forall k p, props_at h1 ep !! k = Some p -> p ∈ dom (sections h1))
    /\ content h1 ep = match _extended_properties self with
                       | None => ∅
                       | Some l => content h l
                       end
    /\ ((forall l, _extended_properties self = Some l -> unshared h l) -> unshared h1 ep)).
  { destruct (_extended_properties self) as [l|] eqn:Hl.
    - destruct (deepcopy_props l h) as [ep h1] eqn:Hcopy.
      destruct (Href l Hl) as [Hdom Hsec].
      pose proof (deepcopy_props_content _ _ _ _ Hsec Hcopy) as Hcontent.
      pose proof (deepcopy_props_spec _ _ _ _ Hcopy) as (He & Hout & Hin & Hnew).
      exists ep, h1. split; [reflexivity|]. split; [exact Hout|].
      split; [intros k p Hk; now apply (Hnew k p)|]. split; [exact Hcontent|].
      intros Hun. apply (deepcopy_props_unshared l h); [now apply Hun | exact Hcopy].
    - destruct (new_props ∅ h) as [ep h1] eqn:Hnew.
      apply new_props_spec in Hnew as (Hout & Hin & Hat & _ & _).
      exists ep, h1. split; [reflexivity|]. split; [exact Hout|].
      split; [intros k p; rewrite Hat, lookup_empty; discriminate|].
      split; [unfold content; rewrite Hat; apply fmap_empty|].
      intros _ k1 k2 p. rewrite Hat, lookup_empty. discriminate. }
  destruct Hstart as (ep & h1 & -> & Hout & Halloc & Hcontent & Hun).
  pose proof (private_write ep h1 key value Halloc) as Hwrite.
  destruct (match props_at h1 ep !! "private" with
            | Some p => (p, h1)
            | None =>
                let '(p, h'0) := new_section ∅ h1 in
                (p, set_props ep (<["private":=p]> (props_at h'0 ep)) h'0)
            end) as [private h2].
  cbn zeta in Hwrite. rewrite Hcontent in Hwrite. destruct Hwrite as [Hpriv Hall].
  intros [= <- <- <-]. exists ep. cbn. split; [reflexivity|]. split; [exact Hout|].
  split; [exact Hpriv|]. intros Hshared. apply Hall. now apply Hun.
Qed.

(** ** Reading raw records *)

Lemma update_from_raw_read_from self raw h self' h' :
  raw_allocated h raw ->
  update_from_raw self raw h = (self', h') ->
  read_from raw h self' h'.
Proof.
  intros Ha Hu. apply update_from_raw_content in Hu; [|exact Ha].
  destruct Hu as (_ & _ & Hep & Hsum & Hsame & Hinfo & _).
  split; [exact Hsame|]. split; [exact Hsum|]. split; [exact Hep|]. exact Hinfo.
Qed.

Lemma read_from_extends raw h0 x h h' :
  refs_allocated h x -> heap_extends h h' -> read_from raw h0 x h -> read_from raw h0 x h'.
Proof.
  intros Hr He (Hsame & Hsum & Hep & Hinfo).
  split; [exact Hsame|]. split; [exact Hsum|]. split; [exact Hep|].
  intros key. rewrite <- Hinfo. now apply get_private_info_extends.
Qed.

Lemma update_exception_master self exception h self' h' :
  update_exception self exception h = (self', h') ->
  heap_extends h h'
  /\ _extended_properties self' = _extended_properties self
  /\ summary self' = summary self /\ _raw self' = _raw self /\ _id self' = _id self
  /\ google_calendar self' = google_calendar self.
Proof.
  unfold update_exception. destruct (negb _).
  - destruct (from_raw _ exception h) as [event h1] eqn:Hf. intros [= <- <-].
    apply from_raw_spec in Hf as [He _]. split; [exact He|]. now repeat split.
  - destruct (refresh_entry _ _ exception h) as [d h1] eqn:Hr. intros [= <- <-].
    apply refresh_entry_extends in Hr. split; [exact Hr|]. now repeat split.
Qed.

Lemma lookup_exception_cons k x d key :
  lookup_exception ((k, x) :: d) key
  = if String.eqb k key then Some x else lookup_exception d key.
Proof. unfold lookup_exception. cbn. now destruct (String.eqb k key). Qed.

Lemma lookup_exception_None d key :
  lookup_exception d key = None <-> ~ In key (map fst d).
Proof.
  induction d as [|[k x] d IH]; [cbn; tauto|].
  rewrite lookup_exception_cons. cbn. destruct (String.eqb_spec k key) as [->|Hne].
  - split; [discriminate | intros H; exfalso; apply H; now left].
  - rewrite IH. tauto.
Qed.

Lemma existsb_key d key :
  existsb (fun kx : string * CalendarEvent => String.eqb (fst kx) key) d = true
  <-> In key (map fst d).
Proof.
  rewrite existsb_exists, in_map_iff. split.
  - intros ([k x] & Hin & Heq). apply String.eqb_eq in Heq. now exists (k, x).
  - intros ([k x] & Heq & Hin). exists (k, x). split; [exact Hin|]. now apply String.eqb_eq.
Qed.

Lemma lookup_exception_app d key e :
  lookup_exception (d ++ [(key, e)]) key
  = match lookup_exception d key with Some x => Some x | None => Some e end.
Proof.
  induction d as [|[k x] d IH]; cbn [app].
  - rewrite lookup_exception_cons, String.eqb_refl. reflexivity.
  - rewrite !lookup_exception_cons. now destruct (String.eqb k key).
Qed.

Lemma lookup_exception_app_ne d key e k :
  k <> key -> lookup_exception (d ++ [(key, e)]) k = lookup_exception d k.
Proof.
  intros Hne. induction d as [|[k0 x] d IH]; cbn [app].
  - rewrite lookup_exception_cons. destruct (String.eqb_spec key k); [congruence|reflexivity].
  - rewrite !lookup_exception_cons. now destruct (String.eqb k0 k).
Qed.

Lemma refresh_entry_lookup d key raw : forall h d' h',
  refresh_entry d key raw h = (d', h') ->
  map fst d' = map fst d
  /\ (forall k, k <> key -> lookup_exception d' k = lookup_exception d k)
  /\ (forall x, lookup_exception d key = Some x ->
        exists x', update_from_raw x raw h = (x', h') /\ lookup_exception d' key = Some x')
  /\ (forall k x', In (k, x') d' ->
        In (k, x') d \/ exists x, In (k, x) d /\ k = key /\ update_from_raw x raw h = (x', h')).
Proof.
  induction d as [|[k x] d IH]; intros h d' h'; cbn [refresh_entry].
  - intros [= <- <-]. repeat split; try tauto. discriminate.
  - destruct (String.eqb_spec k key) as [->|Hne].
    + destruct (update_from_raw x raw h) as [x' h1] eqn:Hu. intros [= <- <-].
      split; [reflexivity|]. split; [|split].
      * intros k Hk. rewrite !lookup_exception_cons.
        destruct (String.eqb_spec key k); [congruence|reflexivity].
      * intros x0. rewrite !lookup_exception_cons, String.eqb_refl. intros [= <-].
        now exists x'.
      * intros k x0 [[= <- <-]|Hin]; [right; exists x; cbn; auto | left; now right].
    + destruct (refresh_entry d key raw h) as [d1 h1] eqn:Hr. intros [= <- <-].
      destruct (IH _ _ _ Hr) as (Hkeys & Hother & Hkey & Hin).
      split; [cbn; now rewrite Hkeys|]. split; [|split].
      * intros k0 Hk0. rewrite !lookup_exception_cons. destruct (String.eqb k k0); auto.
      * intros x0. rewrite !lookup_exception_cons.
        destruct (String.eqb_spec k key); [congruence|]. apply Hkey.
      * intros k0 x0 [[= <- <-]|Hin0]; [left; now left|].
        destruct (Hin _ _ Hin0) as [?|(x1 & ? & ? & ?)]; [left; now right|].
        right. exists x1. cbn. auto.
Qed.

Lemma update_from_raw_unshared self raw h self' h' :
  (forall l, r_extendedProperties raw = Some l -> unshared h l) ->
  update_from_raw self raw h = (self', h') ->
  forall l', _extended_properties self' = Some l' -> unshared h' l'.
Proof.
  intros Hun. unfold update_from_raw, deepcopy_raw.
  destruct (r_extendedProperties raw) as [l|] eqn:Hl.
  - destruct (deepcopy_props l h) as [l1 h1] eqn:Hcopy. intros [= <- <-] l' [= <-].
    apply (deepcopy_props_unshared l h); [now apply Hun | exact Hcopy].
  - intros [= <- <-] l'. cbn. rewrite Hl. discriminate.
Qed.

(** X4: [update_from_raw] makes the event a reading of the raw record: its
    private info, its summary and the fields of its raw record are those of
    the record given, whatever the event held before; its id and its
    exceptions stay, and the record given is left as it was. *)
Theorem update_from_raw_reads_raw (self : CalendarEvent) (raw : RawEvent) (h : heap) :
  raw_allocated h raw ->
  let '(self', h') := update_from_raw self raw h in
  (forall key, get_private_info self' key h' = raw_private_info raw key h)
  /\ summary self' = r_summary raw
  /\ same_fields (_raw self') raw
  /\ (forall key, raw_private_info (_raw self') key h' = raw_private_info raw key h)
  /\ (forall key, raw_private_info raw key h' = raw_private_info raw key h)
  /\ _id self' = _id self
  /\ exceptions self' = exceptions self.
Proof.
  intros Ha. destruct (update_from_raw self raw h) as [self' h'] eqn:Hu.
  pose proof (update_from_raw_content _ _ _ _ _ Ha Hu)
    as (He & Ha' & Hep & Hsum & Hsame & Hinfo & Hid & Hexc & _).
  split; [exact Hinfo|]. split; [exact Hsum|]. split; [exact Hsame|].
  split; [|split; [|now split]].
  - intros key. rewrite <- Hinfo, get_private_info_content, Hep. reflexivity.
  - intros key. now apply raw_private_info_extends.
Qed.

Lemma sample_raw_allocated : raw_allocated sample_heap (_raw linked_event).
Proof.
  intros l [= <-]. split.
  - apply elem_of_dom. now eexists.
  - intros k p Hk. unfold props_at, sample_heap in Hk. cbn in Hk.
    rewrite lookup_singleton_eq in Hk. cbn in Hk.
    apply lookup_singleton_Some in Hk as [_ <-]. apply elem_of_dom. now eexists.
Qed.

Lemma sample_unshared l :
  r_extendedProperties (_raw linked_event) = Some l -> unshared sample_heap l.
Proof.
  intros [= <-] k1 k2 p. unfold props_at, sample_heap. cbn.
  rewrite lookup_singleton_eq. cbn. intros H1 H2.
  apply lookup_singleton_Some in H1 as [<- _]. now apply lookup_singleton_Some in H2 as [<- _].
Qed.

Lemma update_from_raw_reads_raw_witness :
  let '(self', h') := update_from_raw moved_day (_raw linked_event) sample_heap in
  (forall key, get_private_info self' key h'
               = raw_private_info (_raw linked_event) key sample_heap)
  /\ summary self' = r_summary (_raw linked_event)
  /\ same_fields (_raw self') (_raw linked_event)
  /\ (forall key, raw_private_info (_raw self') key h'
                  = raw_private_info (_raw linked_event) key sample_heap)
  /\ (forall key, raw_private_info (_raw linked_event) key h'
                  = raw_private_info (_raw linked_event) key sample_heap)
  /\ _id self' = _id moved_day
  /\ exceptions self' = exceptions moved_day.
Proof.
  exact (update_from_raw_reads_raw moved_day (_raw linked_event) sample_heap
           sample_raw_allocated).
Defined.

(** X5: [save_private_info] changes one key of the private info: the key
    given reads back as the text of the value, every other key reads as
    before; the raw record of the event still reads as before (the write
    goes to a copy), and so does the event as it was before the call. *)
Theorem save_private_info_lookup (self : CalendarEvent) (key : string) (v : pyval)
    (h : heap) :
  v <> VNone ->
  refs_allocated h self ->
  raw_allocated h (_raw self) ->
  let '(_, self', h') := save_private_info self key v h in
  (forall k, get_private_info self' k h'
             = if decide (k = key) then Some (py_str v) else get_private_info self k h)
  /\ (forall k, raw_private_info (_raw self') k h' = raw_private_info (_raw self) k h)
  /\ (forall k, get_private_info self k h' = get_private_info self k h).
Proof.
  intros Hv Href Hraw.
  destruct (save_private_info self key v h) as [[outcome self'] h'] eqn:Hsave.
  pose proof (save_private_info_effect _ _ _ _ _ _ _ Hv Href Hsave) as (ep & Hep & _ & Hpriv & _).
  pose proof (save_private_info_spec _ _ _ _ _ _ _ Hsave) as [He _].
  assert (Hrawsame : _raw self' = _raw self).
  { rewrite save_private_info_unfold in Hsave by exact Hv.
    destruct (match _extended_properties self with
              | None => new_props ∅ h
              | Some l => deepcopy_props l h
              end) as [ep0 h1].
    destruct (match props_at h1 ep0 !! "private" with
              | Some p => (p, h1)
              | None => let '(p, h'0) := new_section ∅ h1 in
                        (p, set_props ep0 (<["private":=p]> (props_at h'0 ep0)) h'0)
              end) as [p h2].
    now injection Hsave as _ <- _. }
  split; [|split].
  - intros k. rewrite get_private_info_content, Hep, Hpriv. cbn.
    destruct (decide (k = key)) as [->|Hne].
    + now rewrite lookup_insert_eq.
    + rewrite lookup_insert_ne by congruence. rewrite get_private_info_content.
      unfold held. destruct (_extended_properties self) as [l|].
      * now destruct (content h l !! "private").
      * now rewrite !lookup_empty.
  - intros k. rewrite Hrawsame. now apply raw_private_info_extends.
  - intros k. now apply get_private_info_extends.
Qed.

Lemma save_private_info_lookup_witness :
  let '(_, self', h') := save_private_info linked_event "seen" (VBool true) sample_heap in
  (forall k, get_private_info self' k h'
             = if decide (k = "seen") then Some (py_str (VBool true))
               else get_private_info linked_event k sample_heap)
  /\ (forall k, raw_private_info (_raw self') k h'
                = raw_private_info (_raw linked_event) k sample_heap)
  /\ (forall k, get_private_info linked_event k h'
                = get_private_info linked_event k sample_heap).
Proof.
  refine (save_private_info_lookup linked_event "seen" (VBool true) sample_heap _
            sample_refs_allocated sample_raw_allocated).
  discriminate.
Defined.

Lemma insert_same_iff (m : gmap string (gmap string string)) (i : string)
    (x : gmap string string) :
  <[i := x]> m = m <-> m !! i = Some x.
Proof.
  split; [|apply insert_id].
  intros H. rewrite <- H. apply lookup_insert_eq.
Qed.

Lemma insert_same_iff' (m : gmap string string) (i x : string) :
  <[i := x]> m = m <-> m !! i = Some x.
Proof.
  split; [|apply insert_id].
  intros H. rewrite <- H. apply lookup_insert_eq.
Qed.

(** Writing [value] under ['private'][key] leaves the dict equal to what it
    was exactly when it already held [value] there. *)
Lemma private_written_same (c : gmap string (gmap string string)) key value :
  <["private" := <[key := value]> (default ∅ (c !! "private"))]> c = c
  <-> c !! "private" ≫= (.!! key) = Some value.
Proof.
  rewrite insert_same_iff. destruct (c !! "private") as [m|] eqn:Hm; cbn.
  - rewrite <- insert_same_iff'. split; [intros [= H]; now symmetry | intros H; now rewrite H].
  - split; discriminate.
Qed.

(** X6: after an event was read from a raw record, [save] sends nothing.
    After [save_private_info] on it, [save] sends the event's
    [extendedProperties], and no summary, under the event's id, unless the
    raw record already held the text of the value under that key, in which
    case it sends nothing. *)
Theorem save_sends_changed_private_info (self : CalendarEvent) (raw : RawEvent)
    (h : heap) (key : string) (v : pyval) :
  v <> VNone ->
  raw_allocated h raw ->
  (forall l, r_extendedProperties raw = Some l -> unshared h l) ->
  let '(loaded, h1) := update_from_raw self raw h in
  let '(_, changed, h2) := save_private_info loaded key v h1 in
  save loaded h1 = None
  /\ match save changed h2 with
     | None => raw_private_info raw key h = Some (py_str v)
     | Some (id, fields) =>
         raw_private_info raw key h <> Some (py_str v)
         /\ id = _id self
         /\ u_summary fields = None
         /\ u_extendedProperties fields = Some (_extended_properties changed)
     end.
Proof.
  intros Hv Ha Hun.
  destruct (update_from_raw self raw h) as [loaded h1] eqn:Hu.
  destruct (save_private_info loaded key v h1) as [[outcome changed] h2] eqn:Hsave.
  pose proof (update_from_raw_content _ _ _ _ _ Ha Hu)
    as (He & Ha' & Hep & Hsum & Hsame & Hinfo & Hid & _).
  pose proof (update_from_raw_spec _ _ _ _ _ Hu) as (_ & Href & _).
  pose proof (update_from_raw_unshared _ _ _ _ _ Hun Hu) as Hun1.
  assert (Hsum1 : summary loaded = r_summary (_raw loaded)).
  { rewrite Hsum. symmetry. apply Hsame. }
  split.
  - unfold save. rewrite Hep, bool_decide_eq_true_2 by exact Hsum1. cbn.
    destruct (r_extendedProperties (_raw loaded)); cbn; [|reflexivity].
    now rewrite bool_decide_eq_true_2.
  - pose proof (save_private_info_effect _ _ _ _ _ _ _ Hv Href Hsave)
      as (ep & Hep2 & Hout & _ & Hall).
    specialize (Hall Hun1).
    pose proof (save_private_info_spec _ _ _ _ _ _ _ Hsave) as [He2 _].
    assert (Hkept : _raw changed = _raw loaded /\ summary changed = summary loaded
                    /\ _id changed = _id loaded).
    { rewrite save_private_info_unfold in Hsave by exact Hv.
      destruct (match _extended_properties loaded with
                | None => new_props ∅ h1
                | Some l => deepcopy_props l h1
                end) as [ep0 h0].
      destruct (match props_at h0 ep0 !! "private" with
                | Some p => (p, h0)
                | None => let '(p, h'0) := new_section ∅ h0 in
                          (p, set_props ep0 (<["private":=p]> (props_at h'0 ep0)) h'0)
                end) as [p h3].
      now injection Hsave as _ <- _. }
    destruct Hkept as (Hraw2 & Hsum2 & Hid2).
    assert (Hread : raw_private_info raw key h = held loaded h1 !! "private" ≫= (.!! key)).
    { rewrite <- Hinfo, get_private_info_content. unfold held.
      destruct (_extended_properties loaded); [reflexivity|]. now rewrite lookup_empty. }
    unfold save. rewrite Hraw2, Hsum2, Hid2, Hid, Hep2.
    rewrite bool_decide_eq_true_2 by exact Hsum1. cbn [negb].
    unfold held in Hall, Hread. rewrite Hep in Hall, Hread.
    destruct (r_extendedProperties (_raw loaded)) as [l1|] eqn:Hl1; cbn [py_eq_props].
    + destruct (Ha' l1 Hl1) as [Hdom Hsec].
      rewrite (content_extends h1 h2 l1) by assumption. rewrite Hall.
      destruct (bool_decide_reflect
                  (<["private":=<[key:=py_str v]> (default ∅ (content h1 l1 !! "private"))]>
                     (content h1 l1) = content h1 l1)) as [Heq|Hneq]; cbn [negb].
      * rewrite Hread. now apply private_written_same.
      * split; [|now repeat split]. rewrite Hread. intros Heq. apply Hneq.
        now apply private_written_same.
    + cbn [negb]. split; [|now repeat split]. rewrite Hread, lookup_empty. discriminate.
Qed.

Lemma save_sends_changed_private_info_witness :
  let '(loaded, h1) := update_from_raw moved_day (_raw linked_event) sample_heap in
  let '(_, changed, h2) := save_private_info loaded "task" (VInt 18) h1 in
  save loaded h1 = None
  /\ match save changed h2 with
     | None => raw_private_info (_raw linked_event) "task" sample_heap
               = Some (py_str (VInt 18))
     | Some (id, fields) =>
         raw_private_info (_raw linked_event) "task" sample_heap <> Some (py_str (VInt 18))
         /\ id = _id moved_day
         /\ u_summary fields = None
         /\ u_extendedProperties fields = Some (_extended_properties changed)
     end.
Proof.
  refine (save_sends_changed_private_info moved_day (_raw linked_event) sample_heap
            "task" (VInt 18) _ sample_raw_allocated sample_unshared).
  discriminate.
Defined.

(** Saving the task id the record holds sends nothing; saving another one
    sends the changed properties. *)
Example save_after_save_private_info :
  (let '(loaded, h1) := update_from_raw moved_day (_raw linked_event) sample_heap in
   let '(_, changed, h2) := save_private_info loaded "task" (VInt 17) h1 in
   save changed h2 = None)
  /\ (let '(loaded, h1) := update_from_raw moved_day (_raw linked_event) sample_heap in
      let '(_, changed, h2) := save_private_info loaded "task" (VInt 18) h1 in
      exists fields, save changed h2 = Some ("moved", fields)
                     /\ u_summary fields = None
                     /\ u_extendedProperties fields = Some (_extended_properties changed)).
Proof. split; [vm_compute; reflexivity|]. vm_compute. eexists. repeat split. Qed.

(** ** The exceptions of a series *)

Lemma from_raw_read_from gc raw h event h' :
  raw_allocated h raw ->
  from_raw gc raw h = (event, h') ->
  read_from raw h event h' /\ _id event = r_id raw /\ exceptions event = []
  /\ google_calendar event = gc.
Proof.
  intros Ha Hf. unfold from_raw in Hf.
  pose proof (update_from_raw_read_from _ _ _ _ _ Ha Hf) as Hread.
  apply update_from_raw_content in Hf as (_ & _ & _ & _ & _ & _ & Hid & Hexc & Hgc);
    [|exact Ha].
  split; [exact Hread|]. split; [exact Hid|]. split; [exact Hexc|]. exact Hgc.
Qed.

Lemma keyed_app d key e :
  keyed d -> ~ In key (map fst d) -> r_id (_raw e) = key -> _id e = key ->
  keyed (d ++ [(key, e)]).
Proof.
  intros [Hnd Hk] Hnew Hr Hi. split.
  - rewrite map_app. cbn. apply NoDup_app. split; [exact Hnd|].
    split; [|apply NoDup_singleton].
    intros k Hin Hin'. apply list_elem_of_singleton in Hin'. subst k.
    apply Hnew. now apply list_elem_of_In.
  - intros k x Hin. apply in_app_or in Hin as [Hin|[[= <- <-]|[]]]; [now apply Hk | now split].
Qed.

(** X7: [update_exception] files the raw record of an exception under its
    id: afterwards the entry under that id is a reading of the record (a new
    event, added after the entries there are, when the id was not there; the
    event that was there, with its id and its own exceptions, when it was);
    the entries under other ids, and their order, are as before. *)
Theorem update_exception_lookup (self : CalendarEvent) (exception : RawEvent) (h : heap) :
  raw_allocated h exception ->
  let '(self', h') := update_exception self exception h in
  let key := r_id exception in
  (exists x, lookup_exception (exceptions self') key = Some x
             /\ read_from exception h x h'
             /\ match lookup_exception (exceptions self) key with
                | Some old => _id x = _id old /\ exceptions x = exceptions old
                | None => _id x = key /\ exceptions x = []
                end)
  /\ (forall k, k <> key ->
        lookup_exception (exceptions self') k = lookup_exception (exceptions self) k)
  /\ map fst (exceptions self')
     = match lookup_exception (exceptions self) key with
       | Some _ => map fst (exceptions self)
       | None => (map fst (exceptions self) ++ [key])%list
       end
  /\ (keyed (exceptions self) -> keyed (exceptions self')).
Proof.
  intros Ha. destruct (update_exception self exception h) as [self' h'] eqn:Hu.
  cbn zeta. unfold update_exception in Hu.
  destruct (existsb (fun kx => String.eqb (fst kx) (r_id exception)) (exceptions self))
    eqn:Hex; cbn [negb] in Hu.
  - apply existsb_key in Hex.
    destruct (lookup_exception (exceptions self) (r_id exception)) as [old|] eqn:Hold;
      [|now apply lookup_exception_None in Hold].
    destruct (refresh_entry (exceptions self) (r_id exception) exception h) as [d h1] eqn:Hr.
    injection Hu as <- <-. cbn [exceptions with_exceptions].
    apply refresh_entry_lookup in Hr as (Hkeys & Hother & Hkey & Hin).
    destruct (Hkey old Hold) as (x' & Hux & Hx'). split; [|split; [|split]].
    + exists x'. split; [exact Hx'|]. split; [now apply (update_from_raw_read_from old)|].
      apply update_from_raw_content in Hux as (_ & _ & _ & _ & _ & _ & Hid & Hexc & _);
        [now split | exact Ha].
    + exact Hother.
    + exact Hkeys.
    + intros [Hnd Hk]. split; [now rewrite Hkeys|].
      intros k x Hkx. destruct (Hin k x Hkx) as [Hin0|(x0 & Hin0 & -> & Hux0)];
        [now apply Hk|].
      apply update_from_raw_content in Hux0 as (_ & _ & _ & _ & Hsame & _ & Hid & _);
        [|exact Ha].
      split; [apply Hsame|]. rewrite Hid. now apply (Hk _ _ Hin0).
  - assert (Hnew : ~ In (r_id exception) (map fst (exceptions self))).
    { intros Hin. apply existsb_key in Hin. congruence. }
    pose proof (proj2 (lookup_exception_None _ _) Hnew) as Hold. rewrite Hold.
    destruct (from_raw (google_calendar self) exception h) as [event h1] eqn:Hf.
    injection Hu as <- <-. cbn [exceptions with_exceptions].
    apply from_raw_read_from in Hf as (Hread & Hid & Hexc & _); [|exact Ha].
    split; [|split; [|split]].
    + exists event. rewrite lookup_exception_app, Hold.
      split; [reflexivity|]. split; [exact Hread|]. now split.
    + intros k Hk. now apply lookup_exception_app_ne.
    + now rewrite map_app.
    + intros Hkeyed. apply keyed_app; try assumption. apply Hread.
Qed.

Lemma update_exception_lookup_witness :
  let '(self', h') :=
    update_exception (timed_series [accepted_by_me] [("moved", moved_meeting)])
      (_raw linked_event) sample_heap in
  let self := timed_series [accepted_by_me] [("moved", moved_meeting)] in
  let key := r_id (_raw linked_event) in
  (exists x, lookup_exception (exceptions self') key = Some x
             /\ read_from (_raw linked_event) sample_heap x h'
             /\ match lookup_exception (exceptions self) key with
                | Some old => _id x = _id old /\ exceptions x = exceptions old
                | None => _id x = key /\ exceptions x = []
                end)
  /\ (forall k, k <> key ->
        lookup_exception (exceptions self') k = lookup_exception (exceptions self) k)
  /\ map fst (exceptions self')
     = match lookup_exception (exceptions self) key with
       | Some _ => map fst (exceptions self)
       | None => (map fst (exceptions self) ++ [key])%list
       end
  /\ (keyed (exceptions self) -> keyed (exceptions self')).
Proof.
  exact (update_exception_lookup (timed_series [accepted_by_me] [("moved", moved_meeting)])
           (_raw linked_event) sample_heap sample_raw_allocated).
Defined.

(** The loop of [deep_copy]: the entries [done] are copied to the event
    under construction, the entries [todo] are still to come. *)
Lemma deep_copy_loop h0 todo : forall done event h,
  heap_extends h0 h ->
  Forall2 (fun kx kx' => copied_entry h0 h kx kx' /\ refs_allocated h (snd kx'))
    done (exceptions event) ->
  NoDup (map fst (done ++ todo)) ->
  (forall k x, In (k, x) todo -> r_id (_raw x) = k /\ raw_allocated h0 (_raw x)) ->
  forall copy h',
  foldl (fun acc event_instance =>
           update_exception (fst acc) (_raw event_instance) (snd acc))
    (event, h) (values todo) = (copy, h') ->
  heap_extends h h'
  /\ _extended_properties copy = _extended_properties event
  /\ summary copy = summary event /\ _raw copy = _raw event /\ _id copy = _id event
  /\ google_calendar copy = google_calendar event
  /\ Forall2 (copied_entry h0 h') (done ++ todo) (exceptions copy).
Proof.
  induction todo as [|[k x] todo IH]; intros done event h He Hdone Hnd Htodo copy h';
    cbn [values map foldl fst snd].
  - intros [= <- <-]. split; [apply heap_extends_refl|]. repeat (split; [reflexivity|]).
    rewrite app_nil_r. eapply Forall2_impl; [exact Hdone|]. now intros ? ? [? _].
  - destruct (update_exception event (_raw x) h) as [event1 h1] eqn:Hu.
    destruct (Htodo k x) as [Hk Hraw]; [now left|].
    assert (Hkeys : map fst (exceptions event) = map fst done).
    { clear -Hdone. induction Hdone as [|a b l l' [(Hfst & _) _] _ IH]; [reflexivity|].
      cbn. now rewrite Hfst, IH. }
    assert (Hnew : ~ In k (map fst (exceptions event))).
    { rewrite Hkeys. rewrite map_app in Hnd. cbn in Hnd.
      apply NoDup_app in Hnd as (_ & Hdis & _). intros Hin.
      apply (Hdis k); [now apply list_elem_of_In | left]. }
    pose proof (update_exception_master _ _ _ _ _ Hu) as (He1 & Hep & Hsum & Hr & Hid & Hgc).
    unfold update_exception in Hu. rewrite Hk in Hu.
    destruct (existsb (fun kx => String.eqb (fst kx) k) (exceptions event)) eqn:Hex;
      [apply existsb_key in Hex; contradiction|].
    cbn [negb] in Hu.
    destruct (from_raw (google_calendar event) (_raw x) h) as [e h2] eqn:Hf.
    injection Hu as <- <-.
    pose proof (from_raw_spec _ _ _ _ _ Hf) as [_ Href].
    apply from_raw_read_from in Hf as (Hread & Hide & Hexc & _);
      [|now apply (raw_allocated_extends h0 h)].
    intros Hfold.
    apply (IH (done ++ [(k, x)])%list) in Hfold.
    + destruct Hfold as (He2 & Hep2 & Hsum2 & Hr2 & Hid2 & Hgc2 & Hall).
      split; [now apply (heap_extends_trans h h2)|].
      rewrite <- app_assoc in Hall. cbn [app] in Hall.
      repeat (split; [assumption|]). exact Hall.
    + now apply (heap_extends_trans h0 h).
    + cbn [exceptions with_exceptions]. apply Forall2_app.
      * eapply Forall2_impl; [exact Hdone|]. cbn beta.
        intros kx kx' [(Hfst & Hid0 & Hexc0 & Hread0) Href0]. split.
        -- split; [exact Hfst|]. split; [exact Hid0|]. split; [exact Hexc0|].
           now apply (read_from_extends _ h0 _ h h2).
        -- now apply (refs_allocated_extends h h2).
      * constructor; [|constructor]. unfold copied_entry. cbn [fst snd].
        split; [|exact Href].
        split; [reflexivity|]. split; [congruence|]. split; [exact Hexc|].
        destruct Hread as (Hsame & Hs & Hp & Hinfo).
        split; [exact Hsame|]. split; [exact Hs|]. split; [exact Hp|].
        intros key. rewrite Hinfo. now apply raw_private_info_extends.
    + now rewrite <- app_assoc.
    + intros k0 x0 Hin. apply Htodo. now right.
Qed.

(** X8: [deep_copy] makes a reading of the raw records: the copy is read
    from the raw record of the series (summary, private info and fields are
    those of the record, so what was changed on the event and not yet sent
    is not copied), under the record's id, and its exceptions are, id by id
    and in the same order, readings of the raw records of the exceptions,
    without exceptions of their own. *)
Theorem deep_copy_reads_raw (self : CalendarEvent) (h : heap) :
  raw_allocated h (_raw self) ->
  (forall x, In x (values (exceptions self)) -> raw_allocated h (_raw x)) ->
  keyed (exceptions self) ->
  let '(copy, h') := deep_copy self h in
  read_from (_raw self) h copy h'
  /\ _id copy = r_id (_raw self)
  /\ google_calendar copy = google_calendar self
  /\ Forall2 (copied_entry h h') (exceptions self) (exceptions copy).
Proof.
  intros Ha Hexc [Hnd Hkeyed].
  destruct (deep_copy self h) as [copy h'] eqn:Hcopy. unfold deep_copy in Hcopy.
  destruct (from_raw (google_calendar self) (_raw self) h) as [event h0] eqn:Hf.
  pose proof (from_raw_spec _ _ _ _ _ Hf) as [He Href].
  apply from_raw_read_from in Hf as (Hread & Hid & Hnone & Hgc); [|exact Ha].
  apply (deep_copy_loop h (exceptions self) [] event h0) in Hcopy.
  - destruct Hcopy as (He' & Hep & Hsum & Hraw & Hid' & Hgc' & Hall).
    split; [|split; [congruence|split; [congruence|exact Hall]]].
    apply (read_from_extends _ h event h0 h') in Hread; [|assumption..].
    destruct Hread as (Hsame & Hs & Hp & Hinfo).
    split; [now rewrite Hraw|]. split; [congruence|]. split; [congruence|].
    intros key. rewrite <- Hinfo. unfold get_private_info. now rewrite Hep.
  - exact He.
  - rewrite Hnone. constructor.
  - exact Hnd.
  - intros k x Hin. split; [now apply (Hkeyed k x)|].
    apply Hexc. unfold values. apply in_map_iff. now exists (k, x).
Qed.

Lemma linked_series_keyed : keyed (exceptions linked_series).
Proof.
  split.
  - cbn. apply NoDup_singleton.
  - intros k x [[= <- <-]|[]]. now split.
Qed.

Lemma linked_series_allocated x :
  In x (values (exceptions linked_series)) -> raw_allocated sample_heap (_raw x).
Proof. intros [<-|[]] l. discriminate. Qed.

Lemma deep_copy_reads_raw_witness :
  let '(copy, h') := deep_copy linked_series sample_heap in
  read_from (_raw linked_series) sample_heap copy h'
  /\ _id copy = r_id (_raw linked_series)
  /\ google_calendar copy = google_calendar linked_series
  /\ Forall2 (copied_entry sample_heap h') (exceptions linked_series) (exceptions copy).
Proof.
  exact (deep_copy_reads_raw linked_series sample_heap sample_raw_allocated
           linked_series_allocated linked_series_keyed).
Defined.

(** What was saved on an event and not sent is not in its copy. *)
Example deep_copy_drops_unsent :
  let '(_, changed, h1) := save_private_info linked_series "task" (VInt 99) sample_heap in
  let '(copy, h2) := deep_copy changed h1 in
  get_private_info changed "task" h2 = Some "99"
  /\ get_private_info copy "task" h2 = Some "17".
Proof. vm_compute. split; reflexivity. Qed.

(** ** What the search returns *)

Lemma walk_xafter_inv (gen : rrule) dt self first originals : forall fuel i r,
  walk_xafter fuel gen i dt self first originals = Ok r ->
  exists n, (n < fuel)%nat
    /\ (forall j, (j < n)%nat ->
          exists dj, gen (i + j)%nat = Some dj /\ passed_over dt first originals dj)
    /\ ((gen (i + n)%nat = None /\ r = first)
        \/ exists d, gen (i + n)%nat = Some d /\ py_gt d dt = Ok true
             /\ ((exists st, fst first = Some st /\ py_le st d = Ok true /\ r = first)
                 \/ (exception_later first d /\ py_in d originals = false
                     /\ r = (Some d, Some self)))).
Proof.
  induction fuel as [|fuel IH]; intros i r; cbn [walk_xafter]; [discriminate|].
  destruct (gen i) as [d|] eqn:Hd.
  - destruct (py_gt d dt) as [yielded| |] eqn:Hy; cbn [res_bind]; try discriminate.
    assert (Hnext : forall r,
      passed_over dt first originals d ->
      walk_xafter fuel gen (S i) dt self first originals = Ok r ->
      exists n, (n < S fuel)%nat
        /\ (forall j, (j < n)%nat ->
              exists dj, gen (i + j)%nat = Some dj /\ passed_over dt first originals dj)
        /\ ((gen (i + n)%nat = None /\ r = first)
            \/ exists d, gen (i + n)%nat = Some d /\ py_gt d dt = Ok true
                 /\ ((exists st, fst first = Some st /\ py_le st d = Ok true /\ r = first)
                     \/ (exception_later first d /\ py_in d originals = false
                         /\ r = (Some d, Some self))))).
    { intros r0 Hpass Hw. apply IH in Hw as (n & Hn & Hskip & Hstop).
      exists (S n). split; [lia|]. split.
      - intros [|j] Hj.
        + exists d. rewrite Nat.add_0_r. now split.
        + destruct (Hskip j) as (dj & Hdj & Hp); [lia|]. exists dj.
          replace (i + S j)%nat with (S i + j)%nat by lia. now split.
      - replace (i + S n)%nat with (S i + n)%nat by lia. exact Hstop. }
    destruct yielded.
    + destruct (fst first) as [st|] eqn:Hst.
      * destruct (py_le st d) as [b| |] eqn:Hle; cbn [res_bind]; try discriminate.
        destruct b.
        -- intros [= <-]. exists 0%nat. split; [lia|]. split; [intros j Hj; lia|].
           right. exists d. rewrite Nat.add_0_r. split; [exact Hd|]. split; [exact Hy|].
           left. now exists st.
        -- destruct (py_in d originals) eqn:Hin; cbn [negb].
           ++ apply Hnext. right. split; [exact Hy|]. split; [|exact Hin].
              unfold exception_later. now rewrite Hst.
           ++ intros [= <-]. exists 0%nat. split; [lia|]. split; [intros j Hj; lia|].
              right. exists d. rewrite Nat.add_0_r. split; [exact Hd|]. split; [exact Hy|].
              right. split; [|now split]. unfold exception_later. now rewrite Hst.
      * cbn [res_bind]. destruct (py_in d originals) eqn:Hin; cbn [negb].
        -- apply Hnext. right. split; [exact Hy|]. split; [|exact Hin].
           unfold exception_later. now rewrite Hst.
        -- intros [= <-]. exists 0%nat. split; [lia|]. split; [intros j Hj; lia|].
           right. exists d. rewrite Nat.add_0_r. split; [exact Hd|]. split; [exact Hy|].
           right. split; [|now split]. unfold exception_later. now rewrite Hst.
    + apply Hnext. now left.
  - intros [= <-]. exists 0%nat. split; [lia|]. split; [intros j Hj; lia|].
    left. rewrite Nat.add_0_r. now split.
Qed.

(** The ways in which [_find_next_occurrence] returns. *)
Lemma find_next_occurrence_inv (fuel : nat) (self : CalendarEvent) (gen : rrule)
    (after_dt : pytime) (r : occurrence) :
  _find_next_occurrence fuel self gen after_dt = Ok r ->
  let declined := is_declined_by_me self || is_declined_by_others self in
  let dt := ensure_datetime after_dt in
  exists originals,
    exception_original_starts self = Ok originals
    /\ match r with
       | (Some d, Some x) =>
           exception_candidate self after_dt (Some d, Some x)
           \/ (x = self /\ declined = false
               /\ exists n, (n < fuel)%nat /\ gen n = Some d
                    /\ py_gt d dt = Ok true /\ py_in d originals = false
                    /\ (forall j, (j < n)%nat ->
                          exists dj, gen j = Some dj
                            /\ (py_gt dj dt = Ok false \/ py_in dj originals = true))
                    /\ exists c, exception_candidate self after_dt c
                                 /\ exception_later c d)
       | (None, None) =>
           exception_candidate self after_dt (None, None)
           /\ (declined = true
               \/ exists n, (n < fuel)%nat /\ gen n = None
                    /\ forall j, (j < n)%nat ->
                         exists dj, gen j = Some dj
                           /\ (py_gt dj dt = Ok false \/ py_in dj originals = true))
       | _ => False
       end.
Proof.
  unfold _find_next_occurrence.
  destruct (first_exception_start self after_dt) as [c| |] eqn:Hc; cbn [res_bind];
    try discriminate.
  destruct (exception_original_starts self) as [originals| |] eqn:Ho; cbn [res_bind];
    try discriminate.
  pose proof (first_exception_start_spec _ _ _ Hc) as Hcand.
  intros Hr. cbn zeta. exists originals. split; [reflexivity|].
  assert (Hweak : forall n,
    (forall j, (j < n)%nat ->
       exists dj, gen (0 + j)%nat = Some dj
                  /\ passed_over (ensure_datetime after_dt) c originals dj) ->
    forall j, (j < n)%nat ->
      exists dj, gen j = Some dj
        /\ (py_gt dj (ensure_datetime after_dt) = Ok false \/ py_in dj originals = true)).
  { intros n Hskip j Hj. destruct (Hskip j Hj) as (dj & Hdj & [Hp|(_ & _ & Hp)]);
      exists dj; auto. }
  destruct (is_declined_by_me self || is_declined_by_others self) eqn:Hdecl.
  - injection Hr as <-. destruct c as [[d|] [x|]]; cbn in Hcand |- *; try contradiction.
    + now left.
    + split; [exact Hcand | now left].
  - apply walk_xafter_inv in Hr as (n & Hn & Hskip & [[Hend ->]|(d & Hd & Hgt & Hstop)]).
    + destruct c as [[d|] [x|]]; cbn in Hcand |- *; try contradiction.
      * now left.
      * split; [exact Hcand|]. right. exists n. split; [exact Hn|]. split; [exact Hend|].
        now apply Hweak.
    + destruct Hstop as [(st & Hst & Hle & ->)|(Hlater & Hin & ->)].
      * destruct c as [[d0|] [x|]]; cbn in Hcand, Hst |- *; try contradiction;
          try discriminate.
        now left.
      * right. split; [reflexivity|]. split; [reflexivity|]. exists n.
        split; [exact Hn|]. split; [exact Hd|]. split; [exact Hgt|]. split; [exact Hin|].
        split; [now apply Hweak|]. now exists c.
Qed.

(** X9: what [_find_next_occurrence] can return, on any series and for any
    amount of fuel.  A returned pair is [(None, None)] or an instant with an
    event.  The event is then an exception that is not cancelled and not
    declined, with its own start, the earliest such start after [after_dt];
    or it is the series itself, which is then not declined, with an instant
    of the rule that is after [after_dt], is not the original start of an
    exception, and comes before the start of the exception candidate, every
    earlier instant of the rule being not after [after_dt] or the original
    start of an exception.  [(None, None)] is returned only when no
    exception qualifies after [after_dt] and the series is declined or its
    rule ends with no instant left. *)
Theorem find_next_occurrence_returns (fuel : nat) (self : CalendarEvent) (gen : rrule)
    (after_dt : pytime) (r : occurrence) :
  _find_next_occurrence fuel self gen after_dt = Ok r ->
  let declined := is_declined_by_me self || is_declined_by_others self in
  let dt := ensure_datetime after_dt in
  exists originals,
    exception_original_starts self = Ok originals
    /\ match r with
       | (Some d, Some x) =>
           exception_candidate self after_dt (Some d, Some x)
           \/ (x = self /\ declined = false
               /\ exists n, (n < fuel)%nat /\ gen n = Some d
                    /\ py_gt d dt = Ok true /\ py_in d originals = false
                    /\ (forall j, (j < n)%nat ->
                          exists dj, gen j = Some dj
                            /\ (py_gt dj dt = Ok false \/ py_in dj originals = true))
                    /\ exists c, exception_candidate self after_dt c
                                 /\ exception_later c d)
       | (None, None) =>
           exception_candidate self after_dt (None, None)
           /\ (declined = true
               \/ exists n, (n < fuel)%nat /\ gen n = None
                    /\ forall j, (j < n)%nat ->
                         exists dj, gen j = Some dj
                           /\ (py_gt dj dt = Ok false \/ py_in dj originals = true))
       | _ => False
       end.
Proof. apply find_next_occurrence_inv. Qed.

Lemma find_next_occurrence_returns_witness :
  let self := timed_series [accepted_by_me] [("moved", moved_meeting)] in
  let gen := daily None (jan_at 1 9) in
  let after_dt := jan_at 2 12 in
  let d := jan_at 4 9 in
  exists originals,
    exception_original_starts self = Ok originals
    /\ (exception_candidate self after_dt (Some d, Some self)
        \/ (self = self /\ is_declined_by_me self || is_declined_by_others self = false
            /\ exists n, (n < 10)%nat /\ gen n = Some d
                 /\ py_gt d (ensure_datetime after_dt) = Ok true
                 /\ py_in d originals = false
                 /\ (forall j, (j < n)%nat ->
                       exists dj, gen j = Some dj
                         /\ (py_gt dj (ensure_datetime after_dt) = Ok false
                             \/ py_in dj originals = true))
                 /\ exists c, exception_candidate self after_dt c /\ exception_later c d)).
Proof.
  exact (find_next_occurrence_returns 10
           (timed_series [accepted_by_me] [("moved", moved_meeting)])
           (daily None (jan_at 1 9)) (jan_at 2 12)
           (Some (jan_at 4 9),
            Some (timed_series [accepted_by_me] [("moved", moved_meeting)]))
           eq_refl).
Defined.

(** X10: on an all-day series with an exception that qualifies and starts
    after [after], [next_occurrence] never returns, whatever the rule and
    the amount of fuel: it raises, or the fuel runs out before it does.  The
    search can only hand back the exception candidate, a date, on which
    [.date()] is then called, or compare that date with an instant of the
    rule; both raise. *)
Theorem allday_candidate_never_returned (E : Externals) (self : CalendarEvent)
    (after s st : pytime) (x : CalendarEvent) (gen : rrule) (fuel : nat) :
  datetime_as_normalizes E ->
  start self = Ok s ->
  is_allday s = true ->
  _get_rrule self = Ok (Some gen) ->
  (forall j d, gen j = Some d -> shape_of d <> SDate) ->
  first_exception_start self (datetime_as after s) = Ok (Some st, Some x) ->
  next_occurrence fuel self after = OutOfFuel
  \/ exists e, next_occurrence fuel self after = Raise e.
Proof.
  intros Hn Hs Hall Hrule Hgen Hc.
  destruct (next_occurrence fuel self after) as [r|e|] eqn:Hres;
    [exfalso | right; now exists e | now left].
  revert Hres.
  rewrite (next_occurrence_recurring E fuel self after s gen Hs Hrule).
  pose proof (first_exception_start_spec _ _ _ Hc) as Hcand.
  pose proof (allday_candidate_hand_back_raises E self after s st x Hn Hall Hcand) as Hback.
  destruct (_find_next_occurrence fuel self gen (datetime_as after s)) as [found| |] eqn:Hf;
    cbn [res_bind]; try discriminate.
  assert (Hfound : found = (Some st, Some x)); [|now rewrite Hfound, Hback].
  unfold _find_next_occurrence in Hf. rewrite Hc in Hf. cbn [res_bind] in Hf.
  destruct (exception_original_starts self) as [originals| |]; cbn [res_bind] in Hf;
    try discriminate.
  destruct (is_declined_by_me self || is_declined_by_others self); [congruence|].
  apply walk_xafter_inv in Hf as (n & _ & _ & [[_ ->]|(d & Hd & _ & Hstop)]);
    [reflexivity|].
  destruct Hstop as [(_ & _ & _ & ->)|(Hlater & _ & _)]; [reflexivity|].
  exfalso. unfold exception_later in Hlater. cbn [fst] in Hlater.
  destruct (allday_candidate_is_date E self after s st x Hn Hall Hcand) as [day ->].
  apply py_le_Ok in Hlater as [Hshape _]. apply (Hgen _ _ Hd). now rewrite <- Hshape.
Qed.

Lemma allday_candidate_never_returned_witness :
  next_occurrence (E := sample_externals) 1
    (allday_series "RRULE:FREQ=DAILY" [accepted_by_me] [("moved", moved_day)]) (jan 2)
  = OutOfFuel
  \/ exists e,
      next_occurrence (E := sample_externals) 1
        (allday_series "RRULE:FREQ=DAILY" [accepted_by_me] [("moved", moved_day)]) (jan 2)
      = Raise e.
Proof.
  refine (allday_candidate_never_returned sample_externals
            (allday_series "RRULE:FREQ=DAILY" [accepted_by_me] [("moved", moved_day)])
            (jan 2) (jan 1) (jan 4) moved_day (daily None (ensure_datetime (jan 1))) 1
            sample_normalizes eq_refl eq_refl eq_refl _ eq_refl).
  intros j d Hj. apply daily_Some in Hj. now subst d.
Defined.

(** ** Missing keys *)

Lemma start_error self e : start self = Raise e -> e = KeyError.
Proof.
  unfold start, _parse_start. destruct (r_start (_raw self)) as [rs|]; [|congruence].
  destruct (date rs); [discriminate|]. destruct (dateTime rs); [discriminate|congruence].
Qed.

Lemma start_not_out_of_fuel self : start self <> OutOfFuel.
Proof.
  unfold start, _parse_start. destruct (r_start (_raw self)) as [rs|]; [|discriminate].
  destruct (date rs); [discriminate|]. destruct (dateTime rs); discriminate.
Qed.

Lemma non_cancelled_exception_starts_missing xs x :
  In x xs -> qualifies x = true -> r_start (_raw x) = None ->
  non_cancelled_exception_starts xs = Raise KeyError.
Proof.
  intros Hin Hq Hs. induction xs as [|y xs IH]; [destruct Hin|].
  cbn [non_cancelled_exception_starts]. destruct (qualifies y) eqn:Hqy.
  - destruct (start y) as [sy|e|] eqn:Hsy; cbn [res_bind].
    + destruct Hin as [->|Hin].
      * unfold start in Hsy. rewrite Hs in Hsy. discriminate.
      * now rewrite (IH Hin).
    + apply start_error in Hsy. now subst e.
    + now apply start_not_out_of_fuel in Hsy.
  - destruct Hin as [->|Hin]; [congruence|]. now apply IH.
Qed.

Lemma non_cancelled_exception_starts_filter xs :
  non_cancelled_exception_starts (List.filter qualifies xs)
  = non_cancelled_exception_starts xs.
Proof.
  induction xs as [|y xs IH]; [reflexivity|]. cbn [List.filter non_cancelled_exception_starts].
  destruct (qualifies y) eqn:Hq; [|exact IH].
  cbn [non_cancelled_exception_starts]. now rewrite Hq, IH.
Qed.

Lemma res_map_original_starts_missing xs x :
  In x xs -> r_originalStartTime (_raw x) = None ->
  res_map _get_original_start xs = Raise KeyError.
Proof.
  intros Hin Ho. induction xs as [|y xs IH]; [destruct Hin|].
  cbn [res_map].
  assert (Herr : forall z, (exists o, _get_original_start z = Ok o)
                           \/ _get_original_start z = Raise KeyError).
  { intros z. unfold _get_original_start, _parse_start.
    destruct (r_originalStartTime (_raw z)) as [rs|]; [|now right].
    destruct (date rs); [left; now eexists|].
    destruct (dateTime rs); [left; now eexists | now right]. }
  destruct (Herr y) as [[o Hy]|Hy]; rewrite Hy; cbn [res_bind]; [|reflexivity].
  destruct Hin as [->|Hin].
  - unfold _get_original_start in Hy. rewrite Ho in Hy. discriminate.
  - now rewrite (IH Hin).
Qed.

Lemma first_exception_start_not_out_of_fuel self after_dt :
  first_exception_start self after_dt <> OutOfFuel.
Proof.
  assert (H1 : forall xs, non_cancelled_exception_starts xs <> OutOfFuel).
  { induction xs as [|y xs IH]; cbn [non_cancelled_exception_starts]; [discriminate|].
    destruct (qualifies y); [|exact IH].
    destruct (start y) eqn:Hs; cbn [res_bind]; try discriminate.
    - destruct (non_cancelled_exception_starts xs); cbn [res_bind]; try discriminate.
      now contradiction IH.
    - now apply start_not_out_of_fuel in Hs. }
  assert (Hlt : forall a b, py_lt a b <> OutOfFuel).
  { intros [?|? [?|]] [?|? [?|]]; discriminate. }
  assert (H2 : forall l, future_exception_starts l after_dt <> OutOfFuel).
  { induction l as [|[s0 e0] l IH]; cbn [future_exception_starts]; [discriminate|].
    unfold py_gt. destruct (py_lt after_dt s0) eqn:Hp; cbn [res_bind]; try discriminate.
    - destruct (future_exception_starts l after_dt); cbn [res_bind]; try discriminate.
      now contradiction IH.
    - now apply Hlt in Hp. }
  assert (H3 : forall l best, min_by_start best l <> OutOfFuel).
  { induction l as [|c l IH]; intros best; cbn [min_by_start]; [discriminate|].
    destruct (py_lt (fst c) (fst best)) eqn:Hp; cbn [res_bind]; try discriminate.
    - apply IH.
    - now apply Hlt in Hp. }
  unfold first_exception_start.
  destruct (non_cancelled_exception_starts (values (exceptions self))) eqn:Hn;
    cbn [res_bind]; try discriminate; [|now apply H1 in Hn].
  destruct (future_exception_starts a after_dt) as [[|c l]| |] eqn:Hfut; cbn [res_bind];
    try discriminate; [|now apply H2 in Hfut].
  destruct (min_by_start c l) eqn:Hm; cbn [res_bind]; try discriminate.
  now apply H3 in Hm.
Qed.

(** X11: keys that the search reads without a test.  An exception of the
    series that is not cancelled and not declined and has no ['start']
    makes [_find_next_occurrence] raise [KeyError]; an exception without
    ['originalStartTime'], whatever its status, makes it raise, also when
    the series is declined.  An exception that is cancelled or declined may
    lack its ['start']: the exception candidate is that of the series
    without these exceptions. *)
Theorem find_next_occurrence_missing_key (fuel : nat) (self : CalendarEvent)
    (gen : rrule) (after_dt : pytime) (x : CalendarEvent) :
  In x (values (exceptions self)) ->
  (qualifies x = true -> r_start (_raw x) = None ->
   _find_next_occurrence fuel self gen after_dt = Raise KeyError)
  /\ (r_originalStartTime (_raw x) = None ->
      exists e, _find_next_occurrence fuel self gen after_dt = Raise e)
  /\ first_exception_start self after_dt
     = first_exception_start
         (with_exceptions self
            (List.filter (fun kx => qualifies (snd kx)) (exceptions self))) after_dt.
Proof.
  intros Hin. split; [|split].
  - intros Hq Hs. unfold _find_next_occurrence, first_exception_start.
    now rewrite (non_cancelled_exception_starts_missing _ x Hin Hq Hs).
  - intros Ho. unfold _find_next_occurrence.
    destruct (first_exception_start self after_dt) as [c|e|] eqn:Hc; cbn [res_bind].
    + unfold exception_original_starts.
      rewrite (res_map_original_starts_missing _ x Hin Ho). now exists KeyError.
    + now exists e.
    + now apply first_exception_start_not_out_of_fuel in Hc.
  - unfold first_exception_start. cbn [exceptions with_exceptions]. f_equal.
    rewrite <- non_cancelled_exception_starts_filter. f_equal.
    unfold values. clear. induction (exceptions self) as [|[k y] d IH]; [reflexivity|].
    cbn [map List.filter snd]. destruct (qualifies y); cbn [map snd]; now rewrite IH.
Qed.

Lemma find_next_occurrence_missing_key_witness :
  let self := timed_series [declined_by_me] [("linked", linked_event)] in
  let gen := daily None (jan_at 1 9) in
  (qualifies linked_event = true -> r_start (_raw linked_event) = None ->
   _find_next_occurrence 10 self gen (jan_at 2 12) = Raise KeyError)
  /\ (r_originalStartTime (_raw linked_event) = None ->
      exists e, _find_next_occurrence 10 self gen (jan_at 2 12) = Raise e)
  /\ first_exception_start self (jan_at 2 12)
     = first_exception_start
         (with_exceptions self
            (List.filter (fun kx => qualifies (snd kx)) (exceptions self))) (jan_at 2 12).
Proof.
  refine (find_next_occurrence_missing_key 10
            (timed_series [declined_by_me] [("linked", linked_event)])
            (daily None (jan_at 1 9)) (jan_at 2 12) linked_event _).
  now left.
Defined.

(** ** The last occurrence *)

Lemma rrule_list_generates (gen : rrule) l : forall fuel i,
  (forall j d, l !! j = Some d -> gen (i + j)%nat = Some d) ->
  gen (i + length l)%nat = None ->
  (length l < fuel)%nat ->
  rrule_list fuel gen i = Ok l.
Proof.
  induction l as [|d l IH]; intros fuel i Hl Hend Hfuel;
    (destruct fuel as [|fuel]; [cbn in Hfuel; lia|]); cbn [rrule_list].
  - cbn in Hend. rewrite Nat.add_0_r in Hend. now rewrite Hend.
  - rewrite <- (Nat.add_0_r i), (Hl 0%nat d eq_refl). rewrite Nat.add_0_r.
    rewrite (IH fuel (S i)); [reflexivity| | |cbn in Hfuel; lia].
    + intros j d' Hj. replace (S i + j)%nat with (i + S j)%nat by lia. now apply Hl.
    + replace (S i + length l)%nat with (i + length (d :: l))%nat by (cbn; lia). exact Hend.
Qed.

Lemma rev_last {A} (l : list A) :
  match rev l with [] => last l = None | x :: _ => last l = Some x end.
Proof.
  destruct l as [|a l] using rev_ind; [reflexivity|].
  rewrite rev_app_distr. cbn. apply last_snoc.
Qed.

(** X12: [_last_occurrence] on a series whose rule generates finitely many
    instants, of the shape of its [dtstart]: the result is the last instant
    generated, as a date for an all-day series and else in the zone of the
    start, and [None] when the rule generates no instant. *)
Theorem last_occurrence_finite (E : Externals) (self : CalendarEvent) (s : pytime)
    (gen : rrule) (l : list pytime) (fuel : nat) :
  start self = Ok s ->
  _get_rrule self = Ok (Some gen) ->
  generates gen l ->
  (forall d, In d l -> shape_of d = shape_of (ensure_datetime s)) ->
  (length l < fuel)%nat ->
  _last_occurrence fuel self = Ok (converted s <$> last l).
Proof.
  intros Hs Hrule [Hgen Hend] Hshape Hfuel. unfold _last_occurrence.
  rewrite Hrule, Hs. cbn [res_bind].
  rewrite (rrule_list_generates gen l fuel 0); [|exact Hgen|exact Hend|exact Hfuel].
  cbn [res_bind]. pose proof (rev_last l) as Hlast.
  destruct (rev l) as [|d rest] eqn:Hrev; rewrite Hlast; [reflexivity|].
  assert (Hd : In d l).
  { apply in_rev. rewrite Hrev. now left. }
  specialize (Hshape d Hd). cbn [fmap option_fmap option_map].
  pose proof (start_shape self s Hs) as [Hdate|Haware].
  - destruct s as [day|? ?]; [|destruct tzinfo; discriminate].
    cbn in Hshape |- *. destruct d as [?|sec [tz|]]; try discriminate. reflexivity.
  - destruct s as [day|t [tz|]]; try discriminate.
    cbn in Hshape |- *. destruct d as [?|sec [tz'|]]; try discriminate. reflexivity.
Qed.

Lemma last_occurrence_finite_witness :
  _last_occurrence (E := sample_externals) 4
    (allday_series "RRULE:FREQ=DAILY;COUNT=3" [accepted_by_me] [])
  = Ok (converted (jan 1)
          <$> last [ensure_datetime (jan 1); ensure_datetime (jan 2); ensure_datetime (jan 3)]).
Proof.
  apply (last_occurrence_finite sample_externals
           (allday_series "RRULE:FREQ=DAILY;COUNT=3" [accepted_by_me] [])
           (jan 1) (daily (Some 3%nat) (ensure_datetime (jan 1)))
           [ensure_datetime (jan 1); ensure_datetime (jan 2); ensure_datetime (jan 3)] 4
           eq_refl eq_refl).
  - split; [|reflexivity]. intros [|[|[|i]]] d; cbn; intros [= <-]; reflexivity.
  - intros d [<-|[<-|[<-|[]]]]; reflexivity.
  - cbn. lia.
Defined.

(** The last day of a three-day series, and the last meeting of a timed
    one. *)
Example last_occurrence_count_3 :
  _last_occurrence (E := sample_externals) 4
    (allday_series "RRULE:FREQ=DAILY;COUNT=3" [accepted_by_me] []) = Ok (Some (jan 3)).
Proof. reflexivity. Qed.

(** X14: on an event without recurrence [_last_occurrence] raises: the
    rule is [None], which has no [count]; the start is read before that, so
    an event that has no start either raises [KeyError]. *)
Theorem last_occurrence_not_recurring (E : Externals) (self : CalendarEvent) (fuel : nat) :
  r_recurrence (_raw self) = None ->
  _last_occurrence fuel self
  = match start self with
    | Ok _ => Raise AttributeError
    | _ => Raise KeyError
    end.
Proof.
  intros Hrec. unfold _last_occurrence, _get_rrule, _get_recurrence. rewrite Hrec.
  cbn [res_bind]. destruct (start self) as [s|e|] eqn:Hs; cbn [res_bind].
  - reflexivity.
  - apply start_error in Hs. now subst e.
  - now apply start_not_out_of_fuel in Hs.
Qed.

Lemma last_occurrence_not_recurring_witness :
  _last_occurrence (E := sample_externals) 5 moved_meeting
  = match start moved_meeting with
    | Ok _ => Raise AttributeError
    | _ => Raise KeyError
    end.
Proof. exact (last_occurrence_not_recurring sample_externals moved_meeting 5 eq_refl). Defined.

(** ** The response of the user *)


(** ** Returned occurrences are later *)

Lemma normalize_later_instant (E : Externals) s a f d :
  shape_of a = shape_of s ->
  shape_of s = SDate \/ shape_of s = SAware ->
  py_gt f (ensure_datetime a) = Ok true ->
  (is_allday s = true -> ticks f mod 86400 = 0) ->
  normalize s f = Ok d ->
  py_gt d a = Ok true.
Proof.
  intros Ha Hs Hgt Hmid. unfold normalize, py_gt in *.
  destruct s as [day|t [tz|]]; cbn in Ha, Hs, Hmid |- *;
    try (destruct Hs; discriminate).
  - destruct a as [a|? [?|]]; try discriminate. cbn [ensure_datetime] in Hgt.
    destruct f as [?|sec [?|]]; try discriminate. cbn in Hgt |- *.
    injection Hgt as Hgt. intros [= <-]. cbn. f_equal.
    specialize (Hmid eq_refl). cbn in Hmid. apply Z.ltb_lt in Hgt. apply Z.ltb_lt.
    revert Hmid. Z.div_mod_to_equations. lia.
  - destruct a as [?|a [?|]]; try discriminate. cbn [ensure_datetime] in Hgt.
    destruct f as [?|sec [?|]]; try discriminate. cbn in Hgt |- *.
    intros [= <-]. exact Hgt.
Qed.

Lemma normalize_later_candidate (E : Externals) s a f d :
  shape_of a = shape_of s ->
  shape_of s = SDate \/ shape_of s = SAware ->
  py_gt f a = Ok true ->
  normalize s f = Ok d ->
  py_gt d a = Ok true.
Proof.
  intros Ha Hs Hgt. unfold normalize, py_gt in *.
  destruct s as [day|t [tz|]]; cbn in Ha, Hs |- *; try (destruct Hs; discriminate).
  - destruct a as [a|? [?|]]; try discriminate.
    destruct f as [?|sec [?|]]; try discriminate.
  - destruct a as [?|a [?|]]; try discriminate.
    destruct f as [?|sec [?|]]; try discriminate. cbn in Hgt |- *.
    intros [= <-]. exact Hgt.
Qed.

(** X16: an occurrence that [next_occurrence] returns is strictly after
    [after], as [datetime_as] gives it in the shape of the start, for an
    event with or without recurrence and for any exceptions.  For an all-day
    series this rests on the instants of the rule being at midnight, as
    those of a rule that starts at midnight are. *)
Theorem next_occurrence_is_later (E : Externals) (self : CalendarEvent)
    (after s d : pytime) (x : CalendarEvent) (fuel : nat) :
  datetime_as_normalizes E ->
  start self = Ok s ->
  (forall gen j dj, _get_rrule self = Ok (Some gen) -> is_allday s = true ->
     gen j = Some dj -> ticks dj mod 86400 = 0) ->
  next_occurrence fuel self after = Ok (Some d, Some x) ->
  py_gt d (datetime_as after s) = Ok true.
Proof.
  intros Hn Hs Hmid. pose proof (start_shape self s Hs) as Hshape.
  pose proof (Hn after s) as Ha.
  destruct (_get_rrule self) as [[gen|]| |] eqn:Hrule.
  - rewrite (next_occurrence_recurring E fuel self after s gen Hs Hrule).
    destruct (_find_next_occurrence fuel self gen (datetime_as after s))
      as [[[f|] src]| |] eqn:Hf; cbn [res_bind hand_back fst snd]; try discriminate.
    destruct (normalize s f) as [c| |] eqn:Hnorm; cbn [res_bind]; try discriminate.
    intros [= -> ->].
    apply find_next_occurrence_inv in Hf as (originals & _ & Hcases). cbn zeta in Hcases.
    destruct Hcases as [Hcand|(_ & _ & n & _ & Hd & Hgt & _)].
    + destruct Hcand as (_ & _ & _ & Hgt & _).
      now apply (normalize_later_candidate E s _ f).
    + apply (normalize_later_instant E s _ f); try assumption.
      intros Hall. now apply (Hmid gen n).
  - unfold next_occurrence. rewrite Hs, Hrule. cbn [res_bind].
    destruct (py_lt (datetime_as after s) s) as [later| |] eqn:Hlt; cbn [res_bind];
      try discriminate.
    destruct (later && negb (is_declined_by_me self || is_declined_by_others self))
      eqn:Hb; [|discriminate].
    intros [= <- _]. apply andb_true_iff in Hb as [-> _]. exact Hlt.
  - unfold next_occurrence. rewrite Hs, Hrule. discriminate.
  - unfold next_occurrence. rewrite Hs, Hrule. discriminate.
Qed.

Lemma next_occurrence_is_later_witness :
  py_gt (jan 3) (datetime_as (Externals := sample_externals) (jan 2) (jan 1)) = Ok true.
Proof.
  refine (next_occurrence_is_later sample_externals
            (allday_series "RRULE:FREQ=DAILY" [accepted_by_me] [])
            (jan 2) (jan 1) (jan 3)
            (allday_series "RRULE:FREQ=DAILY" [accepted_by_me] []) 10
            sample_normalizes eq_refl _ eq_refl).
  intros gen j dj Hrule _ Hj.
  assert (Hr : _get_rrule (E := sample_externals)
                 (allday_series "RRULE:FREQ=DAILY" [accepted_by_me] [])
               = Ok (Some (daily None (ensure_datetime (jan 1))))) by reflexivity.
  rewrite Hr in Hrule. injection Hrule as <-. apply daily_Some in Hj. subst dj.
  cbn [ticks ensure_datetime jan].
  replace (days_from_civil 2024 1 1 * 86400 + 86400 * Z.of_nat j)
    with ((days_from_civil 2024 1 1 + Z.of_nat j) * 86400) by lia.
  apply Z_mod_mult.
Defined.

(** ** The conference link *)

Lemma video_entrypoints_spec entries :
  video_entrypoints entries
  = if forallb (fun entry => negb (is_video entry) || bool_decide (is_Some (uri entry)))
         entries
    then Ok (omap uri (List.filter is_video entries))
    else Raise KeyError.
Proof.
  induction entries as [|entry entries IH]; [reflexivity|].
  cbn [video_entrypoints forallb List.filter]. destruct (is_video entry); cbn [negb orb].
  - destruct (uri entry) as [u|] eqn:Hu; cbn [andb].
    + rewrite bool_decide_eq_true_2 by (now exists u). cbn [andb]. rewrite IH.
      destruct (forallb _ entries); cbn [res_bind]; [|reflexivity].
      cbn [omap list_omap]. now rewrite Hu.
    + rewrite bool_decide_eq_false_2; [reflexivity|]. now intros [? ?].
  - exact IH.
Qed.


(** A record with a phone entry point and two video entry points: the
    first video link is returned; when a later video entry point has no
    ['uri'] the call raises. *)
Example conference_link_sample :
  let phone := {| entryPointType := Some "phone"; uri := Some "tel:+1-555-0100" |} in
  let video := {| entryPointType := Some "video"; uri := Some "https://meet.example/abc" |} in
  let second := {| entryPointType := Some "video"; uri := Some "https://meet.example/def" |} in
  let broken := {| entryPointType := Some "video"; uri := None |} in
  conference_link (fun _ => Some {| entryPoints := Some [phone; video; second] |}) moved_meeting
  = Ok (Some "https://meet.example/abc")
  /\ conference_link (fun _ => Some {| entryPoints := Some [phone; video; broken] |})
       moved_meeting
     = Raise KeyError
  /\ conference_link (fun _ => Some {| entryPoints := Some [phone] |}) moved_meeting = Ok None.
Proof. repeat split. Qed.
